(** * Othello game logic (src/Othello.py, src/Constants.py)

    A shallow embedding of the board/rules engine, the Zobrist-hashed search
    state [HashedLocalVersus], the turn iterator, the evaluation functions and
    the alpha-beta / MTD(f) search of the [AI] class.

    Conventions:
    - the Python strings "W", "B", "E" used as cell contents are the
      constructors of [piece];
    - a board [self.board] is a list of rows, [board[y][x]];
    - Python ints are [Z]; Python floats are Rocq's primitive IEEE-754
      binary64 floats ([PrimFloat]), which is what CPython uses;
    - a Python dict is an association list kept in insertion order (the
      order is observable: [sorted] in [minimax] is stable);
    - an exception is [None] (or the [Err] branch of [result]). *)

From Stdlib Require Import ZArith Lia Bool List String Ascii.
From Stdlib Require Import Floats Uint63.
From stdpp Require Import base list gmap.

Import ListNotations.
Open Scope Z_scope.

Module Othello.

(** ** Constants.py *)

Inductive piece := W | B | E.

#[global] Instance piece_eq_dec : EqDecision piece.
Proof. solve_decision. Defined.

Definition BOARD_SIZE : Z := 8.

(** [FLIP_RULE = {"W": "B", "B": "W", "E": "E"}] *)
Definition FLIP_RULE (c : piece) : piece :=
  match c with W => B | B => W | E => E end.

(** [FLIP_LINES], in the order of the source. *)
Definition FLIP_LINES : list (Z * Z) :=
  [(-1, -1); (-1, 1); (1, -1); (1, 1); (1, 0); (-1, 0); (0, 1); (0, -1)].

(** [XOR_INDICES = {"W": 1, "B": 2, "E": 0}] *)
Definition XOR_INDICES (c : piece) : nat :=
  match c with W => 1 | B => 2 | E => 0 end%nat.

(** [range(n)] as Python ints. *)
Definition zrange (n : Z) : list Z := map Z.of_nat (seq 0 (Z.to_nat n)).

(** ** The board *)

Definition grid := list (list piece).

(** [board[y][x]] (only ever read at in-range coordinates). *)
Definition get (g : grid) (x y : Z) : piece :=
  nth (Z.to_nat x) (nth (Z.to_nat y) g []) E.

Fixpoint upd {A} (i : nat) (v : A) (l : list A) : list A :=
  match l, i with
  | [], _ => []
  | _ :: t, O => v :: t
  | h :: t, S i' => h :: upd i' v t
  end.

(** [board[y][x] = c] (only ever written at in-range coordinates). *)
Definition set (g : grid) (x y : Z) (c : piece) : grid :=
  upd (Z.to_nat y) (upd (Z.to_nat x) c (nth (Z.to_nat y) g [])) g.

Definition in_range (x y : Z) : Prop := 0 <= x < 8 /\ 0 <= y < 8.

#[global] Instance in_range_dec x y : Decision (in_range x y).
Proof. unfold in_range. apply _. Defined.

(** An 8x8 board. *)
Definition wf (g : grid) : Prop := length g = 8%nat /\ Forall (fun r => length r = 8%nat) g.

(** The start position of [Othello.__init__]:
    [START_POS.get((x, y), "E")] for y rows and x columns. *)
Definition START_POS (x y : Z) : piece :=
  if decide ((x, y) = (4, 4)) then W
  else if decide ((x, y) = (3, 3)) then W
  else if decide ((x, y) = (3, 4)) then B
  else if decide ((x, y) = (4, 3)) then B
  else E.

Definition start_board : grid :=
  map (fun y => map (fun x => START_POS x y) (zrange BOARD_SIZE)) (zrange BOARD_SIZE).

(** ** [Othello.line_iterator]

    For one direction [(step_x, step_y)] the inner [for i in range(1, 8)]
    loop.  It returns [Some i] when [flip_line_holds] is set, at the [i] of
    the [break]; [None] when the loop ends without it. *)
Fixpoint scan_loop (g : grid) (pos : Z * Z) (c : piece) (d : Z * Z)
    (i : Z) (fuel : nat) (done_first_iter : bool) : option Z :=
  match fuel with
  | O => None
  | S f =>
      let x := d.1 * i + pos.1 in
      let y := d.2 * i + pos.2 in
      if decide (in_range x y) then
        if negb done_first_iter then
          if decide (get g x y <> FLIP_RULE c) then None
          else scan_loop g pos c d (i + 1) f true
        else if decide (get g x y = c) then Some i
        else if decide (get g x y = E) then None
        else scan_loop g pos c d (i + 1) f true
      else None
  end.

Definition line_scan (g : grid) (pos : Z * Z) (c : piece) (d : Z * Z) : option Z :=
  scan_loop g pos c d 1 7 false.

(** The cells yielded for one direction: [for z in range(1, i)]. *)
Definition line_cells (pos : Z * Z) (d : Z * Z) (i : Z) : list (Z * Z * (Z * Z)) :=
  map (fun z => (d.1 * z + pos.1, d.2 * z + pos.2, d)) (map (Z.add 1) (zrange (i - 1))).

(** The generator, consumed on a board that does not change meanwhile. *)
Definition line_iterator (g : grid) (pos : Z * Z) (c : piece) (check_lines : list (Z * Z))
    : list (Z * Z * (Z * Z)) :=
  flat_map (fun d => match line_scan g pos c d with
                     | Some i => line_cells pos d i
                     | None => []
                     end) check_lines.

(** [check_flip_line]: the direction of the first yielded cell, if any. *)
Definition check_flip_line (g : grid) (pos : Z * Z) (c : piece) (check_line : Z * Z)
    : option (Z * Z) :=
  match line_iterator g pos c [check_line] with
  | (_, _, d) :: _ => Some d
  | [] => None
  end.

(** ** Python dicts as association lists in insertion order *)

Definition dict (K V : Type) := list (K * V).

Fixpoint dict_get {K V} `{EqDecision K} (d : dict K V) (k : K) : option V :=
  match d with
  | [] => None
  | (k', v) :: t => if decide (k = k') then Some v else dict_get t k
  end.

(** [d[k] = v]: an existing key keeps its place, a new key goes last. *)
Fixpoint dict_set {K V} `{EqDecision K} (d : dict K V) (k : K) (v : V) : dict K V :=
  match d with
  | [] => [(k, v)]
  | (k', v') :: t => if decide (k = k') then (k', v) :: t else (k', v') :: dict_set t k v
  end.

Definition keys {K V} (d : dict K V) : list K := map fst d.

(** [possible_moves = {"W": {...}, "B": {...}}]: per colour, the map from
    a position to the list of its flip directions. *)
Record pmoves := mk_pmoves { pmW : dict (Z * Z) (list (Z * Z)); pmB : dict (Z * Z) (list (Z * Z)) }.

(** [possible_moves[c]]; [None] is the [KeyError] of [possible_moves["E"]]. *)
Definition pm_get (pm : pmoves) (c : piece) : option (dict (Z * Z) (list (Z * Z))) :=
  match c with W => Some (pmW pm) | B => Some (pmB pm) | E => None end.

(** ** [Othello.adjacent] *)
Definition adjacent (g : grid) (pos : Z * Z) : list (piece * (Z * Z)) :=
  flat_map (fun '(sx, sy) =>
              let x := pos.1 + sx in let y := pos.2 + sy in
              if decide (in_range x y) then
                if decide (get g x y <> E) then [(get g x y, (sx, sy))] else []
              else []) FLIP_LINES.

(** ** [Othello.board_change]

    The flags [w_check] and [b_check] of the source are never set to
    [True], so the tests [not w_check] and [not b_check] always hold. *)
Definition add_dir (d : dict (Z * Z) (list (Z * Z))) (pos : Z * Z) (chk : Z * Z) :=
  match dict_get d pos with
  | Some old => dict_set d pos (old ++ [chk])
  | None => dict_set d pos [chk]
  end.

Definition adj_step (g : grid) (pos : Z * Z) (pm : pmoves) (adjacency : piece * (Z * Z)) : pmoves :=
  match adjacency.1 with
  | W => match check_flip_line g pos B adjacency.2 with
         | Some chk => mk_pmoves (pmW pm) (add_dir (pmB pm) pos chk)
         | None => pm
         end
  | B => match check_flip_line g pos W adjacency.2 with
         | Some chk => mk_pmoves (add_dir (pmW pm) pos chk) (pmB pm)
         | None => pm
         end
  | E => pm
  end.

Definition cell_step (g : grid) (pm : pmoves) (x y : Z) : pmoves :=
  if decide (get g x y = E) then fold_left (adj_step g (x, y)) (adjacent g (x, y)) pm
  else pm.

Definition board_change (g : grid) : pmoves :=
  fold_left (fun pm x => fold_left (fun pm y => cell_step g pm x y) (zrange BOARD_SIZE) pm)
            (zrange BOARD_SIZE) (mk_pmoves [] []).

(** ** [Othello.count_pieces] (note the source reads [board[x][y]]) *)
Record counts := mk_counts { cW : Z; cB : Z; cE : Z }.

Definition count_add (cnt : counts) (c : piece) : counts :=
  match c with
  | W => mk_counts (cW cnt + 1) (cB cnt) (cE cnt)
  | B => mk_counts (cW cnt) (cB cnt + 1) (cE cnt)
  | E => mk_counts (cW cnt) (cB cnt) (cE cnt + 1)
  end.

Definition count_pieces (g : grid) : counts :=
  fold_left (fun cnt x => fold_left (fun cnt y => count_add cnt (get g y x)) (zrange BOARD_SIZE) cnt)
            (zrange BOARD_SIZE) (mk_counts 0 0 0).

(** [Othello.flip], [Othello.flip_line] and [Othello.place] on the plain
    board (no hash): set the cell, flip the lines recorded for [pos], then
    [board_change].  [None] is the [KeyError] of an unknown [pos]. *)
Definition oflip (g : grid) (pos : Z * Z) : grid :=
  let '(x, y) := pos in set g x y (FLIP_RULE (get g x y)).

Definition oflip_line (g : grid) (pos : Z * Z) (c : piece) (dirs : list (Z * Z)) : grid :=
  fold_left (fun g d =>
    match line_scan g pos c d with
    | Some i => fold_left (fun g '(x, y, _) => oflip g (x, y)) (line_cells pos d i) g
    | None => g
    end) dirs g.

Definition oplace (g : grid) (pm : pmoves) (pos : Z * Z) (c : piece) : option (grid * pmoves) :=
  let '(x, y) := pos in
  match pm_get pm c with
  | None => None
  | Some d =>
      match dict_get d pos with
      | None => None
      | Some dirs => let g' := oflip_line (set g x y c) pos c dirs in Some (g', board_change g')
      end
  end.

End Othello.

(** ** [HashedLocalVersus] as a value: board, Zobrist hash, legal moves and
    the shared random table [self.table] (64 rows of 3 ints). *)
Module Zobrist.
Import Othello.

Definition table := list (list Z).

(** [self.table[pos[1] * BOARD_SIZE + pos[0]][k]] *)
Definition tbl (T : table) (x y : Z) (k : nat) : Z :=
  nth k (nth (Z.to_nat (y * BOARD_SIZE + x)) T []) 0.

Record hstate := mk_hstate {
  hs_board : grid;
  hs_hash : Z;
  hs_pm : pmoves;
  hs_table : table
}.

(** The hash computed by [AI.get_hash_version] (y outer, x inner). *)
Definition get_hash_version_hash (g : grid) (T : table) : Z :=
  fold_left (fun h y =>
    fold_left (fun h x => Z.lxor h (tbl T x y (XOR_INDICES (get g x y)))) (zrange BOARD_SIZE) h)
    (zrange BOARD_SIZE) 0.

(** [AI.get_hash_version]: the search root built from the live game. *)
Definition get_hash_version (g : grid) (pm : pmoves) (T : table) : hstate :=
  mk_hstate g (get_hash_version_hash g T) pm T.

(** [HashedLocalVersus.flip] *)
Definition flip (st : hstate) (pos : Z * Z) : hstate :=
  let '(x, y) := pos in
  let current_colour := get (hs_board st) x y in
  let g := set (hs_board st) x y (FLIP_RULE current_colour) in
  let h := Z.lxor (hs_hash st) (tbl (hs_table st) x y (XOR_INDICES current_colour)) in
  let h := Z.lxor h (tbl (hs_table st) x y (XOR_INDICES (FLIP_RULE current_colour))) in
  mk_hstate g h (hs_pm st) (hs_table st).

(** [Othello.flip_line] with the overridden [flip].  The generator checks
    each direction on the board as the flips of the earlier directions
    left it, then flips the cells it yields one by one. *)
Definition flip_line (st : hstate) (pos : Z * Z) (c : piece) (dirs : list (Z * Z)) : hstate :=
  fold_left (fun st d =>
    match line_scan (hs_board st) pos c d with
    | Some i => fold_left (fun st '(x, y, _) => flip st (x, y)) (line_cells pos d i) st
    | None => st
    end) dirs st.

(** [HashedLocalVersus.place]; [None] is the [KeyError] raised by
    [self.possible_moves[current_colour][pos]] inside [flip_line]. *)
Definition place (st : hstate) (pos : Z * Z) (c : piece) : option hstate :=
  let '(x, y) := pos in
  let g := set (hs_board st) x y c in
  let h := Z.lxor (hs_hash st) (tbl (hs_table st) x y (XOR_INDICES E)) in
  let h := Z.lxor h (tbl (hs_table st) x y (XOR_INDICES c)) in
  match pm_get (hs_pm st) c with
  | None => None
  | Some d =>
      match dict_get d pos with
      | None => None
      | Some dirs =>
          let st' := flip_line (mk_hstate g h (hs_pm st) (hs_table st)) pos c dirs in
          Some (mk_hstate (hs_board st') (hs_hash st') (board_change (hs_board st')) (hs_table st'))
      end
  end.

(** A sequence of [place] calls. *)
Fixpoint place_seq (st : hstate) (moves : list ((Z * Z) * piece)) : option hstate :=
  match moves with
  | [] => Some st
  | (pos, c) :: rest =>
      match place st pos c with
      | Some st' => place_seq st' rest
      | None => None
      end
  end.

(** A fixed table standing for the 64 x 3 random 64-bit numbers of
    [AI.__init__]. *)
Definition sample_table : table :=
  map (fun i => map (fun k => Z.land ((Z.of_nat i * 2654435761 + Z.of_nat k * 40503 + 12345)
                                      * 6364136223846793005) (2 ^ 64 - 1)) (seq 0 3)) (seq 0 64).

(** The hash agrees with the board. *)
Definition hash_ok (st : hstate) : Prop :=
  hs_hash st = get_hash_version_hash (hs_board st) (hs_table st).

(** The legal moves are those of the board. *)
Definition pm_ok (st : hstate) : Prop := hs_pm st = board_change (hs_board st).

End Zobrist.

(** ** [Othello.end_game_iterator] as a state machine.

    The generator's only state is its local [colour].  One step runs the
    body of [while True] from a resume point to the next [yield] (or to the
    [break]) on the legal moves the game has at that moment, and returns the
    yielded colour and the value of [colour] when the generator suspends. *)
Module Turns.
Import Othello.

(** [len(self.possible_moves[colour])]; [colour] is always "W" or "B"
    (the default "B", or [FLIP_RULE] of one of them). *)
Definition n_moves (pm : pmoves) (c : piece) : nat :=
  match pm_get pm c with Some d => length d | None => 0%nat end.

Definition end_game_step (pm : pmoves) (colour : piece) : option (piece * piece) :=
  if decide (n_moves pm colour <> 0%nat) then
    Some (colour, FLIP_RULE colour)            (* yield colour; colour = FLIP_RULE[colour] *)
  else if decide (n_moves pm (FLIP_RULE colour) <> 0%nat) then
    Some (FLIP_RULE colour, FLIP_RULE colour)  (* colour = FLIP_RULE[colour]; yield colour *)
  else None.                                   (* break *)

End Turns.

(** ** Evaluation: [AI.check_if_terminal], [AI.terminal_utility],
    [AI.heuristic_utility], [AI.dumb_line_iterator]. *)
Module Eval.
Import Othello Zobrist.

(** [sorted(count.items(), key=lambda item: item[1], reverse=True)]:
    a stable sort, descending; equal counts keep the dict order W, B, E. *)
Fixpoint insert_desc (x : piece * Z) (l : list (piece * Z)) : list (piece * Z) :=
  match l with
  | [] => [x]
  | y :: t => if decide (y.2 >= x.2) then y :: insert_desc x t else x :: l
  end.

Definition sort_desc (l : list (piece * Z)) : list (piece * Z) :=
  fold_left (fun acc x => insert_desc x acc) l [].

(** [list((v, k) for (k, v) in sorted(...) if k != "E")] *)
Definition sorted_count (cnt : counts) : list (Z * piece) :=
  map (fun '(k, v) => (v, k))
      (filter (fun kv => bool_decide (kv.1 <> E))
              (sort_desc [(W, cW cnt); (B, cB cnt); (E, cE cnt)])).

(** [count[i][j]] of the sorted list (always of length 2). *)
Definition nth_count (l : list (Z * piece)) (i : nat) : Z * piece := nth i l (0, E).

(** [AI.check_if_terminal].  [possible_moves["B"] == possible_moves["W"] == {}]
    is [pmB == pmW and pmW == {}], that is both are empty. *)
Definition check_if_terminal (st : hstate) : bool :=
  let pm := hs_pm st in
  if decide (pmB pm = [] /\ pmW pm = []) then true
  else if decide (pmB pm = [] \/ pmW pm = []) then
    let count := sorted_count (count_pieces (hs_board st)) in
    bool_decide ((nth_count count 1).1 = 0)
  else false.

(** [AI.terminal_utility] *)
Definition terminal_utility (st : hstate) : Z :=
  let count := sorted_count (count_pieces (hs_board st)) in
  if decide ((nth_count count 0).1 = (nth_count count 1).1) then 0
  else if decide ((nth_count count 0).2 = W) then 85 + (nth_count count 0).1 - (nth_count count 1).1
  else -85 - (nth_count count 0).1 + (nth_count count 1).1.

(** Python floats.  [float(n)] of an int of magnitude below 2^53 is exact. *)
Definition fz (z : Z) : float :=
  if z <? 0 then PrimFloat.opp (PrimFloat.of_uint63 (Uint63.of_Z (- z)))
  else PrimFloat.of_uint63 (Uint63.of_Z z).

(** [a / b] on Python ints: the correctly rounded quotient, which for small
    ints is the float quotient of the exact conversions; [None] is the
    [ZeroDivisionError]. *)
Definition int_div (a b : Z) : option float :=
  if decide (b = 0) then None else Some (PrimFloat.div (fz a) (fz b)).

(** [piece_to_heuristic = {"W": 1, "B": -1, "E": 0}] *)
Definition piece_to_heuristic (c : piece) : Z :=
  match c with W => 1 | B => -1 | E => 0 end.

(** [SAFE_LINES], in (y, x, (dy, dx)) notation. *)
Definition SAFE_LINES : list (Z * Z * (Z * Z)) :=
  [(0, 0, (0, 1)); (0, 0, (1, 0));
   (0, BOARD_SIZE - 1, (0, -1)); (0, BOARD_SIZE - 1, (1, 0));
   (BOARD_SIZE - 1, 0, (0, 1)); (BOARD_SIZE - 1, 0, (0, 1));
   (BOARD_SIZE - 1, BOARD_SIZE - 1, (0, -1)); (BOARD_SIZE - 1, BOARD_SIZE - 1, (-1, 0))].

(** [AI.dumb_line_iterator]: [while 0 >= x > BOARD_SIZE and 0 >= y > BOARD_SIZE].
    The fuel only bounds the [while] loop; its condition never holds. *)
Fixpoint dumb_loop (fuel : nat) (y x : Z) (line_diff : Z * Z) : list (Z * Z) :=
  match fuel with
  | O => []
  | S f =>
      if (0 >=? x) && (x >? BOARD_SIZE) && (0 >=? y) && (y >? BOARD_SIZE)
      then (y, x) :: dumb_loop f (y + line_diff.1) (x + line_diff.2) line_diff
      else []
  end.

Definition dumb_line_iterator (y x : Z) (line_diff : Z * Z) : list (Z * Z) :=
  dumb_loop 64 y x line_diff.

(** [set.add] on a set kept as a duplicate-free list. *)
Definition set_add (p : Z * Z) (s : list (Z * Z)) : list (Z * Z) :=
  if decide (p ∈ s) then s else s ++ [p].

(** The [white_unstable] (for [c = "B"]) or [black_unstable] (for
    [c = "W"]) set: every cell yielded by [line_iterator] for a legal move
    of [c]. *)
Definition unstable (st : hstate) (c : piece) : list (Z * Z) :=
  let d := match pm_get (hs_pm st) c with Some d => d | None => [] end in
  fold_left (fun s pos =>
    match dict_get d pos with
    | Some dirs => fold_left (fun s '(x, y, _) => set_add (x, y) s)
                             (line_iterator (hs_board st) pos c dirs) s
    | None => s
    end) (keys d) [].

(** The inner [for (yy, xx) in AI.dumb_line_iterator(y, x, line_diff)] loop
    with its [break]; the test reads [othello.board[y][x]], the corner. *)
Fixpoint stable_walk (g : grid) (y x : Z) (c : piece) (cells : list (Z * Z))
    (acc : list (Z * Z)) : list (Z * Z) :=
  match cells with
  | [] => acc
  | (yy, xx) :: t =>
      if decide (get g x y = c /\ (yy, xx) ∉ acc) then stable_walk g y x c t (acc ++ [(yy, xx)])
      else acc
  end.

(** The [for (y, x, line_diff) in SAFE_LINES] loop: [(white_stable, black_stable)]. *)
Definition stable_lists (g : grid) : list (Z * Z) * list (Z * Z) :=
  fold_left (fun '(ws, bs) '(y, x, line_diff) =>
    match get g x y with
    | E => (ws, bs)
    | W => (stable_walk g y x W (dumb_line_iterator y x line_diff) (ws ++ [(y, x)]), bs)
    | B => (ws, stable_walk g y x B (dumb_line_iterator y x line_diff) (bs ++ [(y, x)]))
    end) SAFE_LINES ([], []).

(** [white_stability] and [black_stability]. *)
Definition stabilities (st : hstate) : Z * Z :=
  let '(ws, bs) := stable_lists (hs_board st) in
  (Z.of_nat (length ws) - Z.of_nat (length (unstable st B)),
   Z.of_nat (length bs) - Z.of_nat (length (unstable st W))).

(** [heuristic_mobility] *)
Definition heuristic_mobility (st : hstate) : option float :=
  let white_move_count := Z.of_nat (length (pmW (hs_pm st))) in
  let black_move_count := Z.of_nat (length (pmB (hs_pm st))) in
  int_div (white_move_count - black_move_count) (white_move_count + black_move_count).

Definition corner_pieces (g : grid) : list piece :=
  [get g 0 0; get g 0 (BOARD_SIZE - 1); get g (BOARD_SIZE - 1) 0;
   get g (BOARD_SIZE - 1) (BOARD_SIZE - 1)].

(** [AI.heuristic_utility]; [None] is a [ZeroDivisionError]. *)
Definition heuristic_utility (st : hstate) : option float :=
  let count := count_pieces (hs_board st) in
  match int_div (cW count - cB count) (cW count + cB count) with
  | None => None
  | Some heuristic_piece_count =>
  match heuristic_mobility st with
  | None => None
  | Some heuristic_mobility =>
  let total_corners_captured :=
    fold_right Z.add 0 (map (fun c => Z.abs (piece_to_heuristic c)) (corner_pieces (hs_board st))) in
  let heuristic_corner_capture :=
    if decide (total_corners_captured <> 0) then
      PrimFloat.div (fz (fold_right Z.add 0 (map piece_to_heuristic (corner_pieces (hs_board st)))))
                    (fz total_corners_captured)
    else fz 0 in
  let '(white_stability, black_stability) := stabilities st in
  let heuristic_stability :=
    if decide (white_stability + black_stability <> 0) then
      PrimFloat.div (fz (white_stability - black_stability)) (fz (white_stability + black_stability))
    else fz 0 in
  Some (PrimFloat.add
         (PrimFloat.add
           (PrimFloat.add (PrimFloat.mul (fz 30) heuristic_corner_capture)
                          (PrimFloat.mul heuristic_mobility (fz 5)))
           (PrimFloat.mul heuristic_stability (fz 25)))
         (PrimFloat.mul heuristic_piece_count (fz 25)))
  end
  end.

End Eval.

(** ** [Othello.can_be_placed] on arbitrary Python values. *)
Module Input.
Import Othello.

#[local] Set Warnings "-register-all".

(** The Python values a candidate position can be built from. *)
Inductive pyval :=
  | PInt (z : Z)
  | PStr (s : string)
  | PNone
  | PTuple (items : list pyval).

Inductive exn := ValueError | TypeError | IndexError | KeyError.

Inductive result (A : Type) := Ok (a : A) | Err (e : exn).
Arguments Ok {A} a.
Arguments Err {A} e.

Definition bind {A C} (r : result A) (k : A -> result C) : result C :=
  match r with Ok a => k a | Err e => Err e end.

Section CanBePlaced.

(** CPython's [int(s)] on a string: the integer it denotes, or [None]
    for the [ValueError] of a string that is not an integer literal. *)
Variable int_of_str : string -> option Z.

(** [int(v)] *)
Definition py_int (v : pyval) : result Z :=
  match v with
  | PInt z => Ok z
  | PStr s => match int_of_str s with Some z => Ok z | None => Err ValueError end
  | PNone => Err TypeError
  | PTuple _ => Err TypeError
  end.

(** [v[i]] for a non-negative index. *)
Definition py_index (v : pyval) (i : nat) : result pyval :=
  match v with
  | PTuple l => match nth_error l i with Some a => Ok a | None => Err IndexError end
  | PStr s => match String.get i s with
              | Some ch => Ok (PStr (String ch EmptyString))
              | None => Err IndexError
              end
  | PInt _ | PNone => Err TypeError
  end.

(** [pos = int(pos[0]), int(pos[1])] *)
Definition normalize (pos : pyval) : result (Z * Z) :=
  bind (py_index pos 0) (fun a =>
  bind (py_int a) (fun x =>
  bind (py_index pos 1) (fun b =>
  bind (py_int b) (fun y => Ok (x, y))))).

(** [Othello.can_be_placed]: only [ValueError] is caught. *)
Definition can_be_placed (pm : pmoves) (pos : pyval) (current_colour : piece) : result (pyval * bool) :=
  match normalize pos with
  | Err ValueError => Ok (pos, false)
  | Err e => Err e
  | Ok (x, y) =>
      let pos' := PTuple [PInt x; PInt y] in
      if decide (0 <= x < BOARD_SIZE /\ 0 <= y < BOARD_SIZE) then
        match pm_get pm current_colour with
        | None => Err KeyError
        | Some d => if decide ((x, y) ∈ keys d) then Ok (pos', true) else Ok (pos', false)
        end
      else Ok (pos', false)
  end.

End CanBePlaced.

(** A decimal [int()] on strings: an optional sign followed by digits. *)
Fixpoint digits_val (s : string) (acc : Z) : option Z :=
  match s with
  | EmptyString => Some acc
  | String ch t =>
      let n := Ascii.nat_of_ascii ch in
      if (48 <=? n)%nat && (n <=? 57)%nat then digits_val t (10 * acc + Z.of_nat (n - 48))
      else None
  end.

Definition dec_int_of_str (s : string) : option Z :=
  match s with
  | String "-"%char (String _ _ as t) => option_map Z.opp (digits_val t 0)
  | String "+"%char (String _ _ as t) => digits_val t 0
  | String _ _ => digits_val s 0
  | EmptyString => None
  end.

End Input.

(** ** The search ([AI.minimax], [AI.MTDF]) over a heap of Python objects.

    [minimax] deep-copies a [HashedLocalVersus] before each placement and
    [place] rebinds [possible_moves] to a fresh dict: whether the caller's
    objects survive depends on which objects are shared, so the objects
    live in a heap addressed by ids.  A board object holds its rows as a
    value: no row list is ever shared between two boards ([deepcopy] copies
    the rows), so writing [board[y][x]] is writing that board object.  The
    transposition table [searched_moves] is the one dict threaded through
    the whole search, so it is threaded as a second state component. *)
Module Search.
Import Othello Zobrist Eval.

Definition oid := N.

Inductive obj :=
  | OBoard (g : grid)                                  (* a board: list of rows *)
  | OHashedBoard (board : oid) (hash_num : Z)          (* HashedBoard *)
  | OHLV (board_state : oid) (board : oid) (possible_moves : oid) (tbl : table)
                                                       (* HashedLocalVersus *)
  | OPm (pm : pmoves).                                 (* the possible_moves dict *)

Record heap := mk_heap { objs : gmap N obj; next_id : N }.

(** A transposition-table value [(value, type_of_info, depth, move)]. *)
Record tt_entry := mk_entry { e_value : float; e_type : Z; e_depth : nat; e_move : Z * Z }.

(** [searched_moves]: keys are [HashedBoard] objects, stored with the hash
    the dict computed when the key was inserted. *)
Definition ttable := list (oid * Z * tt_entry).

(** A state and error monad; [None] is a raised exception. *)
Definition M (A : Type) := heap -> ttable -> option (A * heap * ttable).

Definition ret {A} (a : A) : M A := fun h t => Some (a, h, t).
Definition raise {A} : M A := fun _ _ => None.
Definition Mbind {A C} (m : M A) (k : A -> M C) : M C :=
  fun h t => match m h t with Some (a, h', t') => k a h' t' | None => None end.
Definition lift {A} (o : option A) : M A := fun h t => match o with Some a => Some (a, h, t) | None => None end.

Notation "'let!' x ':=' m 'in' k" := (Mbind m (fun x => k))
  (at level 200, x pattern at level 0, m at level 100, k at level 200).

Definition read (i : oid) : M obj := fun h t => match objs h !! i with Some o => Some (o, h, t) | None => None end.
Definition write (i : oid) (o : obj) : M unit := fun h t => Some (tt, mk_heap (<[i := o]> (objs h)) (next_id h), t).
Definition alloc (o : obj) : M oid :=
  fun h t => Some (next_id h, mk_heap (<[next_id h := o]> (objs h)) (N.succ (next_id h)), t).

Definition read_board (i : oid) : M grid := let! o := read i in match o with OBoard g => ret g | _ => raise end.
Definition read_hb (i : oid) : M (oid * Z) :=
  let! o := read i in match o with OHashedBoard b hn => ret (b, hn) | _ => raise end.
Definition read_hlv (i : oid) : M (oid * oid * oid * table) :=
  let! o := read i in match o with OHLV bs b pm T => ret (bs, b, pm, T) | _ => raise end.
Definition read_pm (i : oid) : M pmoves := let! o := read i in match o with OPm pm => ret pm | _ => raise end.

(** The value of a [HashedLocalVersus] object: [self.board], its
    [board_state.hash_num], [self.possible_moves] and [self.table]. *)
Definition hlv_view (i : oid) : M hstate :=
  let! (bs, b, pmid, T) := read_hlv i in
  let! g := read_board b in
  let! (_, hn) := read_hb bs in
  let! pm := read_pm pmid in
  ret (mk_hstate g hn pm T).

(** [deepcopy] of a [HashedLocalVersus]: [HashedLocalVersus.__deepcopy__]
    copies the board state ([HashedBoard.__deepcopy__]: a copy of its board
    and the same hash) and shares [possible_moves] and [table];
    [__init__] sets [self.board = self.board_state.board]. *)
Definition deepcopy_hlv (i : oid) : M oid :=
  let! (bs, _, pmid, T) := read_hlv i in
  let! (hb_board, hn) := read_hb bs in
  let! g := read_board hb_board in
  let! nb := alloc (OBoard g) in
  let! nbs := alloc (OHashedBoard nb hn) in
  alloc (OHLV nbs nb pmid T).

(** [HashedLocalVersus.place] on the object [i]: the cells are written in
    [self.board], the hash in [self.board_state], and [board_change] binds
    [self.possible_moves] to a new dict. *)
Definition hlv_place (i : oid) (pos : Z * Z) (c : piece) : M unit :=
  let! (bs, b, _, T) := read_hlv i in
  let! st := hlv_view i in
  let! st' := lift (place st pos c) in
  let! (hb_board, _) := read_hb bs in
  let! _ := write b (OBoard (hs_board st')) in
  let! _ := write bs (OHashedBoard hb_board (hs_hash st')) in
  let! pmid' := alloc (OPm (hs_pm st')) in
  write i (OHLV bs b pmid' T).

(** [searched_moves.get(board_state)]: same stored hash, then the same
    object or [HashedBoard.__eq__] ([self.board == other.board]). *)
Definition key_matches (h : heap) (k : oid) (hk : Z) (q : oid) (hq : Z) (gq : grid) : bool :=
  bool_decide (hk = hq) &&
  (bool_decide (k = q) ||
   match objs h !! k with
   | Some (OHashedBoard kb _) =>
       match objs h !! kb with Some (OBoard gk) => bool_decide (gk = gq) | _ => false end
   | _ => false
   end).

Fixpoint tt_lookup (h : heap) (t : ttable) (q : oid) (hq : Z) (gq : grid) : option tt_entry :=
  match t with
  | [] => None
  | (k, hk, e) :: rest => if key_matches h k hk q hq gq then Some e else tt_lookup h rest q hq gq
  end.

Fixpoint tt_store (h : heap) (t : ttable) (q : oid) (hq : Z) (gq : grid) (e : tt_entry) : ttable :=
  match t with
  | [] => [(q, hq, e)]
  | (k, hk, e') :: rest =>
      if key_matches h k hk q hq gq then (k, hk, e) :: rest
      else (k, hk, e') :: tt_store h rest q hq gq e
  end.

Definition tt_get (bs : oid) : M (option tt_entry) :=
  let! (b, hn) := read_hb bs in
  let! g := read_board b in
  fun h t => Some (tt_lookup h t bs hn g, h, t).

(** [searched_moves[board_state] = e] *)
Definition tt_set (bs : oid) (e : tt_entry) : M unit :=
  let! (b, hn) := read_hb bs in
  let! g := read_board b in
  fun h t => Some (tt, h, tt_store h t bs hn g e).

(** Python's [max(a, b)] and [min(a, b)] keep [a] unless [b] is strictly
    greater (smaller). *)
Definition fmax (a b : float) : float := if PrimFloat.ltb a b then b else a.
Definition fmin (a b : float) : float := if PrimFloat.ltb b a then b else a.

(** The transposition-table probe at the top of [minimax]. *)
Inductive probe :=
  | PReturn (value : float) (move : Z * Z)
  | PContinue (alpha beta : float) (check_move_first : option (Z * Z)).

Definition tt_probe (search : option tt_entry) (lookahead : nat) (alpha beta : float) : probe :=
  match search with
  | Some e =>
      if decide (lookahead <= e_depth e)%nat then
        if decide (e_type e = 1) then PReturn (e_value e) (e_move e)
        else
          let alpha := if decide (e_type e = 0) then fmax alpha (e_value e) else alpha in
          let beta := if decide (e_type e = 0) then beta
                      else if decide (e_type e = 2) then fmin beta (e_value e) else beta in
          if PrimFloat.leb beta alpha then PReturn (e_value e) (e_move e)
          else PContinue alpha beta (Some (e_move e))
      else PContinue alpha beta None
  | None => PContinue alpha beta None
  end.

(** [sorted(moves, key=lambda x: x != check_move_first)]: stable, [False]
    before [True]. *)
Definition differs (check_move_first : option (Z * Z)) (x : Z * Z) : bool :=
  match check_move_first with Some m => bool_decide (x <> m) | None => true end.

Definition order_moves (check_move_first : option (Z * Z)) (moves : list (Z * Z)) : list (Z * Z) :=
  filter (fun x => negb (differs check_move_first x)) moves ++ filter (differs check_move_first) moves.

(** What [minimax] returns: a number, or [(score, action)] when [initial]. *)
Inductive mm_ret := RNum (v : float) | RPair (v : float) (move : Z * Z).

Definition as_num (r : mm_ret) : M float := match r with RNum v => ret v | RPair _ _ => raise end.

(** The three [if]s storing the node's result; [action] unbound is an
    [UnboundLocalError]. *)
Definition store_result (bs : oid) (alpha beta score : float) (lookahead : nat)
    (action : option (Z * Z)) : M unit :=
  let put ty := match action with
                | Some a => tt_set bs (mk_entry score ty lookahead a)
                | None => raise
                end in
  let! _ := (if PrimFloat.leb score alpha then put 2 else ret tt) in
  let! _ := (if PrimFloat.ltb alpha score && PrimFloat.ltb score beta then put 1 else ret tt) in
  if PrimFloat.leb beta score then put 0 else ret tt.

(** [AI.minimax].  [lookahead] is a Python int that is never negative here. *)
Fixpoint minimax (board : oid) (alpha beta : float) (maximising_player initial : bool)
    (lookahead : nat) {struct lookahead} : M mm_ret :=
  let! (bs, _, _, _) := read_hlv board in
  let! search := tt_get bs in
  match tt_probe search lookahead alpha beta with
  | PReturn value move => ret (if initial then RPair value move else RNum value)
  | PContinue alpha beta check_move_first =>
  let! st := hlv_view board in
  if check_if_terminal st then ret (RNum (fz (terminal_utility st)))
  else match lookahead with
  | O => let! v := lift (heuristic_utility st) in ret (RNum v)
  | S la =>
  let! (score, action) :=
    (if maximising_player then
       let fix loop (moves : list (Z * Z)) (a score : float) (action : option (Z * Z))
           : M (float * option (Z * Z)) :=
         match moves with
         | [] => ret (score, action)
         | possible_action :: rest =>
             let! new_board := deepcopy_hlv board in
             let! _ := hlv_place new_board possible_action W in
             let! nst := hlv_view new_board in
             let! r := minimax new_board a beta (bool_decide (length (pmB (hs_pm nst)) = 0%nat)) false la in
             let! evaluation := as_num r in
             let action := if PrimFloat.ltb score evaluation then Some possible_action else action in
             let score := fmax score evaluation in
             let a := fmax a score in
             if PrimFloat.leb beta a then ret (score, action) else loop rest a score action
         end in
       loop (order_moves check_move_first (keys (pmW (hs_pm st)))) alpha neg_infinity None
     else
       let fix loop (moves : list (Z * Z)) (b score : float) (action : option (Z * Z))
           : M (float * option (Z * Z)) :=
         match moves with
         | [] => ret (score, action)
         | possible_action :: rest =>
             let! new_board := deepcopy_hlv board in
             let! _ := hlv_place new_board possible_action B in
             let! nst := hlv_view new_board in
             let! r := minimax new_board alpha b (bool_decide (length (pmW (hs_pm nst)) <> 0%nat)) false la in
             let! evaluation := as_num r in
             let action := if PrimFloat.ltb evaluation score then Some possible_action else action in
             let score := fmin score evaluation in
             let b := fmin b score in
             if PrimFloat.leb b alpha then ret (score, action) else loop rest b score action
         end in
       loop (order_moves check_move_first (keys (pmB (hs_pm st)))) beta infinity None) in
  let! _ := store_result bs alpha beta score lookahead action in
  if initial then (match action with Some a => ret (RPair score a) | None => raise end)
  else ret (RNum score)
  end
  end.

(** [AI.MTDF]; [fuel] bounds the iterations of its [while] loop. *)
Fixpoint mtdf_loop (fuel : nat) (board : oid) (lookahead : nat)
    (guess lower_bound upper_bound : float) (move : option (Z * Z)) : M (float * (Z * Z)) :=
  match fuel with
  | O => raise
  | S f =>
      if PrimFloat.ltb lower_bound upper_bound then
        let beta := if PrimFloat.eqb guess lower_bound then PrimFloat.add guess (fz 1) else guess in
        let! r := minimax board (PrimFloat.sub beta (fz 1)) beta true true lookahead in
        match r with
        | RPair guess m =>
            if PrimFloat.ltb guess beta then mtdf_loop f board lookahead guess lower_bound guess (Some m)
            else mtdf_loop f board lookahead guess guess upper_bound (Some m)
        | RNum _ => raise
        end
      else match move with Some m => ret (guess, m) | None => raise end
  end.

Definition MTDF (fuel : nat) (board : oid) (first_guess : float) (lookahead : nat) : M (float * (Z * Z)) :=
  mtdf_loop fuel board lookahead first_guess neg_infinity infinity None.

End Search.

(** ** Invariants used by the proofs *)
Module Invariants.
Import Othello Zobrist.

(** The board is 8 x 8 and the hash agrees with it. *)
Definition inv (st : hstate) : Prop := wf (hs_board st) /\ hash_ok st.

(** Every key of the legal-move dicts is an empty in-range cell. *)
Definition keys_empty (g : grid) (pm : pmoves) : Prop :=
  forall k, In k (keys (pmW pm)) \/ In k (keys (pmB pm)) -> in_range k.1 k.2 /\ get g k.1 k.2 = E.

(** Some in-range cell holds [c]. *)
Definition has (g : grid) (c : piece) : Prop := exists x y, in_range x y /\ get g x y = c.

(** Some legal move, of either colour, needs a disc of each colour. *)
Definition moves_need_discs (g : grid) (pm : pmoves) : Prop :=
  (pmW pm = [] /\ pmB pm = []) \/ (has g W /\ has g B).

End Invariants.

(** ** Sample positions *)
Module Samples.
Import Othello.

(** The 8 x 8 board holding the listed discs, (x, y) keyed, empty elsewhere. *)
Definition board_of (cells : list ((Z * Z) * piece)) : grid :=
  map (fun y => map (fun x =>
    match find (fun pc => bool_decide (pc.1 = (x, y))) cells with
    | Some (_, c) => c
    | None => E
    end) (zrange BOARD_SIZE)) (zrange BOARD_SIZE).

(** White has a single move at (2, 2), Black none. *)
Definition pass_board : grid := board_of [((0, 0), W); ((1, 1), B); ((3, 2), B); ((3, 3), B)].

(** Not terminal: White at the corner (0, 0), Black at (1, 1). *)
Definition corner_board : grid := board_of [((0, 0), W); ((1, 1), B)].

(** Terminal with White ahead by one disc. *)
Definition lone_white_board : grid := board_of [((0, 0), W)].

(** One disc of each colour and no legal move for either. *)
Definition blocked_board : grid := board_of [((0, 0), W); ((7, 7), B)].

(** Three White discs on the top edge from the corner (0, 0), then a
    Black disc: White can move at (4, 0), Black cannot. *)
Definition edge_board : grid := board_of [((0, 0), W); ((1, 0), W); ((2, 0), W); ((3, 0), B)].

(** A search state built from a board as [get_hash_version] does. *)
Definition state_of (g : grid) : Zobrist.hstate :=
  Zobrist.get_hash_version g (board_change g) Zobrist.sample_table.

(** The search state at the root: board 0, its [HashedBoard] 1, the
    legal-move dict 2 and the [HashedLocalVersus] 3. *)
Definition root_heap (g : grid) : Search.heap :=
  Search.mk_heap
    (<[3%N := Search.OHLV 1%N 0%N 2%N Zobrist.sample_table]>
      (<[2%N := Search.OPm (board_change g)]>
        (<[1%N := Search.OHashedBoard 0%N (Zobrist.get_hash_version_hash g Zobrist.sample_table)]>
          (<[0%N := Search.OBoard g]> ∅)))) 4%N.

End Samples.

(** ** The stability signal as the specification words it

    For each colour: the discs met walking outward from each corner along
    the two edges meeting there while the run stays that colour (each disc
    once), minus that colour's discs on a flip line of a legal move of the
    opponent (each disc once). *)
Module SpecStability.
Import Othello Zobrist.

(** The corners with the two edge directions leaving each, in (x, y). *)
Definition corner_edges : list ((Z * Z) * (Z * Z)) :=
  [((0, 0), (1, 0)); ((0, 0), (0, 1));
   ((7, 0), (-1, 0)); ((7, 0), (0, 1));
   ((0, 7), (1, 0)); ((0, 7), (0, -1));
   ((7, 7), (-1, 0)); ((7, 7), (0, -1))].

(** The run of [c] discs starting at [(x, y)] in direction [d]. *)
Fixpoint run (g : grid) (c : piece) (x y : Z) (d : Z * Z) (fuel : nat) : list (Z * Z) :=
  match fuel with
  | O => []
  | S f =>
      if bool_decide (in_range x y /\ get g x y = c)
      then (x, y) :: run g c (x + d.1) (y + d.2) d f
      else []
  end.

Definition dedup (l : list (Z * Z)) : list (Z * Z) :=
  fold_left (fun s p => if decide (p ∈ s) then s else s ++ [p]) l [].

Definition spec_stable (g : grid) (c : piece) : list (Z * Z) :=
  dedup (flat_map (fun '(p, d) => run g c p.1 p.2 d 8) corner_edges).

(** The discs of [c] on a flip line of a legal move of the opponent. *)
Definition spec_unstable (st : hstate) (c : piece) : list (Z * Z) :=
  let opp := FLIP_RULE c in
  let d := match pm_get (hs_pm st) opp with Some d => d | None => [] end in
  dedup (flat_map (fun '(pos, dirs) => map (fun '(x, y, _) => (x, y)) (line_iterator (hs_board st) pos opp dirs)) d).

Definition spec_stability (st : hstate) (c : piece) : Z :=
  Z.of_nat (length (spec_stable (hs_board st) c)) - Z.of_nat (length (spec_unstable st c)).

End SpecStability.

(** ** Heap frames of the search *)
Module Frames.
Import Search.

(** [h'] agrees with [h] on every id below [n], and allocated no fewer ids. *)
Definition frame_below (n : N) (h h' : heap) : Prop :=
  (next_id h <= next_id h')%N /\ forall i, (i < n)%N -> objs h' !! i = objs h !! i.

(** A computation that changes no object that existed when it started. *)
Definition Frame {A} (m : M A) : Prop :=
  forall h t a h' t', m h t = Some (a, h', t') -> frame_below (next_id h) h h'.

(** A computation that only reads. *)
Definition Pure {A} (m : M A) : Prop :=
  forall h t a h' t', m h t = Some (a, h', t') -> h' = h /\ t' = t.

(** Every object of the heap has an id below [next_id]. *)
Definition heap_closed (h : heap) : Prop := forall i o, objs h !! i = Some o -> (i < next_id h)%N.

End Frames.

(** ** Python strings, [str(int)], [int(str)], [str.split] and [readlines]

    A Python [str] of code points below 256 is a [string]; [++] on str is
    [String.append]. *)
Module PyStr.
Import Othello Input.

(** [ch.isspace()]: the ASCII whitespace, the separators 28 to 31, NEL
    and NO-BREAK SPACE.  [int()] accepts exactly these around a number. *)
Definition is_space (ch : ascii) : bool :=
  let n := nat_of_ascii ch in
  (((9 <=? n) && (n <=? 13)) || ((28 <=? n) && (n <=? 32)) || (n =? 133) || (n =? 160))%nat.

Definition is_digit (ch : ascii) : bool :=
  let n := nat_of_ascii ch in ((48 <=? n) && (n <=? 57))%nat.

Definition digit_val (ch : ascii) : Z := Z.of_nat (nat_of_ascii ch - 48)%nat.

Fixpoint strip_left (s : string) : string :=
  match s with
  | EmptyString => EmptyString
  | String ch t => if is_space ch then strip_left t else s
  end.

Fixpoint strip_right (s : string) : string :=
  match s with
  | EmptyString => EmptyString
  | String ch t =>
      match strip_right t with
      | EmptyString => if is_space ch then EmptyString else String ch EmptyString
      | t' => String ch t'
      end
  end.

(** The digits of a base-10 literal: single underscores allowed between
    digits, at least one digit. *)
Fixpoint parse_digits (s : string) (acc : Z) (last_digit : bool) : option Z :=
  match s with
  | EmptyString => if last_digit then Some acc else None
  | String ch t =>
      if Ascii.eqb ch "_"%char then (if last_digit then parse_digits t acc false else None)
      else if is_digit ch then parse_digits t (10 * acc + digit_val ch) true
      else None
  end.

(** [int(s)] on a str: whitespace, an optional sign, the digits,
    whitespace; [None] is the [ValueError].  (The limit on the number of
    digits of recent CPython versions, 4300, is not modelled.) *)
Definition py_int_of_str (s : string) : option Z :=
  match strip_right (strip_left s) with
  | String ch t =>
      if Ascii.eqb ch "-"%char then option_map Z.opp (parse_digits t 0 false)
      else if Ascii.eqb ch "+"%char then parse_digits t 0 false
      else parse_digits (String ch t) 0 false
  | EmptyString => None
  end.

(** The decimal digits of [n >= 0]; [fuel] bounds the number of digits. *)
Fixpoint digits_of (fuel : nat) (n : Z) : string :=
  match fuel with
  | O => EmptyString
  | S f =>
      String.append (if n <? 10 then EmptyString else digits_of f (n / 10))
                    (String (ascii_of_nat (48 + Z.to_nat (n mod 10))%nat) EmptyString)
  end.

(** [str(z)] of an int. *)
Definition py_str_int (z : Z) : string :=
  if z <? 0 then String "-"%char (digits_of (S (Z.to_nat (Z.log2 (- z)))) (- z))
  else digits_of (S (Z.to_nat (Z.log2 z))) z.

(** [s.split(sep)] for a one-character separator. *)
Fixpoint split_on (sep : ascii) (s : string) : list string :=
  match s with
  | EmptyString => [EmptyString]
  | String ch t =>
      let r := split_on sep t in
      if Ascii.eqb ch sep then EmptyString :: r
      else match r with
           | p :: ps => String ch p :: ps
           | [] => [String ch EmptyString]
           end
  end.

(** Reading a file in text mode translates ["\r\n"] and ["\r"] to ["\n"]. *)
Fixpoint universal_newlines (s : string) : string :=
  match s with
  | EmptyString => EmptyString
  | String ch t =>
      if Ascii.eqb ch "013"%char then
        match t with
        | String ch' t' =>
            if Ascii.eqb ch' "010"%char then String "010"%char (universal_newlines t')
            else String "010"%char (universal_newlines t)
        | EmptyString => String "010"%char EmptyString
        end
      else String ch (universal_newlines t)
  end.

(** The lines of a text, each with its ["\n"], the last one possibly
    without. *)
Fixpoint split_lines (s : string) : list string :=
  match s with
  | EmptyString => []
  | String ch t =>
      if Ascii.eqb ch "010"%char then String ch EmptyString :: split_lines t
      else match split_lines t with
           | [] => [String ch EmptyString]
           | p :: ps => String ch p :: ps
           end
  end.

(** [file.readlines()] of a file opened with mode ['r']. *)
Definition readlines (contents : string) : list string := split_lines (universal_newlines contents).

(** [SaveGame.save]: the line appended for the instruction [(x, y)],
    [str(instruction[0]) + "," + str(instruction[1]) + "\n"]. *)
Definition save_line (pos : Z * Z) : string :=
  String.append (py_str_int pos.1)
    (String ","%char (String.append (py_str_int pos.2) (String "010"%char EmptyString))).

(** The save file after a sequence of [save] calls: [NamedTemporaryFile]
    creates it empty, each call appends its line. *)
Fixpoint save_file (saved : list (Z * Z)) : string :=
  match saved with
  | [] => EmptyString
  | pos :: rest => String.append (save_line pos) (save_file rest)
  end.

(** [LoadLocalVersus.get_pos_from_file], [LoadAI.get_pos_from_file] and
    [SavedGamesLoader.get_pos]: [line = line.split(",")], then
    [int(line[0]), int(line[1])], evaluated in that order. *)
Definition get_pos (line : string) : result (Z * Z) :=
  normalize py_int_of_str (PTuple (map PStr (split_on ","%char line))).

End PyStr.

(** ** Playing, saving and reloading a game

    [LocalVersus.play] driven by the messages the GUI puts in
    [gui_to_oth], and [SavedGamesLoader]. *)
Module Replay.
Import Othello Input Turns PyStr.

(** The messages [get_pos] acts on: a click with its position, or
    [LOCAL_IO["End"]].  Other messages are put back into the queue. *)
Inductive msg := Click (answer : pyval) | EndMsg.

(** How [play] stands when the messages run out or the thread stops:
    the board and the positions saved so far. *)
Inductive outcome :=
  | Finished (g : grid) (saved : list (Z * Z))  (* the turn iterator ended *)
  | Quit (g : grid) (saved : list (Z * Z))      (* [quit()] on an End message *)
  | Waiting (g : grid) (saved : list (Z * Z))   (* blocked in [gui_to_oth.get] *)
  | Crashed (e : exn).                          (* an exception left the thread *)

(** The body of [for self.playing_colour in self.end_game_iterator(...)]
    from inside the [while not (tup := self.can_be_placed(self.get_pos(),
    self.playing_colour))[1]] loop: [mover] is the yielded colour,
    [gen_colour] the generator's suspended [colour]. *)
Fixpoint play_clicks (msgs : list msg) (g : grid) (pm : pmoves) (gen_colour mover : piece)
    (saved : list (Z * Z)) : outcome :=
  match msgs with
  | [] => Waiting g saved
  | EndMsg :: _ => Quit g saved
  | Click v :: rest =>
      match can_be_placed py_int_of_str pm v mover with
      | Err e => Crashed e
      | Ok (_, false) => play_clicks rest g pm gen_colour mover saved
      | Ok (PTuple [PInt x; PInt y], true) =>
          (* self.save(tup[0]); self.place(tup[0], self.playing_colour) *)
          match oplace g pm (x, y) mover with
          | None => Crashed KeyError
          | Some (g', pm') =>
              match end_game_step pm' gen_colour with
              | None => Finished g' (saved ++ [(x, y)])
              | Some (m, c') => play_clicks rest g' pm' c' m (saved ++ [(x, y)])
              end
          end
      | Ok (_, true) => Crashed TypeError  (* [True] comes only with the pair of ints *)
      end
  end.

(** [LocalVersus.__init__] and [play]: the start position, Black first. *)
Definition play (msgs : list msg) : outcome :=
  match end_game_step (board_change start_board) B with
  | None => Finished start_board []
  | Some (m, c') => play_clicks msgs start_board (board_change start_board) c' m []
  end.

(** The exceptions of the loader. *)
Inductive lexn := PyErr (e : exn) | BoardError (message : string).

(** A [SavedGamesLoader] after [load]. *)
Record loader := mk_loader {
  ld_board : grid;
  ld_pm : pmoves;
  ld_colour : piece;
  ld_states : list (grid * piece);   (* previous_states *)
  ld_current : Z;                    (* current_line *)
  ld_max : Z                         (* max_line *)
}.

(** The loop of [SavedGamesLoader.load]:
    [for line, self.colour in zip(self.commands, self.end_game_iterator(...))].
    [zip] takes the next line first and stops when the lines run out,
    without resuming the generator. *)
Fixpoint load_loop (lines : list string) (g : grid) (pm : pmoves) (gen_colour colour : piece)
    (line_count seek : Z) (states : list (grid * piece))
    : lexn + (grid * pmoves * piece * list (grid * piece)) :=
  match lines with
  | [] => inr (g, pm, colour, states)
  | line :: rest =>
      match end_game_step pm gen_colour with
      | None => inr (g, pm, colour, states)
      | Some (m, c') =>
          let states := states ++ [(g, m)] in
          if Z.eqb line_count seek then inr (g, pm, m, states)
          else
            match get_pos line with
            | Err e => inl (PyErr e)
            | Ok (x, y) =>
                match can_be_placed py_int_of_str pm (PTuple [PInt x; PInt y]) m with
                | Err e => inl (PyErr e)
                | Ok (_, false) => inl (BoardError "Incorrect Board")
                | Ok (_, true) =>
                    match oplace g pm (x, y) m with
                    | None => inl (PyErr KeyError)
                    | Some (g', pm') => load_loop rest g' pm' c' m (line_count + 1) seek states
                    end
                end
            end
      end
  end.

(** [SavedGamesLoader(save_name, seek_amount)] followed by [load()] on a
    file with the given contents. *)
Definition saved_games_load (seek_amount : Z) (contents : string) : lexn + loader :=
  let commands := readlines contents in
  match load_loop commands start_board (board_change start_board) (FLIP_RULE W) W 0
                  (Z.max seek_amount 0) [] with
  | inl e => inl e
  | inr (g, pm, colour, states) =>
      inr (mk_loader g pm colour (states ++ [(g, colour)])
                     (Z.of_nat (length commands)) (Z.of_nat (length commands)))
  end.

(** What [load_othello] puts in the queue for one saved game: the loader,
    or [LOCAL_IO["Fail"]] on a [BoardError]; any other exception ends the
    thread. *)
Inductive load_report := Loaded (l : loader) | Fail | LoaderCrashed (e : exn).

Definition load_othello_one (contents : string) : load_report :=
  match saved_games_load 64 contents with
  | inr l => Loaded l
  | inl (BoardError _) => Fail
  | inl (PyErr e) => LoaderCrashed e
  end.

(** [update_board_state(board, colour)] with the new [current_line]. *)
Definition update_board_state (s : loader) (cur : Z) (b : grid) (c : piece) : loader :=
  mk_loader b (board_change b) c (ld_states s) cur (ld_max s).

(** [SavedGamesLoader.line_load_forwards] (the new state; the board it
    returns is [ld_board]). *)
Definition line_load_forwards (s : loader) : lexn + loader :=
  if ld_current s <? ld_max s then
    match nth_error (ld_states s) (Z.to_nat (ld_current s + 1)) with
    | Some (b, c) => inr (update_board_state s (ld_current s + 1) b c)
    | None => inl (PyErr IndexError)
    end
  else inl (BoardError "At end of Board").

(** [SavedGamesLoader.line_load_backwards] *)
Definition line_load_backwards (s : loader) : lexn + loader :=
  if 0 <? ld_current s then
    match nth_error (ld_states s) (Z.to_nat (ld_current s - 1)) with
    | Some (b, c) => inr (update_board_state s (ld_current s - 1) b c)
    | None => inl (PyErr IndexError)
    end
  else inl (BoardError "At start of Board").

End Replay.

(** ** [Text.evaluate_winner] *)
Module TextUI.
Import Othello Eval Turns PyStr Replay.

(** [str(k)] of a piece key. *)
Definition piece_name (c : piece) : string :=
  match c with W => "W" | B => "B" | E => "E" end.

(** The line printed, or the [BoardError] raised while a colour can
    still move ([next(self.end_game_iterator())] does not raise
    [StopIteration]). *)
Definition evaluate_winner (g : grid) (pm : pmoves) : lexn + string :=
  match end_game_step pm B with
  | Some _ => inl (BoardError "Game has not ended.")
  | None =>
      let count := sorted_count (count_pieces g) in
      let '(v0, k0) := nth_count count 0 in
      let '(v1, k1) := nth_count count 1 in
      if Z.eqb v0 v1 then
        inr (String.append "The game ended in a try. You both had: "
               (String.append (py_str_int v0) " pieces."))
      else
        inr (String.append (piece_name k0)
              (String.append " has won, with "
                (String.append (py_str_int v0)
                  (String.append " pieces. "
                    (String.append (piece_name k1)
                      (String.append " lost, with "
                        (String.append (py_str_int v1) " pieces.")))))))
  end.

End TextUI.

(** ** More of the search: the legal directions, table aging *)
Module Rules.
Import Othello.

(** The directions of [FLIP_LINES], in order, along which [c] placed at
    [pos] closes a line ([line_scan] finds the closing disc). *)
Definition legal_dirs (g : grid) (pos : Z * Z) (c : piece) : list (Z * Z) :=
  List.filter (fun d => match line_scan g pos c d with Some _ => true | None => false end) FLIP_LINES.

End Rules.

Module Aging.
Import Search.

(** [AI.ai_play] after a search:
    [{k: (v[0], v[1], v[2] - 2, v[3]) for (k, v) in self.search_dict.items() if v[2] >= 3}]. *)
Definition age_entry (e : tt_entry) : tt_entry :=
  mk_entry (e_value e) (e_type e) (e_depth e - 2) (e_move e).

Definition tt_age (t : ttable) : ttable :=
  map (fun '(k, hk, e) => (k, hk, age_entry e)) (List.filter (fun '(_, _, e) => (3 <=? e_depth e)%nat) t).

End Aging.

(** ** Resuming a saved game: [LoadLocalVersus.load] and [LoadAI.load]
    (the same code in both classes). *)
Module Resume.
Import Othello Input Turns PyStr Replay.

(** The loop of [load]:
    [for line, self.playing_colour in zip(commands, self.end_game_iterator(self.playing_colour))],
    with [break] when [line_count == self.line_count]; each accepted
    position [tup[0]] is saved (appended to [saved]) and placed. *)
Fixpoint resume_loop (lines : list string) (g : grid) (pm : pmoves) (gen_colour colour : piece)
    (line_count target : Z) (saved : list (Z * Z))
    : lexn + (grid * pmoves * piece * list (Z * Z)) :=
  match lines with
  | [] => inr (g, pm, colour, saved)
  | line :: rest =>
      match end_game_step pm gen_colour with
      | None => inr (g, pm, colour, saved)
      | Some (m, c') =>
          if Z.eqb line_count target then inr (g, pm, m, saved)
          else
            match get_pos line with
            | Err e => inl (PyErr e)
            | Ok (x, y) =>
                match can_be_placed py_int_of_str pm (PTuple [PInt x; PInt y]) m with
                | Err e => inl (PyErr e)
                | Ok (_, false) => inl (BoardError "Incorrect Board")
                | Ok (PTuple [PInt x'; PInt y'], true) =>
                    match oplace g pm (x', y') m with
                    | None => inl (PyErr KeyError)
                    | Some (g', pm') =>
                        resume_loop rest g' pm' c' m (line_count + 1) target (saved ++ [(x', y')])
                    end
                | Ok (_, true) => inl (PyErr TypeError)  (* [True] comes only with the pair of ints *)
                end
            end
      end
  end.

(** [LocalVersus.__init__] ([self.playing_colour = "B"] on the start
    position) and then [load] with [self.line_count = line_count] on a
    file with the given contents: the board, [possible_moves],
    [self.playing_colour] after the final
    [self.playing_colour = FLIP_RULE[self.playing_colour]], and the
    positions saved to the new file. *)
Definition resume_load (contents : string) (line_count : Z)
    : lexn + (grid * pmoves * piece * list (Z * Z)) :=
  match resume_loop (readlines contents) start_board (board_change start_board) B B 0 line_count [] with
  | inl e => inl e
  | inr (g, pm, c, saved) => inr (g, pm, FLIP_RULE c, saved)
  end.

End Resume.

(** ** Auxiliary definitions of the proofs *)
Module ProofDefs.
Import Othello Search PyStr.

(** The number of cells a [counts] record accounts for. *)
Definition total (cnt : counts) : Z := cW cnt + cB cnt + cE cnt.

(** A string all of whose characters satisfy [f]. *)
Fixpoint str_all (f : ascii -> bool) (s : string) : bool :=
  match s with
  | EmptyString => true
  | String ch t => f ch && str_all f t
  end.

(** The characters of [str(z)]. *)
Definition int_char (c : ascii) : bool := is_digit c || Ascii.eqb c "-"%char.

(** The characters of a line without its end. *)
Definition line_char (c : ascii) : bool := negb (Ascii.eqb c "010"%char) && negb (Ascii.eqb c "013"%char).

Definition nl : string := String "010"%char EmptyString.

(** Two [HashedBoard] objects 1 and 5 with the same hash over two board
    objects 0 and 4 holding the same rows. *)
Definition transposed_heap : heap :=
  mk_heap (<[5%N := OHashedBoard 4%N 77]> (<[4%N := OBoard start_board]>
            (<[1%N := OHashedBoard 0%N 77]> (<[0%N := OBoard start_board]> ∅)))) 6%N.

(** The dict of one colour in [possible_moves] ([{}] for ["E"]). *)
Definition pm_of (c : piece) (pm : pmoves) : dict (Z * Z) (list (Z * Z)) :=
  match c with W => pmW pm | B => pmB pm | E => [] end.

(** The entry of a key after appending the directions [l] to it, as
    [add_dir] does one by one. *)
Definition ext (o : option (list (Z * Z))) (l : list (Z * Z)) : option (list (Z * Z)) :=
  match l with [] => o | _ :: _ => Some (default [] o ++ l) end.

(** What one adjacency of [adjacent] adds to the entry of [pos] in the
    dict of [c]. *)
Definition contrib (g : grid) (pos : Z * Z) (c : piece) (a : piece * (Z * Z)) : list (Z * Z) :=
  if decide (a.1 = FLIP_RULE c) then
    match check_flip_line g pos c a.2 with Some chk => [chk] | None => [] end
  else [].

(** Clicks as the GUI sends them: an occupied corner (not a move), two
    moves, the second as strings, then [LOCAL_IO["End"]]. *)
Definition sample_clicks : list Replay.msg :=
  [Replay.Click (Input.PTuple [Input.PInt 0; Input.PInt 0]);
   Replay.Click (Input.PTuple [Input.PInt 3; Input.PInt 2]);
   Replay.Click (Input.PTuple [Input.PStr "2"; Input.PStr " 2"]);
   Replay.EndMsg].

(** The cell [z] steps from [pos] in direction [d]. *)
Definition cell_of (pos d : Z * Z) (z : Z) : Z * Z := (d.1 * z + pos.1, d.2 * z + pos.2).

(** [h] is [g] with [c] placed at [pos] and some opponent discs turned to [c]. *)
Definition placed (g h : grid) (pos : Z * Z) (c : piece) : Prop :=
  wf h /\ get h pos.1 pos.2 = c /\
  forall x y, in_range x y -> (x, y) <> pos ->
    get h x y = get g x y \/ (get g x y = FLIP_RULE c /\ get h x y = c).

End ProofDefs.

(** * Proofs *)

Module BoardFacts.
Import Othello.

Lemma zrange_In (n z : Z) : 0 <= n -> In z (zrange n) <-> 0 <= z < n.
Proof.
  intros Hn. unfold zrange. rewrite in_map_iff. split.
  - intros (k & <- & Hk). apply in_seq in Hk. lia.
  - intros Hz. exists (Z.to_nat z). split; [lia|]. apply in_seq. lia.
Qed.

Lemma NoDup_zrange (n : Z) : List.NoDup (zrange n).
Proof.
  unfold zrange. apply NoDup_map_NoDup_ForallPairs; [|apply seq_NoDup].
  intros a b _ _ H. lia.
Qed.

Lemma length_upd {A} (i : nat) (v : A) (l : list A) : length (upd i v l) = length l.
Proof. revert i; induction l as [|h t IH]; intros [|i]; simpl; auto. Qed.

Lemma nth_upd_eq {A} (i : nat) (v d : A) (l : list A) : (i < length l)%nat -> nth i (upd i v l) d = v.
Proof. revert i; induction l as [|h t IH]; intros [|i] Hi; simpl in *; try lia; auto. apply IH. lia. Qed.

Lemma nth_upd_ne {A} (i j : nat) (v d : A) (l : list A) : i <> j -> nth j (upd i v l) d = nth j l d.
Proof.
  revert i j; induction l as [|h t IH]; intros [|i] [|j] Hij; simpl; auto; try congruence.
Qed.

Lemma Forall_upd {A} (P : A -> Prop) (i : nat) (v : A) (l : list A) :
  Forall P l -> P v -> Forall P (upd i v l).
Proof.
  revert i; induction l as [|h t IH]; intros [|i] Hl Hv; simpl; auto;
    inversion Hl; subst; constructor; auto.
Qed.

Lemma wf_row (g : grid) (y : nat) : wf g -> (y < 8)%nat -> length (nth y g []) = 8%nat.
Proof.
  intros [Hl Hr] Hy. rewrite List.Forall_forall in Hr. apply Hr. apply nth_In. lia.
Qed.

Lemma get_set (g : grid) (x0 y0 x y : Z) (c : piece) :
  wf g -> in_range x0 y0 -> in_range x y ->
  get (set g x0 y0 c) x y = if decide ((x, y) = (x0, y0)) then c else get g x y.
Proof.
  intros Hwf [Hx0 Hy0] [Hx Hy]. unfold get, set.
  destruct (decide (y = y0)) as [->|Hne].
  - rewrite nth_upd_eq by (destruct Hwf as [-> _]; lia).
    destruct (decide (x = x0)) as [->|Hxne].
    + rewrite nth_upd_eq by (rewrite wf_row by (auto; lia); lia).
      destruct (decide _); congruence.
    + rewrite nth_upd_ne by lia. destruct (decide _); congruence.
  - rewrite nth_upd_ne by lia. destruct (decide _); congruence.
Qed.

Lemma wf_set (g : grid) (x y : Z) (c : piece) : wf g -> in_range x y -> wf (set g x y c).
Proof.
  intros Hwf [Hx Hy]. pose proof Hwf as [Hl Hr]. unfold set, wf. split.
  - rewrite length_upd. auto.
  - apply Forall_upd; auto. rewrite length_upd. apply wf_row; auto; lia.
Qed.

(** A property kept by every step of a [fold_left]. *)
Lemma fold_left_invariant {A C} (P : C -> Prop) (f : C -> A -> C) (l : list A) (c : C) :
  (forall a c, In a l -> P c -> P (f c a)) -> P c -> P (fold_left f l c).
Proof.
  revert c; induction l as [|a t IH]; intros c Hf Hc; simpl; auto.
  apply IH.
  - intros b d Hb Hd. apply Hf; simpl; auto.
  - apply Hf; simpl; auto.
Qed.

Lemma fold_left_ext_eq {A C} (f f' : C -> A -> C) (l : list A) (c : C) :
  (forall c a, In a l -> f c a = f' c a) -> fold_left f l c = fold_left f' l c.
Proof.
  revert c; induction l as [|a t IH]; intros c Hf; simpl; auto.
  rewrite Hf by (simpl; auto). apply IH. intros; apply Hf; simpl; auto.
Qed.

End BoardFacts.

Module XorFacts.

Ltac xor_solve :=
  apply Z.bits_inj'; intros ?n ?Hn; rewrite ?Z.lxor_spec, ?Z.testbit_0_l;
  repeat match goal with |- context [Z.testbit ?a ?n] => destruct (Z.testbit a n) end;
  reflexivity.

Lemma fold_xor_shift {A} (f : A -> Z) (l : list A) (h : Z) :
  fold_left (fun h a => Z.lxor h (f a)) l h = Z.lxor h (fold_left (fun h a => Z.lxor h (f a)) l 0).
Proof.
  revert h; induction l as [|a t IH]; intros h; simpl.
  - xor_solve.
  - rewrite (IH (Z.lxor h (f a))), (IH (Z.lxor 0 (f a))). xor_solve.
Qed.

Lemma fold_xor_notin {A} (f f' : A -> Z) (l : list A) (h : Z) :
  (forall a, In a l -> f' a = f a) ->
  fold_left (fun h a => Z.lxor h (f' a)) l h = fold_left (fun h a => Z.lxor h (f a)) l h.
Proof.
  revert h; induction l as [|a t IH]; intros h Hf; simpl; auto.
  rewrite Hf by (simpl; auto). apply IH. intros; apply Hf; simpl; auto.
Qed.

Lemma fold_xor_in {A} (f f' : A -> Z) (l : list A) (a0 : A) (h : Z) :
  List.NoDup l -> In a0 l -> (forall a, In a l -> a <> a0 -> f' a = f a) ->
  fold_left (fun h a => Z.lxor h (f' a)) l h
  = Z.lxor (Z.lxor (fold_left (fun h a => Z.lxor h (f a)) l h) (f a0)) (f' a0).
Proof.
  revert h; induction l as [|a t IH]; intros h Hnd Hin Hf; simpl in *; [contradiction|].
  inversion Hnd as [|? ? Hnotin Hnd']; subst.
  destruct Hin as [<-|Hin].
  - rewrite fold_xor_notin with (f := f)
      by (intros b Hb; apply Hf; [auto | intros ->; contradiction]).
    rewrite (fold_xor_shift f t (Z.lxor h (f' a))), (fold_xor_shift f t (Z.lxor h (f a))).
    xor_solve.
  - assert (a <> a0) by (intros ->; contradiction).
    rewrite Hf by auto. apply IH; auto.
Qed.

End XorFacts.

Module ZobristProofs.
Import Othello Zobrist BoardFacts XorFacts Invariants.

(** The hash as a fold over rows of row hashes. *)
Lemma hash_rows (g : grid) (T : table) :
  get_hash_version_hash g T =
  fold_left (fun h y => Z.lxor h
    (fold_left (fun h x => Z.lxor h (tbl T x y (XOR_INDICES (get g x y)))) (zrange BOARD_SIZE) 0))
    (zrange BOARD_SIZE) 0.
Proof.
  unfold get_hash_version_hash. apply fold_left_ext_eq. intros h y _.
  apply (fold_xor_shift (fun x => tbl T x y (XOR_INDICES (get g x y)))).
Qed.

(** Changing one cell changes the from-scratch hash by the two table
    values of that cell. *)
Lemma hash_set (g : grid) (T : table) (x0 y0 : Z) (c : piece) :
  wf g -> in_range x0 y0 ->
  get_hash_version_hash (set g x0 y0 c) T =
  Z.lxor (Z.lxor (get_hash_version_hash g T) (tbl T x0 y0 (XOR_INDICES (get g x0 y0))))
         (tbl T x0 y0 (XOR_INDICES c)).
Proof.
  intros Hwf Hr. rewrite !hash_rows.
  set (row := fun (g' : grid) y =>
    fold_left (fun h x => Z.lxor h (tbl T x y (XOR_INDICES (get g' x y)))) (zrange BOARD_SIZE) 0).
  change (fold_left (fun h y => Z.lxor h (row (set g x0 y0 c) y)) (zrange BOARD_SIZE) 0 =
          Z.lxor (Z.lxor (fold_left (fun h y => Z.lxor h (row g y)) (zrange BOARD_SIZE) 0)
                         (tbl T x0 y0 (XOR_INDICES (get g x0 y0)))) (tbl T x0 y0 (XOR_INDICES c))).
  destruct Hr as [Hx0 Hy0].
  rewrite (fold_xor_in (row g) (row (set g x0 y0 c)) (zrange BOARD_SIZE) y0 0).
  - assert (Hrow : row (set g x0 y0 c) y0 =
                   Z.lxor (Z.lxor (row g y0) (tbl T x0 y0 (XOR_INDICES (get g x0 y0))))
                          (tbl T x0 y0 (XOR_INDICES c))).
    { unfold row.
      rewrite (fold_xor_in (fun x => tbl T x y0 (XOR_INDICES (get g x y0)))
                 (fun x => tbl T x y0 (XOR_INDICES (get (set g x0 y0 c) x y0)))
                 (zrange BOARD_SIZE) x0 0).
      - rewrite get_set by (auto; split; lia). destruct (decide _); [|congruence]. reflexivity.
      - apply NoDup_zrange.
      - apply zrange_In; unfold BOARD_SIZE; lia.
      - intros x Hx Hne. apply zrange_In in Hx; [|unfold BOARD_SIZE; lia].
        rewrite get_set by (auto; unfold in_range, BOARD_SIZE in *; lia).
        destruct (decide _) as [He|]; [congruence|reflexivity]. }
    rewrite Hrow. xor_solve.
  - apply NoDup_zrange.
  - apply zrange_In; unfold BOARD_SIZE; lia.
  - intros y Hy Hne. apply zrange_In in Hy; [|unfold BOARD_SIZE; lia]. unfold row.
    apply fold_xor_notin. intros x Hx. apply zrange_In in Hx; [|unfold BOARD_SIZE; lia].
    rewrite get_set by (auto; unfold in_range, BOARD_SIZE in *; lia).
    destruct (decide _) as [He|]; [congruence|reflexivity].
Qed.


Lemma flip_inv (st : hstate) (x y : Z) : inv st -> in_range x y -> inv (flip st (x, y)).
Proof.
  intros [Hwf Hh] Hr. unfold flip, inv, hash_ok in *; simpl. split.
  - apply wf_set; auto.
  - rewrite hash_set by auto. rewrite Hh. reflexivity.
Qed.

Lemma scan_loop_range (g : grid) (pos : Z * Z) (c : piece) (d : Z * Z) (fuel : nat)
    (i : Z) (df : bool) (k : Z) :
  scan_loop g pos c d i fuel df = Some k ->
  i <= k /\ forall j, i <= j <= k -> in_range (d.1 * j + pos.1) (d.2 * j + pos.2).
Proof.
  revert i df; induction fuel as [|f IH]; intros i df Hs; simpl in Hs; [discriminate|].
  destruct (decide (in_range _ _)) as [Hr|]; [|discriminate].
  assert (Hstep : scan_loop g pos c d (i + 1) f true = Some k ->
                  i <= k /\ forall j, i <= j <= k -> in_range (d.1 * j + pos.1) (d.2 * j + pos.2)).
  { intros Hs'. destruct (IH _ _ Hs') as [Hle Hall]. split; [lia|].
    intros j Hj. destruct (decide (j = i)) as [->|]; auto. apply Hall. lia. }
  destruct df; simpl in Hs.
  - destruct (decide (get g _ _ = c)).
    + injection Hs as <-. split; [lia|]. intros j Hj. replace j with i by lia. auto.
    + destruct (decide (get g _ _ = E)); [discriminate|]. auto.
  - destruct (decide (get g _ _ <> FLIP_RULE c)); [discriminate|]. auto.
Qed.

Lemma line_cells_range (g : grid) (pos : Z * Z) (c : piece) (d : Z * Z) (i : Z) :
  line_scan g pos c d = Some i ->
  forall x y d', In (x, y, d') (line_cells pos d i) -> in_range x y.
Proof.
  intros Hs x y d' Hin. apply scan_loop_range in Hs as [Hle Hall].
  unfold line_cells in Hin. rewrite map_map, in_map_iff in Hin.
  destruct Hin as (z & Heq & Hz). injection Heq as <- <- _.
  apply zrange_In in Hz; [|lia]. apply Hall. lia.
Qed.

Lemma flips_inv (cells : list (Z * Z * (Z * Z))) (st : hstate) :
  inv st -> (forall x y d', In (x, y, d') cells -> in_range x y) ->
  inv (fold_left (fun st '(x, y, _) => flip st (x, y)) cells st).
Proof.
  revert st; induction cells as [|[[x y] d'] t IH]; intros st Hinv Hr; simpl; auto.
  apply IH.
  - apply flip_inv; auto. eapply Hr. simpl; auto.
  - intros; eapply Hr; simpl; eauto.
Qed.

Lemma flip_line_inv (st : hstate) (pos : Z * Z) (c : piece) (dirs : list (Z * Z)) :
  inv st -> inv (flip_line st pos c dirs).
Proof.
  unfold flip_line. apply fold_left_invariant. intros d st' _ Hinv.
  destruct (line_scan (hs_board st') pos c d) as [i|] eqn:Hs; auto.
  apply flips_inv; auto. eapply line_cells_range; eauto.
Qed.

End ZobristProofs.

Module PmFacts.
Import Othello BoardFacts Invariants.

Lemma keys_dict_set {V} (d : dict (Z * Z) V) (k k' : Z * Z) (v : V) :
  In k' (keys (dict_set d k v)) -> k' = k \/ In k' (keys d).
Proof.
  induction d as [|[k0 v0] t IH]; simpl; [intuition|].
  destruct (decide (k = k0)) as [->|]; simpl; intuition.
Qed.

Lemma keys_add_dir (d : dict (Z * Z) (list (Z * Z))) (pos chk k' : Z * Z) :
  In k' (keys (add_dir d pos chk)) -> k' = pos \/ In k' (keys d).
Proof. unfold add_dir. destruct (dict_get d pos); apply keys_dict_set. Qed.

Lemma dict_get_keys {V} (d : dict (Z * Z) V) (k : Z * Z) (v : V) :
  dict_get d k = Some v -> In k (keys d).
Proof.
  induction d as [|[k0 v0] t IH]; simpl; [discriminate|].
  destruct (decide (k = k0)); auto.
Qed.


Lemma cell_step_keys (g : grid) (pm : pmoves) (x y : Z) :
  in_range x y -> keys_empty g pm -> keys_empty g (cell_step g pm x y).
Proof.
  intros Hr Hk. unfold cell_step. destruct (decide (get g x y = E)) as [He|]; auto.
  apply fold_left_invariant; auto. intros [a d] pm' _ Hk'. unfold adj_step; simpl.
  destruct a; [destruct (check_flip_line g (x, y) B d) | destruct (check_flip_line g (x, y) W d) |];
    auto; intros k [Hin|Hin]; simpl in Hin;
    try (apply keys_add_dir in Hin as [->|Hin]; [auto|]); apply Hk'; auto.
Qed.

Lemma board_change_keys (g : grid) : keys_empty g (board_change g).
Proof.
  unfold board_change. apply fold_left_invariant.
  - intros x pm Hx Hk. apply fold_left_invariant; auto.
    intros y pm' Hy Hk'. apply cell_step_keys; auto.
    apply zrange_In in Hx, Hy; unfold in_range, BOARD_SIZE in *; lia.
  - intros k [[]|[]].
Qed.


Lemma scan_loop_end (g : grid) (pos : Z * Z) (c : piece) (d : Z * Z) (fuel : nat) (i k : Z) (df : bool) :
  scan_loop g pos c d i fuel df = Some k -> has g c.
Proof.
  revert i df; induction fuel as [|f IH]; intros i df Hs; simpl in Hs; [discriminate|].
  destruct (decide (in_range _ _)) as [Hr|]; [|discriminate].
  destruct df; simpl in Hs.
  - destruct (decide (get g _ _ = c)) as [Hc|].
    + exists (d.1 * i + pos.1), (d.2 * i + pos.2). auto.
    + destruct (decide (get g _ _ = E)); [discriminate|]. eauto.
  - destruct (decide (get g _ _ <> FLIP_RULE c)); [discriminate|]. eauto.
Qed.

Lemma scan_loop_first (g : grid) (pos : Z * Z) (c : piece) (d : Z * Z) (fuel : nat) (i k : Z) :
  scan_loop g pos c d i fuel false = Some k -> has g (FLIP_RULE c).
Proof.
  destruct fuel as [|f]; simpl; [discriminate|].
  destruct (decide (in_range _ _)) as [Hr|]; [|discriminate]. simpl.
  destruct (decide (get g _ _ <> FLIP_RULE c)) as [|Hn]; [discriminate|].
  intros _. exists (d.1 * i + pos.1), (d.2 * i + pos.2). split; auto.
  destruct (decide (get g (d.1 * i + pos.1) (d.2 * i + pos.2) = FLIP_RULE c)); tauto.
Qed.

Lemma check_flip_line_scan (g : grid) (pos : Z * Z) (c : piece) (d chk : Z * Z) :
  check_flip_line g pos c d = Some chk -> exists i, line_scan g pos c d = Some i.
Proof.
  unfold check_flip_line, line_iterator. simpl.
  destruct (line_scan g pos c d) as [i|]; simpl; eauto. discriminate.
Qed.


Lemma board_change_discs (g : grid) : moves_need_discs g (board_change g).
Proof.
  unfold board_change. apply fold_left_invariant; [|left; auto].
  intros x pm _ Hk. apply fold_left_invariant; auto.
  intros y pm' _ Hk'. unfold cell_step. destruct (decide _); auto.
  apply fold_left_invariant; auto. intros [a d] pm'' _ H''. unfold adj_step; simpl.
  destruct a; auto.
  - destruct (check_flip_line g (x, y) B d) as [chk|] eqn:Hc; auto. right.
    apply check_flip_line_scan in Hc as [i Hs]. split.
    + apply (scan_loop_first _ _ _ _ _ _ _ Hs).
    + apply (scan_loop_end _ _ _ _ _ _ _ _ Hs).
  - destruct (check_flip_line g (x, y) W d) as [chk|] eqn:Hc; auto. right.
    apply check_flip_line_scan in Hc as [i Hs]. split.
    + apply (scan_loop_end _ _ _ _ _ _ _ _ Hs).
    + apply (scan_loop_first _ _ _ _ _ _ _ Hs).
Qed.

Lemma fold_mono {A C} (m : C -> Z) (f : C -> A -> C) (l : list A) (acc : C) :
  (forall c a, In a l -> m c <= m (f c a)) -> m acc <= m (fold_left f l acc).
Proof.
  revert acc; induction l as [|a t IH]; intros acc Hf; simpl; [lia|].
  transitivity (m (f acc a)); [apply Hf; simpl; auto|]. apply IH. intros; apply Hf; simpl; auto.
Qed.

Lemma fold_incr {A C} (m : C -> Z) (f : C -> A -> C) (l : list A) (acc : C) (a0 : A) :
  (forall c a, In a l -> m c <= m (f c a)) -> In a0 l -> (forall c, m c < m (f c a0)) ->
  m acc < m (fold_left f l acc).
Proof.
  revert acc; induction l as [|a t IH]; intros acc Hf Hin Hs; simpl in *; [contradiction|].
  destruct Hin as [->|Hin].
  - eapply Z.lt_le_trans; [apply Hs|]. apply fold_mono. intros; apply Hf; auto.
  - eapply Z.le_lt_trans; [apply Hf; auto|]. apply IH; auto.
Qed.

Lemma count_add_mono (cnt : counts) (p : piece) :
  cW cnt <= cW (count_add cnt p) /\ cB cnt <= cB (count_add cnt p).
Proof. destruct p; simpl; lia. Qed.

Lemma count_has_gen (g : grid) (m : counts -> Z) (c : piece) (x y : Z) :
  in_range x y -> get g x y = c ->
  (forall cnt p, m cnt <= m (count_add cnt p)) -> (forall cnt, m cnt < m (count_add cnt c)) ->
  m (mk_counts 0 0 0) < m (count_pieces g).
Proof.
  intros [Hx Hy] Hg Hstep Hc.
  unfold count_pieces. apply fold_incr with (a0 := y).
  - intros cnt a _. apply fold_mono. intros; apply Hstep.
  - apply zrange_In; unfold BOARD_SIZE; lia.
  - intros cnt. apply fold_incr with (a0 := x).
    + intros; apply Hstep.
    + apply zrange_In; unfold BOARD_SIZE; lia.
    + intros cnt'. rewrite Hg. apply Hc.
Qed.

(** A colour with a disc on the board is counted. *)
Lemma count_has_W (g : grid) : has g W -> 0 < cW (count_pieces g).
Proof.
  intros (x & y & Hr & Hg). apply (count_has_gen g cW W x y); auto.
  - intros cnt p; destruct p; simpl; lia.
  - intros; simpl; lia.
Qed.

Lemma count_has_B (g : grid) : has g B -> 0 < cB (count_pieces g).
Proof.
  intros (x & y & Hr & Hg). apply (count_has_gen g cB B x y); auto.
  - intros cnt p; destruct p; simpl; lia.
  - intros; simpl; lia.
Qed.

Lemma count_nonneg (g : grid) : 0 <= cW (count_pieces g) /\ 0 <= cB (count_pieces g).
Proof.
  unfold count_pieces. split.
  - refine (fold_mono cW _ _ (mk_counts 0 0 0) _).
    intros; apply fold_mono. intros; apply (proj1 (count_add_mono _ _)).
  - refine (fold_mono cB _ _ (mk_counts 0 0 0) _).
    intros; apply fold_mono. intros; apply (proj2 (count_add_mono _ _)).
Qed.

End PmFacts.

Module HashProofs.
Import Othello Zobrist BoardFacts Invariants ZobristProofs PmFacts.

Lemma place_inv (st st' : hstate) (pos : Z * Z) (c : piece) :
  inv st -> pm_ok st -> place st pos c = Some st' -> inv st' /\ pm_ok st'.
Proof.
  intros [Hwf Hh] Hpm. destruct pos as [x y]. unfold place.
  destruct (pm_get (hs_pm st) c) as [d|] eqn:Hd; [|discriminate].
  destruct (dict_get d (x, y)) as [dirs|] eqn:Hdirs; [|discriminate].
  intros Hs; injection Hs as <-. unfold pm_ok; simpl. split; [|reflexivity].
  assert (Hk : in_range x y /\ get (hs_board st) x y = E).
  { apply (board_change_keys (hs_board st) (x, y)). rewrite <- Hpm.
    apply dict_get_keys in Hdirs. destruct c; simpl in Hd; injection Hd as <- || discriminate; auto. }
  destruct Hk as [Hr He].
  assert (Hinv : inv (flip_line (mk_hstate (set (hs_board st) x y c)
            (Z.lxor (Z.lxor (hs_hash st) (tbl (hs_table st) x y (XOR_INDICES E)))
                    (tbl (hs_table st) x y (XOR_INDICES c)))
            (hs_pm st) (hs_table st)) (x, y) c dirs)).
  { apply flip_line_inv. split; simpl.
    - apply wf_set; auto.
    - unfold hash_ok; simpl. rewrite hash_set by auto. rewrite He, Hh. reflexivity. }
  destruct Hinv as [Hw' Hh']. split; auto.
Qed.

Lemma place_seq_inv (st st' : hstate) (moves : list ((Z * Z) * piece)) :
  inv st -> pm_ok st -> place_seq st moves = Some st' -> inv st' /\ pm_ok st'.
Proof.
  revert st; induction moves as [|[pos c] t IH]; intros st Hinv Hpm; simpl.
  - intros Hs; injection Hs as <-; auto.
  - destruct (place st pos c) as [st1|] eqn:Hp; [|discriminate].
    destruct (place_inv _ _ _ _ Hinv Hpm Hp). apply IH; auto.
Qed.

Lemma flip_line_table (st : hstate) (pos : Z * Z) (c : piece) (dirs : list (Z * Z)) :
  hs_table (flip_line st pos c dirs) = hs_table st.
Proof.
  unfold flip_line. apply (fold_left_invariant (fun st' => hs_table st' = hs_table st)); auto.
  intros d st' _ Ht. destruct (line_scan _ _ _ _); auto.
  apply (fold_left_invariant (fun st'' => hs_table st'' = hs_table st)); auto.
  intros [[x y] d'] st'' _ Ht'. exact Ht'.
Qed.

Lemma place_seq_table (st st' : hstate) (moves : list ((Z * Z) * piece)) :
  place_seq st moves = Some st' -> hs_table st' = hs_table st.
Proof.
  revert st; induction moves as [|[[x y] c] t IH]; intros st; simpl.
  - intros Hs; injection Hs as <-; auto.
  - unfold place. destruct (pm_get (hs_pm st) c); [|discriminate].
    destruct (dict_get _ (x, y)); [|discriminate].
    intros Hs. apply IH in Hs. rewrite Hs; simpl. rewrite flip_line_table. reflexivity.
Qed.

(** C1: starting from the state [get_hash_version] builds at the search
    root (from-scratch hash, legal moves of the board, random table [T]),
    after any sequence of successful [place] calls the incrementally
    maintained [hash_num] equals the from-scratch XOR over all 64 cells of
    the table value of the cell's current colour, with the same table. *)
Theorem place_seq_hash_from_scratch (g : grid) (T : table) (moves : list ((Z * Z) * piece)) (st' : hstate) :
  wf g -> place_seq (get_hash_version g (board_change g) T) moves = Some st' ->
  hs_table st' = T /\ hs_hash st' = get_hash_version_hash (hs_board st') T.
Proof.
  intros Hwf Hs. pose proof (place_seq_table _ _ _ Hs) as Ht. simpl in Ht.
  split; auto. rewrite <- Ht.
  apply (place_seq_inv (get_hash_version g (board_change g) T) st' moves); auto.
  split; auto. reflexivity. reflexivity.
Qed.

Lemma place_seq_hash_from_scratch_witness :
  match place_seq (get_hash_version start_board (board_change start_board) sample_table)
                  [((3, 2), B); ((2, 2), W); ((2, 3), B)] with
  | Some st' => wf start_board /\ hs_table st' = sample_table /\
                hs_hash st' = get_hash_version_hash (hs_board st') sample_table
  | None => False
  end.
Proof.
  destruct (place_seq _ _) as [st'|] eqn:Hs; [|vm_compute in Hs; discriminate].
  assert (Hwf : wf start_board) by (vm_compute; split; [reflexivity | repeat constructor]).
  split; [exact Hwf|].
  exact (place_seq_hash_from_scratch start_board sample_table _ st' Hwf Hs).
Defined.

End HashProofs.

Module TerminalProofs.
Import Othello Zobrist Eval Invariants PmFacts.

Lemma sorted_count_second (cnt : counts) :
  (nth_count (sorted_count cnt) 1).1 = Z.min (cW cnt) (cB cnt).
Proof.
  destruct cnt as [w b e]. unfold sorted_count, sort_desc, nth_count; simpl.
  repeat (destruct (decide _); simpl); lia.
Qed.

Lemma terminal_iff (st : hstate) :
  pm_ok st ->
  (check_if_terminal st = true <->
   (pmW (hs_pm st) = [] /\ pmB (hs_pm st) = []) \/
   cW (count_pieces (hs_board st)) = 0 \/ cB (count_pieces (hs_board st)) = 0).
Proof.
  intros Hpm. pose proof (count_nonneg (hs_board st)) as [HW HB].
  assert (Hd : moves_need_discs (hs_board st) (hs_pm st)) by (rewrite Hpm; apply board_change_discs).
  unfold check_if_terminal. rewrite sorted_count_second.
  destruct (decide (pmB (hs_pm st) = [] /\ pmW (hs_pm st) = [])) as [Hb|Hb].
  - split; intros; [left; tauto | reflexivity].
  - destruct Hd as [Hd|[HhW HhB]]; [tauto|].
    apply count_has_W in HhW. apply count_has_B in HhB.
    destruct (decide (pmB (hs_pm st) = [] \/ pmW (hs_pm st) = [])).
    + rewrite bool_decide_eq_true. split; [lia|]. intros [H|[H|H]]; [tauto|lia|lia].
    + split; [discriminate|]. intros [H|[H|H]]; [tauto|lia|lia].
Qed.

(** C3: for a state whose legal moves are those of its board (as
    [board_change] keeps them), [check_if_terminal] holds exactly when
    both colours have no legal move or one colour has no disc. *)
Theorem check_if_terminal_iff (st : hstate) :
  pm_ok st ->
  (check_if_terminal st = true <->
   (pmW (hs_pm st) = [] /\ pmB (hs_pm st) = []) \/
   cW (count_pieces (hs_board st)) = 0 \/ cB (count_pieces (hs_board st)) = 0).
Proof. exact (terminal_iff st). Qed.

Lemma check_if_terminal_iff_witness :
  pm_ok (get_hash_version start_board (board_change start_board) sample_table) /\
  (check_if_terminal (get_hash_version start_board (board_change start_board) sample_table) = true <->
   (pmW (board_change start_board) = [] /\ pmB (board_change start_board) = []) \/
   cW (count_pieces start_board) = 0 \/ cB (count_pieces start_board) = 0).
Proof.
  assert (H : pm_ok (get_hash_version start_board (board_change start_board) sample_table))
    by reflexivity.
  split; [exact H|]. exact (check_if_terminal_iff _ H).
Defined.

End TerminalProofs.

Module TurnProofs.
Import Othello Turns Samples.

(** The generator never yields a colour without a legal move. *)
Lemma end_game_step_yields_mover (pm : pmoves) (colour y c' : piece) :
  end_game_step pm colour = Some (y, c') -> n_moves pm y <> 0%nat.
Proof.
  unfold end_game_step. destruct (decide _) as [H|H].
  - intros E'; injection E' as <- _; auto.
  - destruct (decide _) as [H'|H']; [intros E'; injection E' as <- _; auto | discriminate].
Qed.

(** For a real colour the generator stops exactly when neither colour can
    move. *)
Lemma end_game_step_stops (pm : pmoves) (colour : piece) :
  colour <> E ->
  (end_game_step pm colour = None <-> n_moves pm W = 0%nat /\ n_moves pm B = 0%nat).
Proof.
  intros Hc. unfold end_game_step.
  destruct colour; [| | congruence]; simpl;
    repeat destruct (decide _); split; intros; try discriminate; try tauto; lia.
Qed.

(** C2: the [elif] branch sets [colour] to the opponent and yields it but
    does not switch [colour] back after the move.  On [pass_board] with
    Black to play, Black has no move and White is yielded; White plays
    (2, 2); the generator then yields White again although Black now has a
    legal move. *)
Theorem end_game_iterator_repeats_without_pass :
  n_moves (board_change pass_board) B = 0%nat /\
  end_game_step (board_change pass_board) B = Some (W, W) /\
  match oplace pass_board (board_change pass_board) (2, 2) W with
  | Some (g1, pm1) => end_game_step pm1 W = Some (W, B) /\ n_moves pm1 B = 1%nat
  | None => False
  end.
Proof. vm_compute. auto. Qed.

End TurnProofs.

Module EvalProofs.
Import Othello Zobrist Eval Invariants PmFacts TerminalProofs Samples SpecStability.

Lemma sorted_count_first (cnt : counts) :
  0 <= cW cnt -> 0 <= cB cnt ->
  nth_count (sorted_count cnt) 0 =
    if decide (cB cnt <= cW cnt) then (cW cnt, W) else (cB cnt, B).
Proof.
  destruct cnt as [w b e]. unfold sorted_count, sort_desc, nth_count; simpl. intros Hw Hb.
  repeat (destruct (decide _); simpl); f_equal; lia.
Qed.

(** [terminal_utility]: 0 on equal counts, else 85 plus the margin, with
    the sign of the leader (White positive). *)
Lemma terminal_utility_margin (st : hstate) :
  let w := cW (count_pieces (hs_board st)) in
  let b := cB (count_pieces (hs_board st)) in
  terminal_utility st = if decide (w = b) then 0 else if decide (b < w) then 85 + (w - b) else -85 - (b - w).
Proof.
  intros w b. pose proof (count_nonneg (hs_board st)) as [Hw Hb].
  unfold terminal_utility. rewrite sorted_count_second, sorted_count_first by auto.
  fold w b in Hw, Hb |- *. clearbody w b.
  destruct (decide (b <= w)); cbn [fst snd];
    repeat destruct (decide _); try congruence; lia.
Qed.

(** C4: the terminal values do not dominate the heuristic.  The board
    with a single White disc is terminal with value 86 (85 plus a margin
    of one), while the non-terminal [corner_board] evaluates to 110: its
    stability ratio is (2 - (-1)) / (2 + (-1)) = 3, since a stability is a
    difference of counts and can be negative. *)
Theorem terminal_utility_not_dominant :
  check_if_terminal (state_of lone_white_board) = true /\
  terminal_utility (state_of lone_white_board) = 86 /\
  check_if_terminal (state_of corner_board) = false /\
  stabilities (state_of corner_board) = (2, -1) /\
  match heuristic_utility (state_of corner_board) with
  | Some h => PrimFloat.ltb (fz (terminal_utility (state_of lone_white_board))) h = true /\ h = fz 110
  | None => False
  end.
Proof. vm_compute. repeat split; reflexivity. Qed.

(** Non-terminal states have a move and a disc of each colour. *)
Lemma nonterminal_facts (st : hstate) :
  pm_ok st -> check_if_terminal st = false ->
  ~ (pmW (hs_pm st) = [] /\ pmB (hs_pm st) = []) /\
  0 < cW (count_pieces (hs_board st)) /\ 0 < cB (count_pieces (hs_board st)).
Proof.
  intros Hpm Hf. pose proof (terminal_iff st Hpm) as Hiff.
  pose proof (count_nonneg (hs_board st)) as [Hw Hb].
  rewrite Hf in Hiff. split; [|split]; [intros H| |]; try (assert (false = true) by (apply Hiff; tauto); discriminate).
  - destruct (decide (cW (count_pieces (hs_board st)) = 0)); [|lia].
    assert (false = true) by (apply Hiff; tauto); discriminate.
  - destruct (decide (cB (count_pieces (hs_board st)) = 0)); [|lia].
    assert (false = true) by (apply Hiff; tauto); discriminate.
Qed.

(** C5 (as the code is): mobility is [(w - b) / (w + b)] with no guard,
    so [heuristic_utility] raises [ZeroDivisionError] whenever neither
    colour has a legal move; [minimax] evaluates it only on non-terminal
    states, where [w + b > 0], mobility is that quotient and the whole
    heuristic is defined. *)
Theorem heuristic_mobility_nonterminal (st : hstate) :
  (pmW (hs_pm st) = [] -> pmB (hs_pm st) = [] ->
   heuristic_mobility st = None /\ heuristic_utility st = None) /\
  (pm_ok st -> check_if_terminal st = false ->
   let w := Z.of_nat (length (pmW (hs_pm st))) in
   let b := Z.of_nat (length (pmB (hs_pm st))) in
   0 < w + b /\ heuristic_mobility st = Some (PrimFloat.div (fz (w - b)) (fz (w + b))) /\
   heuristic_utility st <> None).
Proof.
  split.
  - intros HW HB.
    assert (Hmob : heuristic_mobility st = None).
    { unfold heuristic_mobility, int_div. rewrite HW, HB. reflexivity. }
    split; [exact Hmob|]. unfold heuristic_utility.
    destruct (int_div _ _); [|reflexivity]. rewrite Hmob. reflexivity.
  - intros Hpm Hf w b. destruct (nonterminal_facts st Hpm Hf) as (Hm & Hw & Hb).
    assert (Hwb : 0 < w + b).
    { unfold w, b. destruct (pmW (hs_pm st)), (pmB (hs_pm st)); simpl; [tauto|lia..]. }
    assert (Hmob : heuristic_mobility st = Some (PrimFloat.div (fz (w - b)) (fz (w + b)))).
    { unfold heuristic_mobility, int_div. fold w b. destruct (decide _); [lia|reflexivity]. }
    split; [exact Hwb|]. split; [exact Hmob|].
    unfold heuristic_utility. rewrite Hmob. unfold int_div at 1.
    destruct (decide _); [lia|]. destruct (stabilities st). discriminate.
Qed.

Lemma heuristic_mobility_nonterminal_witness :
  (pmW (hs_pm (state_of blocked_board)) = [] /\ pmB (hs_pm (state_of blocked_board)) = [] /\
   heuristic_mobility (state_of blocked_board) = None /\ heuristic_utility (state_of blocked_board) = None) /\
  (pm_ok (state_of start_board) /\ check_if_terminal (state_of start_board) = false /\
   (let w := Z.of_nat (length (pmW (hs_pm (state_of start_board)))) in
    let b := Z.of_nat (length (pmB (hs_pm (state_of start_board)))) in
    0 < w + b /\ heuristic_mobility (state_of start_board) = Some (PrimFloat.div (fz (w - b)) (fz (w + b))) /\
    heuristic_utility (state_of start_board) <> None)).
Proof.
  split.
  - assert (HW : pmW (hs_pm (state_of blocked_board)) = []) by (vm_compute; reflexivity).
    assert (HB : pmB (hs_pm (state_of blocked_board)) = []) by (vm_compute; reflexivity).
    split; [exact HW|]. split; [exact HB|].
    exact (proj1 (heuristic_mobility_nonterminal (state_of blocked_board)) HW HB).
  - assert (Hpm : pm_ok (state_of start_board)) by reflexivity.
    assert (Hf : check_if_terminal (state_of start_board) = false) by (vm_compute; reflexivity).
    split; [exact Hpm|]. split; [exact Hf|].
    exact (proj2 (heuristic_mobility_nonterminal (state_of start_board)) Hpm Hf).
Defined.

(** C5 counterexample: with one disc of each colour and no legal move for
    either, the mobility sum is 0 and [heuristic_utility] raises. *)
Theorem heuristic_utility_zero_mobility_raises :
  pmW (hs_pm (state_of blocked_board)) = [] /\ pmB (hs_pm (state_of blocked_board)) = [] /\
  heuristic_mobility (state_of blocked_board) = None /\
  heuristic_utility (state_of blocked_board) = None.
Proof. vm_compute. repeat split. Qed.

(** C6: the code's stability differs from the specified one.  With White
    on (0, 0), (1, 0), (2, 0) and Black on (3, 0), the board is not
    terminal, White has the move (4, 0), and [heuristic_utility] gets past
    the mobility line and computes the stabilities.  The specified White
    stability is 3 (the run along the top edge, no White disc unstable);
    the code's is 2: [dumb_line_iterator]'s condition
    [0 >= x > BOARD_SIZE] never holds, so only the corner is counted, once
    for each of its two [SAFE_LINES] entries.  Black is -1 in both: no
    stable disc, and (3, 0) lies on White's flip line. *)
Theorem stability_differs_from_edge_runs :
  check_if_terminal (state_of edge_board) = false /\
  heuristic_mobility (state_of edge_board) <> None /\ heuristic_utility (state_of edge_board) <> None /\
  stabilities (state_of edge_board) = (2, -1) /\
  spec_stability (state_of edge_board) W = 3 /\ spec_stability (state_of edge_board) B = -1.
Proof. vm_compute. repeat split; discriminate. Qed.

(** [dumb_line_iterator] yields nothing. *)
Lemma dumb_line_iterator_nil (y x : Z) (line_diff : Z * Z) : dumb_line_iterator y x line_diff = [].
Proof.
  unfold dumb_line_iterator. generalize 64%nat as fuel. intros [|f]; [reflexivity|].
  cbn [dumb_loop].
  destruct (0 >=? x) eqn:H1, (x >? BOARD_SIZE) eqn:H2; cbn [andb]; auto.
  unfold BOARD_SIZE in *. lia.
Qed.

End EvalProofs.

Module SearchProofs.
Import Othello Zobrist Eval Search Samples.

Lemma order_moves_none (ms : list (Z * Z)) : order_moves None ms = ms.
Proof.
  unfold order_moves, differs. simpl.
  assert (Hf : forall l : list (Z * Z), filter (fun _ => False) l = []).
  { induction l as [|m t IH]; [reflexivity|].
    rewrite filter_cons. destruct (decide False) as [[]|_]. exact IH. }
  assert (Ht : forall l : list (Z * Z), filter (fun _ => True) l = l).
  { induction l as [|m t IH]; [reflexivity|].
    rewrite filter_cons. destruct (decide True) as [_|[]]; [|exact I]. f_equal. exact IH. }
  rewrite Hf, Ht. reflexivity.
Qed.

(** C7 (as the code is): an entry whose depth is below the lookahead is
    ignored altogether: the window is unchanged, [check_move_first] is
    [None] and the moves are searched in the order of the dict's keys. *)
Theorem tt_shallow_entry_ignored (e : tt_entry) (lookahead : nat) (alpha beta : float) :
  (e_depth e < lookahead)%nat ->
  tt_probe (Some e) lookahead alpha beta = PContinue alpha beta None /\
  forall ms, order_moves None ms = ms.
Proof.
  intros Hd. split; [|exact order_moves_none].
  unfold tt_probe. destruct (decide _); [lia|reflexivity].
Qed.

Lemma tt_shallow_entry_ignored_witness :
  lt (e_depth (mk_entry (fz 0) 1 0 (5, 4))) 1 /\
  tt_probe (Some (mk_entry (fz 0) 1 0 (5, 4))) 1 neg_infinity infinity = PContinue neg_infinity infinity None /\
  forall ms, order_moves None ms = ms.
Proof.
  assert (H : lt (e_depth (mk_entry (fz 0) 1 0 (5, 4))) 1) by (simpl; lia).
  split; [exact H|]. exact (tt_shallow_entry_ignored _ 1 neg_infinity infinity H).
Defined.

(** C7 counterexample: Black to move at the start position, with a
    depth-0 entry whose best move is (5, 4) and a lookahead of 1: the moves
    are searched in key order, (2, 3) first, not the stored move. *)
Theorem tt_shallow_entry_not_a_hint :
  keys (pmB (board_change start_board)) = [(2, 3); (3, 2); (4, 5); (5, 4)] /\
  match tt_probe (Some (mk_entry (fz 0) 1 0 (5, 4))) 1 neg_infinity infinity with
  | PContinue _ _ check_move_first =>
      hd_error (order_moves check_move_first (keys (pmB (board_change start_board)))) = Some (2, 3)
  | PReturn _ _ => False
  end.
Proof. vm_compute. split; reflexivity. Qed.

End SearchProofs.

Module InputProofs.
Import Othello Input.

(** C9 (as the code is): [can_be_placed] raises exactly when
    [int(pos[0]), int(pos[1])] raises something other than [ValueError]
    ([TypeError] or [IndexError]); on [ValueError] it returns [(pos, False)];
    otherwise it returns the normalized pair with a flag that is [True]
    exactly when the pair is in range and a key of the colour's legal
    moves. *)
Theorem can_be_placed_spec (int_of_str : string -> option Z) (pm : pmoves) (pos : pyval) (c : piece) :
  c <> E ->
  match can_be_placed int_of_str pm pos c with
  | Ok (pos', flag) =>
      (normalize int_of_str pos = Err ValueError /\ pos' = pos /\ flag = false) \/
      (exists x y, normalize int_of_str pos = Ok (x, y) /\ pos' = PTuple [PInt x; PInt y] /\
         (flag = true <-> in_range x y /\
            (x, y) ∈ keys (match pm_get pm c with Some d => d | None => [] end)))
  | Err e => normalize int_of_str pos = Err e /\ e <> ValueError
  end.
Proof.
  intros Hc. unfold can_be_placed.
  destruct (normalize int_of_str pos) as [[x y]|e] eqn:Hn.
  - destruct (decide _) as [Hr|Hr].
    + unfold BOARD_SIZE in Hr.
      destruct c; [| |congruence]; cbn [pm_get];
        destruct (decide ((x, y) ∈ _)) as [Hk|Hk]; right; exists x, y;
        (split; [reflexivity|]); (split; [reflexivity|]); unfold in_range;
        split; intros H; try discriminate; try reflexivity; tauto.
    + right. exists x, y. split; [reflexivity|]. split; [reflexivity|].
      unfold in_range, BOARD_SIZE in *. split; [discriminate|tauto].
  - destruct e; [left; auto| split; auto; discriminate ..].
Qed.

Lemma can_be_placed_spec_witness :
  W <> E /\
  match can_be_placed dec_int_of_str (board_change start_board) (PTuple [PStr "4"; PStr "5"]) W with
  | Ok (pos', flag) =>
      (normalize dec_int_of_str (PTuple [PStr "4"; PStr "5"]) = Err ValueError /\
         pos' = PTuple [PStr "4"; PStr "5"] /\ flag = false) \/
      (exists x y, normalize dec_int_of_str (PTuple [PStr "4"; PStr "5"]) = Ok (x, y) /\
         pos' = PTuple [PInt x; PInt y] /\
         (flag = true <-> in_range x y /\
            (x, y) ∈ keys (match pm_get (board_change start_board) W with Some d => d | None => [] end)))
  | Err e => normalize dec_int_of_str (PTuple [PStr "4"; PStr "5"]) = Err e /\ e <> ValueError
  end.
Proof.
  assert (H : W <> E) by discriminate.
  split; [exact H|]. exact (can_be_placed_spec dec_int_of_str (board_change start_board) (PTuple [PStr "4"; PStr "5"]) W H).
Defined.

(** C9 counterexample: a candidate whose first item is [None] makes
    [int(None)] raise [TypeError], which [can_be_placed] does not catch;
    a one-item candidate raises [IndexError]. *)
Theorem can_be_placed_raises :
  can_be_placed dec_int_of_str (board_change start_board) (PTuple [PNone; PInt 0]) B = Err TypeError /\
  can_be_placed dec_int_of_str (board_change start_board) (PTuple [PInt 3]) B = Err IndexError.
Proof. split; reflexivity. Qed.

End InputProofs.

Module FrameProofs.
Import Othello Zobrist Eval Search Samples Frames.

Lemma frame_below_refl n h : frame_below n h h.
Proof. split; [lia|auto]. Qed.

Lemma frame_below_trans n h1 h2 h3 :
  (n <= next_id h1)%N -> frame_below n h1 h2 -> frame_below n h2 h3 -> frame_below n h1 h3.
Proof.
  intros Hn [H12 E12] [H23 E23]. split; [lia|]. intros i Hi. rewrite E23, E12; auto.
Qed.

Lemma Frame_ret {A} (a : A) : Frame (ret a).
Proof. intros h t a' h' t' E. injection E as <- <- <-. apply frame_below_refl. Qed.

Lemma Frame_raise {A} : Frame (@raise A).
Proof. intros h t a' h' t' E. discriminate. Qed.

Lemma Frame_lift {A} (o : option A) : Frame (lift o).
Proof. intros h t a' h' t' E. unfold lift in E. destruct o; [injection E as <- <- <-; apply frame_below_refl|discriminate]. Qed.

Lemma Frame_bind {A C} (m : M A) (k : A -> M C) :
  Frame m -> (forall a, Frame (k a)) -> Frame (Mbind m k).
Proof.
  intros Hm Hk h t c h' t' E. unfold Mbind in E.
  destruct (m h t) as [[[a h1] t1]|] eqn:E1; [|discriminate].
  pose proof (Hm _ _ _ _ _ E1) as F1. pose proof (Hk a _ _ _ _ _ E) as F2.
  destruct F1 as [L1 R1], F2 as [L2 R2]. split; [lia|]. intros i Hi. rewrite R2 by lia. auto.
Qed.

Lemma Frame_read i : Frame (read i).
Proof. intros h t a h' t' E. unfold read in E. destruct (objs h !! i); [injection E as <- <- <-; apply frame_below_refl|discriminate]. Qed.

Lemma Frame_alloc o : Frame (alloc o).
Proof.
  intros h t a h' t' E. unfold alloc in E. injection E as <- <- <-. split; simpl; [lia|].
  intros i Hi. rewrite lookup_insert_ne by lia. reflexivity.
Qed.

Lemma Frame_same_heap {A} (m : M A) :
  (forall h t a h' t', m h t = Some (a, h', t') -> h' = h) -> Frame m.
Proof. intros Hm h t a h' t' E. rewrite (Hm _ _ _ _ _ E). apply frame_below_refl. Qed.

Ltac frame_tac :=
  repeat first
    [ apply Frame_ret | apply Frame_raise | apply Frame_lift | apply Frame_read | apply Frame_alloc
    | apply Frame_bind; intros
    | match goal with |- Frame (match ?x with _ => _ end) => destruct x end
    | match goal with |- Frame (if ?b then _ else _) => destruct b end
    | apply Frame_same_heap; intros ? ? ? ? ? Hs; injection Hs; congruence ].

Lemma Frame_read_board i : Frame (read_board i).
Proof. unfold read_board. frame_tac. Qed.
Lemma Frame_read_hb i : Frame (read_hb i).
Proof. unfold read_hb. frame_tac. Qed.
Lemma Frame_read_hlv i : Frame (read_hlv i).
Proof. unfold read_hlv. frame_tac. Qed.
Lemma Frame_read_pm i : Frame (read_pm i).
Proof. unfold read_pm. frame_tac. Qed.
Lemma Frame_hlv_view i : Frame (hlv_view i).
Proof. unfold hlv_view. frame_tac; auto using Frame_read_board, Frame_read_hb, Frame_read_hlv, Frame_read_pm. Qed.
Lemma Frame_tt_get i : Frame (tt_get i).
Proof. unfold tt_get. frame_tac; auto using Frame_read_board, Frame_read_hb. Qed.
Lemma Frame_tt_set i e : Frame (tt_set i e).
Proof. unfold tt_set. frame_tac; auto using Frame_read_board, Frame_read_hb. Qed.
Lemma Frame_deepcopy i : Frame (deepcopy_hlv i).
Proof. unfold deepcopy_hlv. frame_tac; auto using Frame_read_board, Frame_read_hb, Frame_read_hlv. Qed.


Lemma Pure_bind {A C} (m : M A) (k : A -> M C) :
  Pure m -> (forall a, Pure (k a)) -> Pure (Mbind m k).
Proof.
  intros Hm Hk h t c h' t' E. unfold Mbind in E.
  destruct (m h t) as [[[a h1] t1]|] eqn:E1; [|discriminate].
  destruct (Hm _ _ _ _ _ E1) as [-> ->]. exact (Hk a _ _ _ _ _ E).
Qed.

Ltac pure_tac :=
  repeat first
    [ apply Pure_bind; intros
    | match goal with |- Pure (match ?x with _ => _ end) => destruct x end
    | intros ? ? ? ? ? Hs; unfold ret, raise, lift, read in Hs;
      repeat (match type of Hs with context [match ?x with _ => _ end] => destruct x end);
      split; congruence ].

Lemma Pure_read_hlv i : Pure (read_hlv i).
Proof. unfold read_hlv. pure_tac. Qed.
Lemma Pure_hlv_view i : Pure (hlv_view i).
Proof. unfold hlv_view, read_hlv, read_board, read_hb, read_pm. pure_tac. Qed.
Lemma Pure_read_hb i : Pure (read_hb i).
Proof. unfold read_hb. pure_tac. Qed.
Lemma Pure_lift {A} (o : option A) : Pure (lift o).
Proof. pure_tac. Qed.

Lemma read_hlv_spec i h t x h' t' :
  read_hlv i h t = Some (x, h', t') ->
  let '(bs, b, pm, T) := x in objs h !! i = Some (OHLV bs b pm T).
Proof.
  unfold read_hlv, Mbind, read. destruct (objs h !! i) as [o|]; [|discriminate].
  destruct o; simpl; try discriminate. intros Hs; injection Hs as <- _ _. reflexivity.
Qed.

Lemma deepcopy_fresh i h t nb h1 t1 :
  deepcopy_hlv i h t = Some (nb, h1, t1) ->
  (next_id h <= next_id h1)%N /\
  exists nbs nbb pm T, objs h1 !! nb = Some (OHLV nbs nbb pm T) /\
    (next_id h <= nbs)%N /\ (next_id h <= nbb)%N /\ (next_id h <= nb)%N.
Proof.
  unfold deepcopy_hlv, Mbind.
  destruct (read_hlv i h t) as [[[[[[bs b] pm] T] h2] t2]|] eqn:E1; [|discriminate].
  destruct (Pure_read_hlv _ _ _ _ _ _ E1) as [-> ->].
  destruct (read_hb bs h t) as [[[[hbb hn] h3] t3]|] eqn:E2; [|discriminate].
  destruct (Pure_read_hb _ _ _ _ _ _ E2) as [-> ->].
  unfold read_board, Mbind, read, ret, raise, alloc.
  destruct (objs h !! hbb) as [[]|]; try discriminate.
  intros Hs; injection Hs as <- <- <-. cbn [objs next_id]. split; [lia|].
  do 4 eexists. rewrite lookup_insert_eq. split; [reflexivity|]. lia.
Qed.

Lemma write_below n j o h t u h' t' :
  write j o h t = Some (u, h', t') -> (n <= j)%N -> frame_below n h h'.
Proof.
  unfold write. intros Hs Hn; injection Hs as <- <- <-. split; simpl; [lia|].
  intros i Hi. rewrite lookup_insert_ne by lia. reflexivity.
Qed.

Lemma alloc_below n o h t a h' t' :
  alloc o h t = Some (a, h', t') -> (n <= next_id h)%N -> frame_below n h h' /\ next_id h' = N.succ (next_id h).
Proof.
  unfold alloc. intros Hs Hn; injection Hs as <- <- <-. split; [split|]; simpl; [lia| |reflexivity].
  intros i Hi. rewrite lookup_insert_ne by lia. reflexivity.
Qed.

Lemma hlv_place_below n i pos c h t u h' t' :
  hlv_place i pos c h t = Some (u, h', t') ->
  (n <= next_id h)%N -> (n <= i)%N ->
  (forall bs b pm T, objs h !! i = Some (OHLV bs b pm T) -> (n <= bs)%N /\ (n <= b)%N) ->
  frame_below n h h'.
Proof.
  intros Hs Hn Hi Hids. unfold hlv_place, Mbind in Hs.
  destruct (read_hlv i h t) as [[[[[[bs b] pm] T] h2] t2]|] eqn:E1; [|discriminate].
  pose proof (read_hlv_spec _ _ _ _ _ _ E1) as Hobj; simpl in Hobj.
  destruct (Pure_read_hlv _ _ _ _ _ _ E1) as [-> ->].
  destruct (Hids _ _ _ _ Hobj) as [Hbs Hb].
  destruct (hlv_view i h t) as [[[st h3] t3]|] eqn:E2; [|discriminate].
  destruct (Pure_hlv_view _ _ _ _ _ _ E2) as [-> ->].
  destruct (lift (place st pos c) h t) as [[[st' h4] t4]|] eqn:E3; [|discriminate].
  destruct (Pure_lift _ _ _ _ _ _ E3) as [-> ->].
  destruct (read_hb bs h t) as [[[[hbb hn] h5] t5]|] eqn:E4; [|discriminate].
  destruct (Pure_read_hb _ _ _ _ _ _ E4) as [-> ->].
  destruct (write b _ h t) as [[[u1 h6] t6]|] eqn:E5; [|discriminate].
  pose proof (write_below n _ _ _ _ _ _ _ E5 Hb) as F6.
  destruct (write bs _ h6 t6) as [[[u2 h7] t7]|] eqn:E6; [|discriminate].
  pose proof (write_below n _ _ _ _ _ _ _ E6 Hbs) as F7.
  destruct (alloc _ h7 t7) as [[[pmid' h8] t8]|] eqn:E7; [|discriminate].
  assert (Hn7 : (n <= next_id h7)%N) by (destruct F6, F7; lia).
  destruct (alloc_below n _ _ _ _ _ _ E7 Hn7) as [F8 _].
  pose proof (write_below n _ _ _ _ _ _ _ Hs Hi) as F9.
  eapply frame_below_trans; [exact Hn|exact F6|].
  eapply frame_below_trans; [destruct F6; lia|exact F7|].
  eapply frame_below_trans; [exact Hn7|exact F8|exact F9].
Qed.

Lemma frame_below_mono n m h h' : (n <= m)%N -> frame_below m h h' -> frame_below n h h'.
Proof. intros Hnm [L R]. split; auto. intros i Hi. apply R. lia. Qed.

Lemma Frame_copy_place {A} (board : oid) (pos : Z * Z) (c : piece) (k : oid -> M A) :
  (forall nb, Frame (k nb)) ->
  Frame (Mbind (deepcopy_hlv board) (fun nb => Mbind (hlv_place nb pos c) (fun _ => k nb))).
Proof.
  intros Hk h t a h' t' Hs. unfold Mbind in Hs.
  destruct (deepcopy_hlv board h t) as [[[nb h1] t1]|] eqn:E1; [|discriminate].
  destruct (hlv_place nb pos c h1 t1) as [[[u h2] t2]|] eqn:E2; [|discriminate].
  pose proof (Frame_deepcopy _ _ _ _ _ _ E1) as F1.
  destruct (deepcopy_fresh _ _ _ _ _ _ E1) as (Hn1 & nbs & nbb & pm & T & Hobj & Hbs & Hbb & Hnb).
  assert (F2 : frame_below (next_id h) h1 h2).
  { apply (hlv_place_below _ _ _ _ _ _ _ _ _ E2); auto.
    intros bs' b' pm' T' Hobj'. rewrite Hobj in Hobj'. injection Hobj' as <- <- _ _. auto. }
  pose proof (Hk nb _ _ _ _ _ Hs) as F3.
  assert (Hn2 : (next_id h <= next_id h2)%N) by (destruct F2; lia).
  eapply frame_below_trans; [lia|exact F1|].
  eapply frame_below_trans; [exact Hn1|exact F2|].
  eapply frame_below_mono; [exact Hn2|exact F3].
Qed.

Lemma Frame_as_num r : Frame (as_num r).
Proof. unfold as_num. frame_tac. Qed.

Lemma Frame_store_result bs alpha beta score la action : Frame (store_result bs alpha beta score la action).
Proof. unfold store_result. frame_tac; apply Frame_tt_set. Qed.

Ltac frame_m :=
  repeat first
    [ apply Frame_ret | apply Frame_raise | apply Frame_lift
    | apply Frame_read_hlv | apply Frame_tt_get | apply Frame_hlv_view | apply Frame_as_num
    | apply Frame_store_result
    | apply Frame_copy_place; intros
    | apply Frame_bind; intros
    | match goal with |- Frame (match ?x with _ => _ end) => destruct x end
    | match goal with |- Frame (if ?b then _ else _) => destruct b end
    | solve [eauto] ].

Lemma Frame_minimax la : forall board alpha beta mp init, Frame (minimax board alpha beta mp init la).
Proof.
  induction la as [|la IH]; intros board alpha beta mp init.
  - cbn [minimax]. frame_m.
  - cbn [minimax]. apply Frame_bind; [apply Frame_read_hlv|]. intros [[[bs ?] ?] ?].
    apply Frame_bind; [apply Frame_tt_get|]. intros search.
    destruct (tt_probe _ _ _ _); [frame_m|].
    apply Frame_bind; [apply Frame_hlv_view|]. intros st.
    destruct (check_if_terminal st); [frame_m|].
    apply Frame_bind; [|intros [score action]; frame_m].
    destruct mp;
      match goal with |- Frame (?F _ _ _ _) =>
        assert (HL : forall ms0 a1 s1 ac1, Frame (F ms0 a1 s1 ac1)); [|apply HL] end;
      intros ms; induction ms as [|m rest IHms]; intros a0 s0 ac0; cbv beta fix match; frame_m.
Qed.


Lemma hlv_view_frame i h t st h' t' :
  hlv_view i h t = Some (st, h, t) ->
  (forall (j : oid) o, objs h !! j = Some o -> objs h' !! j = Some o) ->
  hlv_view i h' t' = Some (st, h', t').
Proof.
  unfold hlv_view, read_hlv, read_board, read_hb, read_pm, Mbind, read, ret, raise. intros Hv Hs.
  cbn beta iota zeta in Hv |- *.
  repeat match type of Hv with context [@lookup _ _ _ _ ?j (objs h)] =>
    let E := fresh "E" in
    destruct (objs h !! j) as [[]|] eqn:E; cbn beta iota zeta in Hv; try discriminate;
    rewrite (Hs _ _ E); cbn beta iota zeta end.
  injection Hv as Hst. rewrite Hst. reflexivity.
Qed.

(** C10: a call of [minimax] on a [HashedLocalVersus] leaves it as it
    was: its board, its [board_state.hash_num] and its [possible_moves]
    dict (and its table) read the same after the search.  Each expansion
    works on a [deepcopy], whose board and [HashedBoard] are new objects;
    [place] writes only those and binds a new [possible_moves] dict. *)
Theorem minimax_preserves_root (root : oid) (alpha beta : float) (mp init : bool) (la : nat)
    (h : heap) (t : ttable) (r : mm_ret) (h' : heap) (t' : ttable) (st : hstate) :
  heap_closed h -> hlv_view root h t = Some (st, h, t) ->
  minimax root alpha beta mp init la h t = Some (r, h', t') ->
  hlv_view root h' t' = Some (st, h', t').
Proof.
  intros Hc Hv Hm. destruct (Frame_minimax la root alpha beta mp init _ _ _ _ _ Hm) as [_ Hf].
  apply (hlv_view_frame _ _ _ _ _ _ Hv). intros j o Hj. rewrite Hf; [exact Hj|]. exact (Hc _ _ Hj).
Qed.

Lemma minimax_preserves_root_witness :
  heap_closed (root_heap start_board) /\
  hlv_view 3%N (root_heap start_board) [] = Some (state_of start_board, root_heap start_board, []) /\
  match minimax 3%N neg_infinity infinity true true 2 (root_heap start_board) [] with
  | Some (r, h', t') => hlv_view 3%N h' t' = Some (state_of start_board, h', t')
  | None => False
  end.
Proof.
  assert (Hc : heap_closed (root_heap start_board)).
  { intros i o H. unfold root_heap in H; cbn [objs] in H.
    repeat (apply lookup_insert_Some in H; destruct H as [[<- _]|[_ H]]; [cbn; lia|]).
    rewrite lookup_empty in H. discriminate. }
  assert (Hv : hlv_view 3%N (root_heap start_board) [] = Some (state_of start_board, root_heap start_board, []))
    by (vm_compute; reflexivity).
  split; [exact Hc|]. split; [exact Hv|].
  destruct (minimax 3%N neg_infinity infinity true true 2 (root_heap start_board) []) as [[[r h'] t']|] eqn:Hm.
  - exact (minimax_preserves_root 3%N neg_infinity infinity true true 2 _ _ r h' t' _ Hc Hv Hm).
  - vm_compute in Hm. discriminate.
Defined.

End FrameProofs.

(** * Further properties of the code *)

Module BoardExtra.
Import ProofDefs Othello Zobrist Eval BoardFacts XorFacts EvalProofs PmFacts.


Lemma fold_count_total (g : grid) (f : Z -> piece) (l : list Z) (cnt : counts) :
  total (fold_left (fun cnt y => count_add cnt (f y)) l cnt) = total cnt + Z.of_nat (length l).
Proof.
  revert cnt; induction l as [|a t IH]; intros cnt; simpl; [lia|].
  rewrite IH. destruct (f a); unfold total; simpl; lia.
Qed.

(** [count_pieces] counts 64 cells whatever the board: its three counts
    always add up to 64. *)
Theorem count_pieces_total (g : grid) :
  cW (count_pieces g) + cB (count_pieces g) + cE (count_pieces g) = 64.
Proof.
  change (total (count_pieces g) = 64). unfold count_pieces.
  assert (H : forall l cnt, total (fold_left (fun cnt x =>
             fold_left (fun cnt y => count_add cnt (get g y x)) (zrange BOARD_SIZE) cnt) l cnt)
           = total cnt + 8 * Z.of_nat (length l)).
  { induction l as [|a t IH]; intros cnt; cbn [fold_left length]; [lia|].
    rewrite IH, (fold_count_total g (fun y => get g y a)).
    change (length (zrange BOARD_SIZE)) with 8%nat. lia. }
  rewrite H. reflexivity.
Qed.

Lemma upd_upd {A} (i : nat) (v v' : A) (l : list A) : upd i v (upd i v' l) = upd i v l.
Proof. revert i; induction l as [|h t IH]; intros [|i]; simpl; f_equal; auto. Qed.

Lemma upd_nth {A} (i : nat) (d : A) (l : list A) : (i < length l)%nat -> upd i (nth i l d) l = l.
Proof.
  revert i; induction l as [|h t IH]; intros [|i] Hi; simpl in *; try lia; auto.
  f_equal. apply IH. lia.
Qed.

Lemma set_set (g : grid) (x y : Z) (a b : piece) :
  wf g -> in_range x y -> set (set g x y a) x y b = set g x y b.
Proof.
  intros Hwf [Hx Hy]. unfold set.
  rewrite nth_upd_eq by (destruct Hwf as [-> _]; lia).
  rewrite upd_upd, upd_upd. reflexivity.
Qed.

Lemma set_get (g : grid) (x y : Z) : wf g -> in_range x y -> set g x y (get g x y) = g.
Proof.
  intros Hwf [Hx Hy]. unfold set, get.
  rewrite upd_nth by (rewrite wf_row by (auto; lia); lia).
  apply upd_nth. destruct Hwf as [-> _]. lia.
Qed.

Lemma FLIP_RULE_involutive (c : piece) : FLIP_RULE (FLIP_RULE c) = c.
Proof. destruct c; reflexivity. Qed.

(** [HashedLocalVersus.flip] undoes itself: flipping the same in-range
    cell twice gives back the board and the hash it started from. *)
Theorem hashed_flip_involutive (st : hstate) (x y : Z) :
  wf (hs_board st) -> in_range x y -> flip (flip st (x, y)) (x, y) = st.
Proof.
  intros Hwf Hr. destruct st as [g h pm T]. unfold flip; simpl in *.
  rewrite get_set by auto. destruct (decide ((x, y) = (x, y))) as [_|Hn]; [|congruence].
  rewrite set_set by auto. rewrite FLIP_RULE_involutive, set_get by auto.
  f_equal. xor_solve.
Qed.

Lemma hashed_flip_witness_helper : wf start_board.
Proof. vm_compute. split; [reflexivity | repeat constructor]. Qed.

Lemma hashed_flip_involutive_witness :
  wf (hs_board (Samples.state_of start_board)) /\ in_range 3 4 /\
  flip (flip (Samples.state_of start_board) (3, 4)) (3, 4) = Samples.state_of start_board.
Proof.
  assert (Hw : wf (hs_board (Samples.state_of start_board))) by exact hashed_flip_witness_helper.
  assert (Hr : in_range 3 4) by (unfold in_range; lia).
  split; [exact Hw|]. split; [exact Hr|].
  exact (hashed_flip_involutive _ 3 4 Hw Hr).
Defined.

Lemma flips_board (cells : list (Z * Z * (Z * Z))) (st : hstate) :
  hs_board (fold_left (fun st '(x, y, _) => flip st (x, y)) cells st)
  = fold_left (fun g '(x, y, _) => oflip g (x, y)) cells (hs_board st).
Proof.
  revert st; induction cells as [|[[x y] d] t IH]; intros st; simpl; auto.
Qed.

Lemma flip_line_board (st : hstate) (pos : Z * Z) (c : piece) (dirs : list (Z * Z)) :
  hs_board (flip_line st pos c dirs) = oflip_line (hs_board st) pos c dirs.
Proof.
  unfold flip_line, oflip_line. revert st; induction dirs as [|d t IH]; intros st; simpl; auto.
  rewrite IH. f_equal. destruct (line_scan (hs_board st) pos c d); auto.
  apply flips_board.
Qed.

(** [HashedLocalVersus.place] changes the board and the legal moves as
    [Othello.place] does, and raises exactly when it raises: the hash
    bookkeeping of the overridden [place] and [flip] does not change the
    game. *)
Theorem hashed_place_refines (st : hstate) (pos : Z * Z) (c : piece) :
  option_map (fun st' => (hs_board st', hs_pm st')) (place st pos c)
  = oplace (hs_board st) (hs_pm st) pos c.
Proof.
  destruct pos as [x y]. unfold place, oplace.
  destruct (pm_get (hs_pm st) c); [|reflexivity].
  destruct (dict_get _ (x, y)); [|reflexivity]. simpl.
  rewrite flip_line_board. reflexivity.
Qed.

(** [AI.terminal_utility] is 0 on a draw, positive exactly when White has
    more discs, and otherwise 85 plus the disc margin in absolute value. *)
Theorem terminal_utility_sign (st : hstate) :
  let w := cW (count_pieces (hs_board st)) in
  let b := cB (count_pieces (hs_board st)) in
  (terminal_utility st = 0 <-> w = b) /\
  (0 < terminal_utility st <-> b < w) /\
  (w <> b -> Z.abs (terminal_utility st) = 85 + Z.abs (w - b)).
Proof.
  intros w b. pose proof (terminal_utility_margin st) as H. cbv zeta in H. fold w b in H.
  rewrite H. clear H. clearbody w b.
  repeat destruct (decide _); split_and!; intros; lia.
Qed.

End BoardExtra.

Module SearchExtra.
Import ProofDefs Othello Zobrist Eval Search Aging.

Lemma key_matches_self (h : heap) (q : oid) (hq : Z) (gq : grid) : key_matches h q hq q hq gq = true.
Proof. unfold key_matches. rewrite !bool_decide_eq_true_2 by reflexivity. reflexivity. Qed.

Lemma tt_lookup_store (h : heap) (t : ttable) (q : oid) (hq : Z) (gq : grid) (e : tt_entry) :
  tt_lookup h (tt_store h t q hq gq e) q hq gq = Some e.
Proof.
  induction t as [|[[k hk] e'] rest IH]; simpl.
  - rewrite key_matches_self. reflexivity.
  - destruct (key_matches h k hk q hq gq) eqn:Hk; simpl; rewrite Hk; auto.
Qed.

Lemma tt_set_spec (bs : oid) (e : tt_entry) (h : heap) (t : ttable) (u : unit) (h' : heap) (t' : ttable) :
  tt_set bs e h t = Some (u, h', t') ->
  exists b hn g, objs h !! bs = Some (OHashedBoard b hn) /\ objs h !! b = Some (OBoard g) /\
                 h' = h /\ t' = tt_store h t bs hn g e.
Proof.
  unfold tt_set, read_hb, read_board, Mbind, read, ret, raise.
  destruct (objs h !! bs) as [[| b hn | | ]|] eqn:Hbs; try discriminate.
  destruct (objs h !! b) as [[g| | | ]|] eqn:Hb; try discriminate.
  intros Hs; injection Hs as <- <- <-. eauto 10.
Qed.

Lemma tt_get_spec (bs : oid) (b : oid) (hn : Z) (g : grid) (h : heap) (t : ttable) :
  objs h !! bs = Some (OHashedBoard b hn) -> objs h !! b = Some (OBoard g) ->
  tt_get bs h t = Some (tt_lookup h t bs hn g, h, t).
Proof.
  intros Hbs Hb. unfold tt_get, read_hb, read_board, Mbind, read, ret.
  rewrite Hbs, Hb. reflexivity.
Qed.

(** [searched_moves[board_state] = e] followed by
    [searched_moves.get(board_state)] returns [e]: the dict keyed by
    [HashedBoard] objects ([__hash__] is [hash_num], [__eq__] compares
    boards) gives back what was stored. *)
Theorem tt_set_get (bs : oid) (e : tt_entry) (h : heap) (t : ttable) (u : unit) (h' : heap) (t' : ttable) :
  tt_set bs e h t = Some (u, h', t') -> tt_get bs h' t' = Some (Some e, h', t').
Proof.
  intros Hs. destruct (tt_set_spec _ _ _ _ _ _ _ Hs) as (b & hn & g & Hbs & Hb & -> & ->).
  rewrite (tt_get_spec bs b hn g) by auto. rewrite tt_lookup_store. reflexivity.
Qed.

Lemma tt_set_get_witness :
  match tt_set 1%N (mk_entry (fz 3) 1 2 (2, 3)) (Samples.root_heap start_board) [] with
  | Some (u, h', t') => tt_get 1%N h' t' = Some (Some (mk_entry (fz 3) 1 2 (2, 3)), h', t')
  | None => False
  end.
Proof.
  destruct (tt_set 1%N (mk_entry (fz 3) 1 2 (2, 3)) (Samples.root_heap start_board) [])
    as [[[u h'] t']|] eqn:Hs.
  - exact (tt_set_get _ _ _ _ u h' t' Hs).
  - vm_compute in Hs. discriminate.
Defined.

Lemma key_matches_transpose (h : heap) (k : oid) (hk : Z) (bs1 bs2 b1 b2 : oid) (hn : Z) (g : grid) :
  objs h !! bs1 = Some (OHashedBoard b1 hn) -> objs h !! bs2 = Some (OHashedBoard b2 hn) ->
  objs h !! b1 = Some (OBoard g) -> objs h !! b2 = Some (OBoard g) ->
  key_matches h k hk bs1 hn g = key_matches h k hk bs2 hn g.
Proof.
  intros H1 H2 Hb1 Hb2. unfold key_matches.
  destruct (bool_decide (hk = hn)); simpl; [|reflexivity].
  destruct (decide (k = bs1)) as [->|Hk1].
  - rewrite bool_decide_eq_true_2 by reflexivity. rewrite H1, Hb1.
    rewrite (bool_decide_eq_true_2 (g = g)) by reflexivity. rewrite !orb_true_r. reflexivity.
  - destruct (decide (k = bs2)) as [->|Hk2].
    + rewrite (bool_decide_eq_true_2 (bs2 = bs2)) by reflexivity. rewrite H2, Hb2.
      rewrite (bool_decide_eq_true_2 (g = g)) by reflexivity. rewrite !orb_true_r. reflexivity.
    + rewrite !bool_decide_eq_false_2 by auto. reflexivity.
Qed.

Lemma tt_lookup_transpose (h : heap) (t : ttable) (bs1 bs2 b1 b2 : oid) (hn : Z) (g : grid) :
  objs h !! bs1 = Some (OHashedBoard b1 hn) -> objs h !! bs2 = Some (OHashedBoard b2 hn) ->
  objs h !! b1 = Some (OBoard g) -> objs h !! b2 = Some (OBoard g) ->
  tt_lookup h t bs1 hn g = tt_lookup h t bs2 hn g.
Proof.
  intros H1 H2 Hb1 Hb2. induction t as [|[[k hk] e] rest IH]; simpl; auto.
  rewrite (key_matches_transpose h k hk bs1 bs2 b1 b2 hn g) by auto.
  destruct (key_matches h k hk bs2 hn g); auto.
Qed.

(** A transposition: an entry stored under one [HashedBoard] is found
    from any other [HashedBoard] object with the same [hash_num] and an
    equal board, as when two move orders reach the same position. *)
Theorem tt_transposition (bs1 bs2 b1 b2 : oid) (hn : Z) (g : grid) (e : tt_entry)
    (h : heap) (t : ttable) (u : unit) (h' : heap) (t' : ttable) :
  objs h !! bs1 = Some (OHashedBoard b1 hn) -> objs h !! bs2 = Some (OHashedBoard b2 hn) ->
  objs h !! b1 = Some (OBoard g) -> objs h !! b2 = Some (OBoard g) ->
  tt_set bs1 e h t = Some (u, h', t') -> tt_get bs2 h' t' = Some (Some e, h', t').
Proof.
  intros H1 H2 Hb1 Hb2 Hs. destruct (tt_set_spec _ _ _ _ _ _ _ Hs) as (b & hn' & g' & Hbs & Hb & -> & ->).
  rewrite H1 in Hbs. injection Hbs as <- <-. rewrite Hb1 in Hb. injection Hb as <-.
  rewrite (tt_get_spec bs2 b2 hn g) by auto.
  rewrite <- (tt_lookup_transpose h _ bs1 bs2 b1 b2 hn g) by auto.
  rewrite tt_lookup_store. reflexivity.
Qed.


Lemma tt_transposition_witness :
  objs transposed_heap !! 1%N = Some (OHashedBoard 0%N 77) /\
  objs transposed_heap !! 5%N = Some (OHashedBoard 4%N 77) /\
  objs transposed_heap !! 0%N = Some (OBoard start_board) /\
  objs transposed_heap !! 4%N = Some (OBoard start_board) /\
  match tt_set 1%N (mk_entry (fz 3) 1 2 (2, 3)) transposed_heap [] with
  | Some (u, h', t') => tt_get 5%N h' t' = Some (Some (mk_entry (fz 3) 1 2 (2, 3)), h', t')
  | None => False
  end.
Proof.
  assert (H1 : objs transposed_heap !! 1%N = Some (OHashedBoard 0%N 77)) by reflexivity.
  assert (H2 : objs transposed_heap !! 5%N = Some (OHashedBoard 4%N 77)) by reflexivity.
  assert (H3 : objs transposed_heap !! 0%N = Some (OBoard start_board)) by reflexivity.
  assert (H4 : objs transposed_heap !! 4%N = Some (OBoard start_board)) by reflexivity.
  split; [exact H1|]. split; [exact H2|]. split; [exact H3|]. split; [exact H4|].
  destruct (tt_set 1%N (mk_entry (fz 3) 1 2 (2, 3)) transposed_heap []) as [[[u h'] t']|] eqn:Hs.
  - exact (tt_transposition 1%N 5%N 0%N 4%N 77 start_board _ _ _ u h' t' H1 H2 H3 H4 Hs).
  - vm_compute in Hs. discriminate.
Defined.

(** The table aging of [AI.ai_play]: an entry survives exactly when its
    depth is at least 3, and a survivor answers a probe at lookahead [la]
    exactly as the entry did at lookahead [la + 2]. *)
Theorem tt_age_shift (t : ttable) :
  (forall k hk e', In (k, hk, e') (tt_age t) <->
     exists e, In (k, hk, e) t /\ (3 <= e_depth e)%nat /\ e' = age_entry e) /\
  (forall e la alpha beta, (3 <= e_depth e)%nat ->
     tt_probe (Some (age_entry e)) la alpha beta = tt_probe (Some e) (la + 2) alpha beta).
Proof.
  split.
  - intros k hk e'. unfold tt_age. rewrite in_map_iff. split.
    + intros ([[k0 hk0] e0] & Heq & Hin). injection Heq as <- <- <-.
      apply filter_In in Hin as [Hin Hd]. apply Nat.leb_le in Hd. eauto.
    + intros (e & Hin & Hd & ->). exists (k, hk, e). split; [reflexivity|].
      apply filter_In. split; auto. apply Nat.leb_le. exact Hd.
  - intros e la alpha beta Hd. unfold tt_probe, age_entry; simpl.
    destruct (decide (la <= e_depth e - 2)%nat), (decide (la + 2 <= e_depth e)%nat); try lia;
      reflexivity.
Qed.

Lemma filter_split_perm (f : Z * Z -> bool) (l : list (Z * Z)) :
  Permutation (filter (fun x => negb (f x)) l ++ filter f l) l.
Proof.
  induction l as [|x t IH]; [reflexivity|].
  rewrite !filter_cons. destruct (f x) eqn:Hf; repeat case_decide; simpl in *; try tauto.
  - rewrite <- Permutation_middle. constructor. exact IH.
  - constructor. exact IH.
Qed.

Lemma filter_hint_head (m : Z * Z) (l r : list (Z * Z)) :
  In m l -> hd_error (filter (fun x => negb (differs (Some m) x)) l ++ r) = Some m.
Proof.
  induction l as [|x t IH]; [contradiction|]. intros Hin.
  destruct (decide (x = m)) as [->|Hne].
  - assert (Hd : differs (Some m) m = false)
      by (unfold differs; apply bool_decide_eq_false_2; tauto).
    rewrite filter_cons, Hd. case_decide; simpl in *; [reflexivity|tauto].
  - assert (Hd : differs (Some m) x = true)
      by (unfold differs; apply bool_decide_eq_true_2; exact Hne).
    rewrite filter_cons, Hd. case_decide; simpl in *; [tauto|].
    destruct Hin as [->|Hin]; [congruence|]. exact (IH Hin).
Qed.

(** [sorted(moves, key=lambda x: x != check_move_first)] reorders the
    moves without losing or adding any, and puts [check_move_first] first
    when it is one of them. *)
Theorem order_moves_perm (check_move_first : option (Z * Z)) (moves : list (Z * Z)) :
  Permutation (order_moves check_move_first moves) moves /\
  forall m, check_move_first = Some m -> In m moves -> hd_error (order_moves check_move_first moves) = Some m.
Proof.
  split.
  - apply filter_split_perm.
  - intros m -> Hin. apply filter_hint_head. exact Hin.
Qed.

End SearchExtra.

Module StrExtra.
Import Othello Input PyStr ProofDefs.


Lemma append_cons (ch : ascii) (a b : string) : String.append (String ch a) b = String ch (String.append a b).
Proof. reflexivity. Qed.

Lemma append_nil (b : string) : String.append EmptyString b = b.
Proof. reflexivity. Qed.

Lemma app_assoc_str (a b c : string) : String.append (String.append a b) c = String.append a (String.append b c).
Proof. induction a as [|ch a IH]; [reflexivity|]. rewrite !append_cons, IH. reflexivity. Qed.

Lemma str_all_app (f : ascii -> bool) (a b : string) :
  str_all f (String.append a b) = str_all f a && str_all f b.
Proof. induction a as [|ch a IH]; [reflexivity|]. rewrite append_cons. simpl. rewrite IH. apply andb_assoc. Qed.

Lemma digit_char (d : nat) : (d < 10)%nat ->
  let ch := ascii_of_nat (48 + d) in
  is_digit ch = true /\ digit_val ch = Z.of_nat d.
Proof.
  intros Hd.
  do 10 (destruct d as [|d]; [vm_compute; split; reflexivity|]). lia.
Qed.

Lemma digit_not (ch : ascii) : is_digit ch = true ->
  is_space ch = false /\ Ascii.eqb ch "_"%char = false /\ Ascii.eqb ch "-"%char = false /\
  Ascii.eqb ch "+"%char = false /\ Ascii.eqb ch ","%char = false /\
  Ascii.eqb ch "010"%char = false /\ Ascii.eqb ch "013"%char = false.
Proof.
  unfold is_digit, is_space. intros H. apply andb_true_iff in H as [H1 H2].
  apply Nat.leb_le in H1. apply Nat.leb_le in H2.
  assert (Hne : forall c, (nat_of_ascii c < 48 \/ 57 < nat_of_ascii c)%nat -> Ascii.eqb ch c = false).
  { intros c Hc. destruct (Ascii.eqb_spec ch c) as [->|]; [lia|reflexivity]. }
  repeat split; try (apply Hne; vm_compute; lia).
  repeat (apply orb_false_iff; split); apply Nat.leb_gt || apply Nat.eqb_neq || idtac;
    try lia; apply andb_false_iff; (left; apply Nat.leb_gt; lia) || (right; apply Nat.leb_gt; lia).
Qed.

Lemma digits_of_parse (fuel : nat) (n acc : Z) (ld : bool) (rest : string) :
  0 <= n < 10 ^ Z.of_nat fuel -> (1 <= fuel)%nat ->
  str_all is_digit (digits_of fuel n) = true /\ digits_of fuel n <> EmptyString /\
  exists k : nat, parse_digits (String.append (digits_of fuel n) rest) acc ld =
            parse_digits rest (acc * 10 ^ Z.of_nat k + n) true.
Proof.
  revert n acc ld rest. induction fuel as [|f IH]; intros n acc ld rest Hn Hf; [lia|].
  assert (Hm : (Z.to_nat (n mod 10) < 10)%nat) by (apply Nat2Z.inj_lt; rewrite Z2Nat.id; simpl; Z.to_euclidean_division_equations; lia).
  destruct (digit_char _ Hm) as [Hdig Hval].
  set (ch := ascii_of_nat (48 + Z.to_nat (n mod 10))) in *.
  destruct (digit_not ch Hdig) as (_ & Hu & _).
  assert (Hval' : digit_val ch = n mod 10) by (rewrite Hval; apply Z2Nat.id; Z.to_euclidean_division_equations; lia).
  cbn [digits_of]. fold ch.
  destruct (n <? 10) eqn:Hlt.
  - apply Z.ltb_lt in Hlt. rewrite !append_nil, !append_cons, !append_nil.
    cbn [str_all parse_digits]. rewrite Hdig, Hu. repeat split; [discriminate|].
    exists 1%nat. rewrite Hval'. f_equal. rewrite Z.mod_small by lia. lia.
  - apply Z.ltb_ge in Hlt.
    assert (Hf' : (1 <= f)%nat).
    { destruct f; [|lia]. simpl in Hn. lia. }
    assert (Hq : 0 <= n / 10 < 10 ^ Z.of_nat f).
    { rewrite Nat2Z.inj_succ, Z.pow_succ_r in Hn by lia. Z.to_euclidean_division_equations; lia. }
    destruct (IH (n / 10) acc ld (String ch rest) Hq Hf') as (Ha & Hne & k & Hk).
    split; [rewrite str_all_app; cbn [str_all]; rewrite Ha, Hdig; reflexivity|].
    split; [destruct (digits_of f (n / 10)); [congruence|discriminate]|].
    exists (S k). rewrite app_assoc_str, append_cons, append_nil, Hk.
    cbn [parse_digits]. rewrite Hdig, Hu, Hval'.
    f_equal. rewrite Nat2Z.inj_succ, Z.pow_succ_r by lia. Z.to_euclidean_division_equations; nia.
Qed.

Lemma append_nil_r (a : string) : String.append a EmptyString = a.
Proof. induction a as [|ch a IH]; [reflexivity|]. rewrite append_cons, IH. reflexivity. Qed.

Lemma str_all_impl (f g : ascii -> bool) (s : string) :
  (forall c, f c = true -> g c = true) -> str_all f s = true -> str_all g s = true.
Proof.
  intros Hfg. induction s as [|ch s IH]; [reflexivity|]. cbn [str_all].
  intros H. apply andb_true_iff in H as [H1 H2]. rewrite (Hfg ch H1), (IH H2). reflexivity.
Qed.

Lemma digits_fuel (n : Z) : 0 <= n -> 0 <= n < 10 ^ Z.of_nat (S (Z.to_nat (Z.log2 n))).
Proof.
  intros Hn. split; [exact Hn|].
  rewrite Nat2Z.inj_succ, Z2Nat.id by apply Z.log2_nonneg.
  destruct (Z.eq_dec n 0) as [->|Hn0]; [reflexivity|].
  apply Z.lt_le_trans with (2 ^ Z.succ (Z.log2 n)).
  - apply Z.log2_spec. lia.
  - apply Z.pow_le_mono_l. lia.
Qed.

(** The text of [str(z)]: a sign for negatives, then a non-empty run of
    digits that [parse_digits] reads back as [|z|]. *)
Lemma py_str_int_shape (z : Z) :
  exists d, py_str_int z = (if z <? 0 then String "-"%char d else d) /\
    str_all is_digit d = true /\ d <> EmptyString /\
    forall rest acc ld, exists k : nat,
      parse_digits (String.append d rest) acc ld = parse_digits rest (acc * 10 ^ Z.of_nat k + Z.abs z) true.
Proof.
  unfold py_str_int. destruct (z <? 0) eqn:Hz.
  - apply Z.ltb_lt in Hz. exists (digits_of (S (Z.to_nat (Z.log2 (- z)))) (- z)).
    split; [reflexivity|].
    destruct (digits_of_parse (S (Z.to_nat (Z.log2 (- z)))) (- z) 0 false EmptyString
                (digits_fuel (- z) ltac:(lia)) ltac:(lia)) as (Ha & Hne & _).
    split; [exact Ha|]. split; [exact Hne|]. intros rest acc ld.
    destruct (digits_of_parse (S (Z.to_nat (Z.log2 (- z)))) (- z) acc ld rest
                (digits_fuel (- z) ltac:(lia)) ltac:(lia)) as (_ & _ & k & Hk).
    exists k. rewrite Hk. do 2 f_equal. lia.
  - apply Z.ltb_ge in Hz. exists (digits_of (S (Z.to_nat (Z.log2 z))) z).
    split; [reflexivity|].
    destruct (digits_of_parse (S (Z.to_nat (Z.log2 z))) z 0 false EmptyString
                (digits_fuel z Hz) ltac:(lia)) as (Ha & Hne & _).
    split; [exact Ha|]. split; [exact Hne|]. intros rest acc ld.
    destruct (digits_of_parse (S (Z.to_nat (Z.log2 z))) z acc ld rest
                (digits_fuel z Hz) ltac:(lia)) as (_ & _ & k & Hk).
    exists k. rewrite Hk. do 2 f_equal. lia.
Qed.


Lemma py_str_int_chars (z : Z) : str_all int_char (py_str_int z) = true.
Proof.
  destruct (py_str_int_shape z) as (d & -> & Hd & _).
  assert (Hs : str_all int_char d = true).
  { apply (str_all_impl is_digit); [|exact Hd]. intros c Hc. unfold int_char. rewrite Hc. reflexivity. }
  destruct (z <? 0); [|exact Hs]. cbn [str_all]. rewrite Hs, andb_true_r. reflexivity.
Qed.

Lemma int_char_not (c : ascii) : int_char c = true ->
  is_space c = false /\ Ascii.eqb c ","%char = false /\ Ascii.eqb c "010"%char = false /\
  Ascii.eqb c "013"%char = false.
Proof.
  unfold int_char. intros H. apply orb_true_iff in H as [H|H].
  - destruct (digit_not c H) as (? & _ & _ & _ & ? & ? & ?). auto.
  - apply Ascii.eqb_eq in H as ->. repeat split; reflexivity.
Qed.

Lemma strip_right_app (s w : string) :
  str_all (fun c => negb (is_space c)) s = true ->
  strip_right (String.append s w) = String.append s (strip_right w).
Proof.
  induction s as [|ch s IH]; [reflexivity|]. cbn [str_all].
  intros H. apply andb_true_iff in H as [H1 H2]. apply negb_true_iff in H1.
  rewrite !append_cons. cbn [strip_right]. rewrite (IH H2).
  destruct (String.append s (strip_right w)); [rewrite H1|]; reflexivity.
Qed.

Lemma int_nonspace (s : string) : str_all int_char s = true -> str_all (fun c => negb (is_space c)) s = true.
Proof.
  apply str_all_impl. intros c Hc. destruct (int_char_not c Hc) as (-> & _). reflexivity.
Qed.

(** [int(str(z) + w)] is [z] when [w] is only whitespace. *)
Lemma py_int_of_str_int (z : Z) (w : string) :
  strip_right w = EmptyString -> py_int_of_str (String.append (py_str_int z) w) = Some z.
Proof.
  intros Hw. unfold py_int_of_str.
  assert (Hl : strip_left (String.append (py_str_int z) w) = String.append (py_str_int z) w).
  { pose proof (py_str_int_chars z) as Hc.
    destruct (py_str_int_shape z) as (d & Hd & _ & Hne & _).
    destruct (py_str_int z) as [|ch t]; [destruct (z <? 0); [discriminate|congruence]|].
    rewrite append_cons. cbn [str_all] in Hc. apply andb_true_iff in Hc as [Hc _].
    destruct (int_char_not ch Hc) as (Hs & _). cbn [strip_left]. rewrite Hs. reflexivity. }
  rewrite Hl, (strip_right_app _ _ (int_nonspace _ (py_str_int_chars z))), Hw, append_nil_r.
  destruct (py_str_int_shape z) as (d & Hd & Hdig & Hne & Hparse). rewrite Hd.
  destruct (z <? 0) eqn:Hz.
  - apply Z.ltb_lt in Hz. cbn. rewrite <- (append_nil_r d).
    destruct (Hparse EmptyString 0 false) as (k & ->). cbn. f_equal. lia.
  - apply Z.ltb_ge in Hz. destruct d as [|ch t]; [congruence|].
    cbn [str_all] in Hdig. apply andb_true_iff in Hdig as [Hch _].
    destruct (digit_not ch Hch) as (_ & _ & Hm & Hp & _). rewrite Hm, Hp.
    rewrite <- (append_nil_r (String ch t)).
    destruct (Hparse EmptyString 0 false) as (k & ->). cbn. f_equal. lia.
Qed.

Lemma split_on_app (sep : ascii) (a b : string) :
  str_all (fun c => negb (Ascii.eqb c sep)) a = true ->
  split_on sep (String.append a (String sep b)) = a :: split_on sep b.
Proof.
  induction a as [|ch a IH]; intros H.
  - rewrite append_nil. cbn [split_on]. rewrite Ascii.eqb_refl. reflexivity.
  - cbn [str_all] in H. apply andb_true_iff in H as [H1 H2]. apply negb_true_iff in H1.
    rewrite append_cons. cbn [split_on]. rewrite H1, (IH H2). reflexivity.
Qed.

Lemma split_on_none (sep : ascii) (a : string) :
  str_all (fun c => negb (Ascii.eqb c sep)) a = true -> split_on sep a = [a].
Proof.
  induction a as [|ch a IH]; intros H; [reflexivity|].
  cbn [str_all] in H. apply andb_true_iff in H as [H1 H2]. apply negb_true_iff in H1.
  cbn [split_on]. rewrite H1, (IH H2). reflexivity.
Qed.


Lemma save_line_get_pos (pos : Z * Z) : get_pos (save_line pos) = Ok pos.
Proof.
  destruct pos as [x y]. unfold get_pos, save_line. cbn [fst snd].
  assert (Hx : str_all (fun c => negb (Ascii.eqb c ","%char)) (py_str_int x) = true).
  { apply (str_all_impl int_char); [|apply py_str_int_chars].
    intros c Hc. destruct (int_char_not c Hc) as (_ & -> & _). reflexivity. }
  assert (Hy : str_all (fun c => negb (Ascii.eqb c ","%char)) (String.append (py_str_int y) nl) = true).
  { rewrite str_all_app. apply andb_true_iff. split; [|reflexivity].
    apply (str_all_impl int_char); [|apply py_str_int_chars].
    intros c Hc. destruct (int_char_not c Hc) as (_ & -> & _). reflexivity. }
  fold nl. rewrite (split_on_app _ _ _ Hx), (split_on_none _ _ Hy).
  unfold normalize, bind, py_index, py_int. cbn [map nth_error].
  rewrite <- (append_nil_r (py_str_int x)) at 1.
  rewrite !py_int_of_str_int by reflexivity. reflexivity.
Qed.


Lemma save_line_shape (pos : Z * Z) :
  exists a, save_line pos = String.append a nl /\ str_all line_char a = true.
Proof.
  destruct pos as [x y]. unfold save_line. cbn [fst snd].
  exists (String.append (py_str_int x) (String ","%char (py_str_int y))). split.
  - rewrite app_assoc_str, append_cons. reflexivity.
  - assert (Hl : forall z, str_all line_char (py_str_int z) = true).
    { intros z. apply (str_all_impl int_char); [|apply py_str_int_chars].
      intros c Hc. unfold line_char. destruct (int_char_not c Hc) as (_ & _ & -> & ->). reflexivity. }
    rewrite str_all_app. cbn [str_all]. rewrite !Hl. reflexivity.
Qed.

Lemma universal_newlines_id (s : string) :
  str_all (fun c => negb (Ascii.eqb c "013"%char)) s = true -> universal_newlines s = s.
Proof.
  induction s as [|ch s IH]; intros H; [reflexivity|].
  cbn [str_all] in H. apply andb_true_iff in H as [H1 H2]. apply negb_true_iff in H1.
  cbn [universal_newlines]. rewrite H1, (IH H2). reflexivity.
Qed.

Lemma split_lines_app (a b : string) :
  str_all line_char a = true ->
  split_lines (String.append a (String "010"%char b)) = String.append a nl :: split_lines b.
Proof.
  induction a as [|ch a IH]; intros H; [reflexivity|].
  cbn [str_all] in H. unfold line_char at 1 in H.
  apply andb_true_iff in H as [H1 H2]. apply andb_true_iff in H1 as [H1 _]. apply negb_true_iff in H1.
  rewrite !append_cons. cbn [split_lines]. rewrite H1, (IH H2). reflexivity.
Qed.

Lemma save_file_no_cr (ps : list (Z * Z)) :
  str_all (fun c => negb (Ascii.eqb c "013"%char)) (save_file ps) = true.
Proof.
  induction ps as [|p ps IH]; [reflexivity|]. cbn [save_file].
  destruct (save_line_shape p) as (a & -> & Ha).
  rewrite !str_all_app, IH. cbn [str_all].
  rewrite (str_all_impl line_char _ a); [reflexivity| |exact Ha].
  intros c Hc. unfold line_char in Hc. apply andb_true_iff in Hc as [_ Hc]. exact Hc.
Qed.

(** Saving and reading back: the file that [SaveGame.save] builds from
    the instructions [ps] is read by [readlines] as one line per
    instruction, and [get_pos] turns each line back into its
    instruction. *)
Theorem save_file_roundtrip (ps : list (Z * Z)) :
  readlines (save_file ps) = map save_line ps /\
  map get_pos (readlines (save_file ps)) = map Ok ps.
Proof.
  assert (Hr : readlines (save_file ps) = map save_line ps).
  { unfold readlines. rewrite (universal_newlines_id _ (save_file_no_cr ps)).
    induction ps as [|p ps IH]; [reflexivity|]. cbn [save_file map].
    destruct (save_line_shape p) as (a & Hp & Ha). rewrite Hp.
    unfold nl. rewrite app_assoc_str, append_cons, append_nil.
    rewrite (split_lines_app _ _ Ha), IH. reflexivity. }
  split; [exact Hr|]. rewrite Hr, map_map.
  apply map_ext. apply save_line_get_pos.
Qed.

End StrExtra.

Module ReplayExtra.
Import Othello Input Turns PyStr Replay ProofDefs StrExtra.

Lemma normalize_pair (f : string -> option Z) (x y : Z) : normalize f (PTuple [PInt x; PInt y]) = Ok (x, y).
Proof. reflexivity. Qed.

(** A position [can_be_placed] accepted is accepted again in its
    normalised form [(int, int)]. *)
Lemma can_be_placed_again (f : string -> option Z) (pm : pmoves) (v : pyval) (c : piece) (x y : Z) :
  can_be_placed f pm v c = Ok (PTuple [PInt x; PInt y], true) ->
  can_be_placed f pm (PTuple [PInt x; PInt y]) c = Ok (PTuple [PInt x; PInt y], true).
Proof.
  intros H. unfold can_be_placed in H.
  destruct (normalize f v) as [[x0 y0]|[]]; try discriminate.
  destruct (decide _) as [Hr|]; [|discriminate].
  destruct (pm_get pm c) as [d|] eqn:Hd; [|discriminate].
  destruct (decide _) as [Hk|]; [|discriminate].
  injection H as -> ->. unfold can_be_placed. rewrite normalize_pair.
  rewrite decide_True by exact Hr. rewrite Hd, decide_True by exact Hk. reflexivity.
Qed.

Lemma play_clicks_load (msgs : list msg) (g : grid) (pm : pmoves) (c' mover : piece)
    (saved : list (Z * Z)) (gf : grid) (sf : list (Z * Z)) :
  (play_clicks msgs g pm c' mover saved = Finished gf sf \/
   play_clicks msgs g pm c' mover saved = Quit gf sf \/
   play_clicks msgs g pm c' mover saved = Waiting gf sf) ->
  exists fresh, sf = saved ++ fresh /\
  forall gen colour lc seek states,
    end_game_step pm gen = Some (mover, c') -> pm = board_change g ->
    lc + Z.of_nat (List.length fresh) <= seek ->
    exists col st, load_loop (map save_line fresh) g pm gen colour lc seek states
                     = inr (gf, board_change gf, col, states ++ st) /\ List.length st = List.length fresh.
Proof.
  revert g pm c' mover saved. induction msgs as [|[v|] rest IH]; intros g pm c' mover saved Hout.
  - cbn in Hout. destruct Hout as [H|[H|H]]; try discriminate. injection H as <- <-.
    exists []. rewrite app_nil_r. split; [reflexivity|].
    intros gen colour lc seek states _ -> _. exists colour, []. rewrite app_nil_r. split; reflexivity.
  - cbn [play_clicks] in Hout.
    destruct (can_be_placed py_int_of_str pm v mover) as [[pos ok]|e] eqn:Hc;
      [|destruct Hout as [H|[H|H]]; discriminate].
    destruct ok.
    2:{ apply (IH g pm c' mover saved).
        destruct pos as [| | |l]; try exact Hout.
        destruct l as [|a l]; [exact Hout|]. destruct a; try exact Hout.
        destruct l as [|b l]; [exact Hout|]. destruct b; try exact Hout.
        destruct l; exact Hout. }
    destruct pos as [| | |[|[x| | | ] [|[y| | | ] [|]]]];
      try (destruct Hout as [H|[H|H]]; discriminate).
    destruct (oplace g pm (x, y) mover) as [[g' pm']|] eqn:Hp; [|destruct Hout as [H|[H|H]]; discriminate].
    assert (Hpm' : pm' = board_change g').
    { unfold oplace in Hp. destruct (pm_get pm mover); [|discriminate].
      destruct (dict_get _ _); [|discriminate]. congruence. }
    assert (Hline : forall gen colour lc seek states rest_lines,
        end_game_step pm gen = Some (mover, c') -> lc <> seek ->
        load_loop (save_line (x, y) :: rest_lines) g pm gen colour lc seek states =
        load_loop rest_lines g' pm' c' mover (lc + 1) seek (states ++ [(g, mover)])).
    { intros gen colour lc seek states rest_lines Hs Hne. cbn [load_loop]. rewrite Hs.
      rewrite (proj2 (Z.eqb_neq lc seek) Hne). rewrite save_line_get_pos.
      rewrite (can_be_placed_again _ _ _ _ _ _ Hc), Hp. reflexivity. }
    destruct (end_game_step pm' c') as [[m2 c2]|] eqn:Hs2.
    + destruct (IH g' pm' c2 m2 (saved ++ [(x, y)]) Hout) as (fresh & Hsf & Hload).
      exists ((x, y) :: fresh). split; [rewrite Hsf, <- app_assoc; reflexivity|].
      intros gen colour lc seek states Hs -> Hlen. cbn [Datatypes.length map] in *.
      rewrite Hline by (auto; lia).
      destruct (Hload c' mover (lc + 1) seek (states ++ [(g, mover)]) Hs2 Hpm' ltac:(lia))
        as (col & st & Hl & Hst).
      exists col, ((g, mover) :: st). rewrite Hl, <- app_assoc. split; [reflexivity|]. cbn. lia.
    + destruct Hout as [H|[H|H]]; try discriminate. injection H as <- <-.
      exists [(x, y)]. split; [reflexivity|].
      intros gen colour lc seek states Hs -> Hlen. cbn [Datatypes.length map] in *.
      rewrite Hline by (auto; lia). subst pm'.
      exists mover, [(g, mover)]. split; reflexivity.
  - cbn in Hout. destruct Hout as [H|[H|H]]; try discriminate. injection H as <- <-.
    exists []. rewrite app_nil_r. split; [reflexivity|].
    intros gen colour lc seek states _ -> _. exists colour, []. rewrite app_nil_r. split; reflexivity.
Qed.

(** Replaying a saved game: when [LocalVersus.play] stops, on any
    message sequence, after saving [saved], loading that save file with a
    [seek_amount] of at least its length rebuilds the same board, with one
    previous state per line plus the final one, the last of them the
    loader's board and colour, and [current_line] and [max_line] at the
    number of lines. *)
Theorem play_then_load (msgs : list msg) (g : grid) (saved : list (Z * Z)) (seek_amount : Z) :
  (play msgs = Finished g saved \/ play msgs = Quit g saved \/ play msgs = Waiting g saved) ->
  Z.of_nat (List.length saved) <= seek_amount ->
  exists l, saved_games_load seek_amount (save_file saved) = inr l /\
    ld_board l = g /\ ld_pm l = board_change g /\
    List.length (ld_states l) = S (List.length saved) /\
    nth_error (ld_states l) (List.length saved) = Some (ld_board l, ld_colour l) /\
    ld_current l = Z.of_nat (List.length saved) /\ ld_max l = Z.of_nat (List.length saved).
Proof.
  intros Hplay Hseek. unfold saved_games_load.
  rewrite (proj1 (save_file_roundtrip saved)), length_map.
  unfold play in Hplay. destruct (end_game_step (board_change start_board) B) as [[m c']|] eqn:Hs.
  - destruct (play_clicks_load msgs start_board (board_change start_board) c' m [] g saved Hplay)
      as (fresh & Hsf & Hload). cbn in Hsf. subst fresh.
    destruct (Hload (FLIP_RULE W) W 0 (Z.max seek_amount 0) [] Hs eq_refl ltac:(lia))
      as (col & st & -> & Hst).
    eexists. split; [reflexivity|]. cbn. rewrite length_app, Hst. cbn.
    rewrite nth_error_app2 by lia. rewrite Hst, Nat.sub_diag. repeat split; lia.
  - vm_compute in Hs. discriminate.
Qed.

Lemma play_then_load_witness :
  match play sample_clicks with
  | Quit g saved =>
      Z.of_nat (List.length saved) <= 2 /\
      exists l, saved_games_load 2 (save_file saved) = inr l /\
        ld_board l = g /\ ld_pm l = board_change g /\
        List.length (ld_states l) = S (List.length saved) /\
        nth_error (ld_states l) (List.length saved) = Some (ld_board l, ld_colour l) /\
        ld_current l = Z.of_nat (List.length saved) /\ ld_max l = Z.of_nat (List.length saved)
  | _ => False
  end.
Proof.
  destruct (play sample_clicks) as [g saved|g saved|g saved|e] eqn:Hp;
    try (vm_compute in Hp; discriminate).
  assert (Hl : Z.of_nat (List.length saved) <= 2) by (vm_compute in Hp; injection Hp as _ <-; vm_compute; discriminate).
  split; [exact Hl|].
  exact (play_then_load sample_clicks g saved 2 (or_intror (or_introl Hp)) Hl).
Defined.

End ReplayExtra.

Module NavExtra.
Import Othello Input Turns PyStr Replay.

(** The buttons of a loaded game: from a loader whose board and colour
    are [previous_states[current_line]], with [board_change] run on that
    board and [0 <= current_line <= max_line], a step forwards undone by
    a step backwards, and a step backwards undone by a step forwards,
    give back the same loader. *)
Theorem line_load_roundtrip (l : loader) :
  nth_error (ld_states l) (Z.to_nat (ld_current l)) = Some (ld_board l, ld_colour l) ->
  ld_pm l = board_change (ld_board l) -> 0 <= ld_current l <= ld_max l ->
  (forall l1, line_load_forwards l = inr l1 -> line_load_backwards l1 = inr l) /\
  (forall l1, line_load_backwards l = inr l1 -> line_load_forwards l1 = inr l).
Proof.
  destruct l as [b pm c states cur mx]; cbn [ld_states ld_current ld_board ld_colour ld_pm ld_max].
  intros Hn Hpm Hr. subst pm. split; intros l1 H.
  - unfold line_load_forwards in H; cbn [ld_states ld_current ld_max] in H.
    destruct (cur <? mx) eqn:Hlt; [|discriminate].
    destruct (nth_error states (Z.to_nat (cur + 1))) as [[b1 c1]|]; [|discriminate].
    injection H as <-. unfold line_load_backwards, update_board_state; cbn.
    destruct (0 <? cur + 1) eqn:H0; [|apply Z.ltb_ge in H0; lia].
    replace (cur + 1 - 1) with cur by lia. rewrite Hn. reflexivity.
  - unfold line_load_backwards in H; cbn [ld_states ld_current ld_max] in H.
    destruct (0 <? cur) eqn:H0; [|discriminate]. apply Z.ltb_lt in H0.
    destruct (nth_error states (Z.to_nat (cur - 1))) as [[b1 c1]|]; [|discriminate].
    injection H as <-. unfold line_load_forwards, update_board_state; cbn.
    destruct (cur - 1 <? mx) eqn:H1; [|apply Z.ltb_ge in H1; lia].
    replace (cur - 1 + 1) with cur by lia. rewrite Hn. reflexivity.
Qed.

Lemma line_load_roundtrip_witness :
  match saved_games_load 64 (save_file [(3, 2); (2, 2)]) with
  | inr l =>
      (nth_error (ld_states l) (Z.to_nat (ld_current l)) = Some (ld_board l, ld_colour l) /\
       ld_pm l = board_change (ld_board l) /\ 0 <= ld_current l <= ld_max l) /\
      (forall l1, line_load_forwards l = inr l1 -> line_load_backwards l1 = inr l) /\
      (forall l1, line_load_backwards l = inr l1 -> line_load_forwards l1 = inr l)
  | inl _ => False
  end.
Proof.
  destruct (saved_games_load 64 (save_file [(3, 2); (2, 2)])) as [e|l] eqn:Hl;
    [vm_compute in Hl; discriminate|].
  assert (H1 : nth_error (ld_states l) (Z.to_nat (ld_current l)) = Some (ld_board l, ld_colour l))
    by (vm_compute in Hl; injection Hl as <-; vm_compute; reflexivity).
  assert (H2 : ld_pm l = board_change (ld_board l))
    by (vm_compute in Hl; injection Hl as <-; reflexivity).
  assert (H3 : 0 <= ld_current l <= ld_max l)
    by (vm_compute in Hl; injection Hl as <-; cbn; lia).
  split; [auto|]. exact (line_load_roundtrip l H1 H2 H3).
Defined.

End NavExtra.

Module UIExtra.
Import Othello Input Eval Turns PyStr Replay TextUI PmFacts TerminalProofs EvalProofs TurnProofs.

Lemma sorted_count_second_key (cnt : counts) :
  0 <= cW cnt -> 0 <= cB cnt ->
  (nth_count (sorted_count cnt) 1).2 = if decide (cB cnt <= cW cnt) then B else W.
Proof.
  destruct cnt as [w b e]. unfold sorted_count, sort_desc, nth_count; simpl. intros Hw Hb.
  repeat (destruct (decide _); simpl); try reflexivity; lia.
Qed.

(** [load_othello] on one save file whose first line is [line]: a line
    [get_pos] cannot read ([int()] fails, or no comma) raises out of
    [load], past the [except BoardError], instead of being reported as
    [LOCAL_IO["Fail"]]; a readable first line that is not a legal move
    for Black on the start board is reported as [LOCAL_IO["Fail"]]. *)
Theorem load_othello_first_line (contents line : string) (rest : list string) :
  readlines contents = line :: rest ->
  (forall e, get_pos line = Err e -> load_othello_one contents = LoaderCrashed e) /\
  (forall x y, get_pos line = Ok (x, y) ->
     can_be_placed py_int_of_str (board_change start_board) (PTuple [PInt x; PInt y]) B
       = Ok (PTuple [PInt x; PInt y], false) ->
     load_othello_one contents = Fail).
Proof.
  intros Hr.
  assert (Hs : end_game_step (board_change start_board) (FLIP_RULE W) = Some (B, W))
    by (vm_compute; reflexivity).
  unfold load_othello_one, saved_games_load. rewrite Hr. cbn [load_loop]. rewrite Hs.
  change (Z.eqb 0 (Z.max 64 0)) with false. cbv iota beta.
  split.
  - intros e He. rewrite He. reflexivity.
  - intros x y Hp Hc. rewrite Hp, Hc. reflexivity.
Qed.

Lemma load_othello_first_line_witness :
  readlines "a,1"%string = ["a,1"%string] /\
  load_othello_one "a,1"%string = LoaderCrashed ValueError.
Proof.
  assert (Hr : readlines "a,1"%string = ["a,1"%string]) by reflexivity.
  split; [exact Hr|].
  apply (proj1 (load_othello_first_line "a,1"%string "a,1"%string [] Hr)). reflexivity.
Defined.

(** [Text.evaluate_winner]: it raises [BoardError] exactly while some
    colour has a legal move; otherwise it reports a tie when both colours
    have as many discs, else names the colour with more discs as the
    winner, each with its count. *)
Theorem evaluate_winner_spec (g : grid) (pm : pmoves) :
  let w := cW (count_pieces g) in
  let b := cB (count_pieces g) in
  ((exists m, evaluate_winner g pm = inl m) <-> n_moves pm W <> 0%nat \/ n_moves pm B <> 0%nat) /\
  (n_moves pm W = 0%nat -> n_moves pm B = 0%nat ->
   evaluate_winner g pm =
     inr (if Z.eqb w b then
            String.append "The game ended in a try. You both had: " (String.append (py_str_int w) " pieces.")
          else if b <? w then
            String.append "W has won, with " (String.append (py_str_int w)
              (String.append " pieces. B lost, with " (String.append (py_str_int b) " pieces.")))
          else
            String.append "B has won, with " (String.append (py_str_int b)
              (String.append " pieces. W lost, with " (String.append (py_str_int w) " pieces."))))).
Proof.
  intros w b. pose proof (end_game_step_stops pm B ltac:(discriminate)) as Hstop.
  assert (Hnone : n_moves pm W = 0%nat -> n_moves pm B = 0%nat ->
    evaluate_winner g pm = inr (if Z.eqb w b then
            String.append "The game ended in a try. You both had: " (String.append (py_str_int w) " pieces.")
          else if b <? w then
            String.append "W has won, with " (String.append (py_str_int w)
              (String.append " pieces. B lost, with " (String.append (py_str_int b) " pieces.")))
          else
            String.append "B has won, with " (String.append (py_str_int b)
              (String.append " pieces. W lost, with " (String.append (py_str_int w) " pieces."))))).
  { intros HW HB. unfold evaluate_winner. rewrite (proj2 Hstop (conj HW HB)).
    destruct (count_nonneg g) as [Hw Hb]. fold w b in Hw, Hb.
    pose proof (sorted_count_first (count_pieces g) Hw Hb) as H0.
    pose proof (sorted_count_second (count_pieces g)) as H1. fold w b in H0, H1.
    destruct (nth_count (sorted_count (count_pieces g)) 1) as [v1 k1] eqn:E1.
    assert (Hk1 : k1 = if decide (b <= w) then B else W).
    { pose proof (sorted_count_second_key (count_pieces g) Hw Hb) as Hk. rewrite E1 in Hk. exact Hk. }
    rewrite H0. cbn in H1. subst v1 k1.
    destruct (decide (b <= w)) as [Hle|Hgt].
    - destruct (Z.eqb_spec w (Z.min w b)) as [He|He].
      + rewrite (proj2 (Z.eqb_eq w b)) by lia. reflexivity.
      + rewrite (proj2 (Z.eqb_neq w b)) by lia. rewrite (proj2 (Z.ltb_lt b w)) by lia.
        rewrite Z.min_r by lia. reflexivity.
    - rewrite (proj2 (Z.eqb_neq b (Z.min w b))) by lia.
      rewrite (proj2 (Z.eqb_neq w b)) by lia. rewrite (proj2 (Z.ltb_ge b w)) by lia.
      rewrite Z.min_l by lia. reflexivity. }
  split; [|exact Hnone].
  split.
  - intros [m Hm]. destruct (Nat.eq_dec (n_moves pm W) 0%nat) as [HW|HW]; [|left; exact HW].
    destruct (Nat.eq_dec (n_moves pm B) 0%nat) as [HB|HB]; [|right; exact HB].
    rewrite (Hnone HW HB) in Hm. destruct (Z.eqb w b), (b <? w); discriminate.
  - intros Hm. unfold evaluate_winner.
    destruct (end_game_step pm B) eqn:Hs; [eexists; reflexivity|].
    destruct Hstop as [Hs' _]. specialize (Hs' eq_refl). lia.
Qed.

End UIExtra.

Module MovesExtra.
Import Othello Rules ProofDefs BoardFacts.

Lemma dict_get_set {V} (d : dict (Z * Z) V) (k q : Z * Z) (v : V) :
  dict_get (dict_set d k v) q = if decide (q = k) then Some v else dict_get d q.
Proof.
  induction d as [|[k0 v0] t IH]; cbn [dict_set dict_get].
  - destruct (decide (q = k)); reflexivity.
  - destruct (decide (k = k0)) as [<-|Hk]; cbn [dict_get].
    + repeat case_decide; congruence.
    + rewrite IH. repeat case_decide; subst; congruence.
Qed.

Lemma dict_get_add_dir (d : dict (Z * Z) (list (Z * Z))) (pos chk q : Z * Z) :
  dict_get (add_dir d pos chk) q =
  if decide (q = pos) then ext (dict_get d q) [chk] else dict_get d q.
Proof.
  unfold add_dir. destruct (decide (q = pos)) as [->|Hq].
  - destruct (dict_get d pos) eqn:E; rewrite dict_get_set, decide_True by reflexivity; reflexivity.
  - destruct (dict_get d pos); rewrite dict_get_set, decide_False by exact Hq; reflexivity.
Qed.

Lemma ext_app (o : option (list (Z * Z))) (l1 l2 : list (Z * Z)) : ext (ext o l1) l2 = ext o (l1 ++ l2).
Proof.
  destruct l1 as [|a1 l1]; [reflexivity|]. destruct l2 as [|a2 l2].
  - rewrite app_nil_r. reflexivity.
  - cbn. rewrite <- app_assoc. reflexivity.
Qed.

Lemma adj_step_get (g : grid) (pos : Z * Z) (pm : pmoves) (a : piece * (Z * Z)) (c : piece) (q : Z * Z) :
  c <> E ->
  dict_get (pm_of c (adj_step g pos pm a)) q =
  if decide (q = pos) then ext (dict_get (pm_of c pm) q) (contrib g pos c a) else dict_get (pm_of c pm) q.
Proof.
  intros Hc. destruct a as [p d]. unfold adj_step, contrib; cbn [fst snd].
  destruct p, c; try congruence; cbn [FLIP_RULE pm_of fst snd];
    repeat (case_decide; try congruence);
    repeat (destruct (check_flip_line _ _ _ _); cbn [pm_of pmW pmB]);
    rewrite ?dict_get_add_dir; repeat (case_decide; try congruence); reflexivity.
Qed.

Lemma fold_adj_get (g : grid) (pos : Z * Z) (c : piece) (q : Z * Z) (adjs : list (piece * (Z * Z))) (pm : pmoves) :
  c <> E ->
  dict_get (pm_of c (fold_left (adj_step g pos) adjs pm)) q =
  if decide (q = pos) then ext (dict_get (pm_of c pm) q) (flat_map (contrib g pos c) adjs)
  else dict_get (pm_of c pm) q.
Proof.
  intros Hc. revert pm. induction adjs as [|a t IH]; intros pm.
  - cbn. destruct (decide (q = pos)); reflexivity.
  - cbn [fold_left flat_map]. rewrite IH, adj_step_get by exact Hc.
    destruct (decide (q = pos)); [apply ext_app|reflexivity].
Qed.

Lemma scan_loop_shape (g : grid) (pos : Z * Z) (c : piece) (d : Z * Z) (fuel : nat) (i k : Z) (df : bool) :
  scan_loop g pos c d i fuel df = Some k -> i <= k /\ (df = false -> i < k).
Proof.
  revert i df. induction fuel as [|f IH]; intros i df Hs; cbn in Hs; [discriminate|].
  destruct (decide _); [|discriminate]. destruct df; cbn in Hs.
  - destruct (decide _); [injection Hs as <-; split; [lia|discriminate]|].
    destruct (decide _); [discriminate|]. apply IH in Hs. split; [lia|discriminate].
  - destruct (decide _); [discriminate|]. apply IH in Hs. lia.
Qed.

Lemma line_scan_first (g : grid) (pos : Z * Z) (c : piece) (d : Z * Z) (k : Z) :
  line_scan g pos c d = Some k ->
  in_range (pos.1 + d.1) (pos.2 + d.2) /\ get g (pos.1 + d.1) (pos.2 + d.2) = FLIP_RULE c /\ 2 <= k.
Proof.
  intros Hs. pose proof (proj2 (scan_loop_shape _ _ _ _ _ _ _ _ Hs) eq_refl) as Hk.
  unfold line_scan in Hs. cbn in Hs.
  replace (d.1 * 1 + pos.1) with (pos.1 + d.1) in Hs by lia.
  replace (d.2 * 1 + pos.2) with (pos.2 + d.2) in Hs by lia.
  destruct (decide _) as [Hr|]; [|discriminate].
  destruct (decide _) as [|Hg]; [discriminate|].
  split; [exact Hr|]. split; [|lia]. destruct (decide (get g (pos.1 + d.1) (pos.2 + d.2) = FLIP_RULE c)); tauto.
Qed.

Lemma check_flip_line_eq (g : grid) (pos : Z * Z) (c : piece) (d : Z * Z) :
  check_flip_line g pos c d = match line_scan g pos c d with Some _ => Some d | None => None end.
Proof.
  unfold check_flip_line, line_iterator. cbn [flat_map].
  destruct (line_scan g pos c d) as [k|] eqn:Hs; [|reflexivity].
  destruct (line_scan_first _ _ _ _ _ Hs) as (_ & _ & Hk).
  unfold line_cells, zrange. replace (Z.to_nat (k - 1)) with (S (Z.to_nat (k - 2))) by lia.
  reflexivity.
Qed.

Lemma contrib_adjacent (g : grid) (pos : Z * Z) (c : piece) :
  c <> E -> flat_map (contrib g pos c) (adjacent g pos) = legal_dirs g pos c.
Proof.
  intros Hc. unfold adjacent, legal_dirs.
  induction FLIP_LINES as [|[sx sy] t IH]; [reflexivity|].
  cbn [flat_map List.filter]. rewrite flat_map_app, IH.
  assert (Hcell : flat_map (contrib g pos c)
      (if decide (in_range (pos.1 + sx) (pos.2 + sy))
       then if decide (get g (pos.1 + sx) (pos.2 + sy) <> E)
            then [(get g (pos.1 + sx) (pos.2 + sy), (sx, sy))] else [] else []) =
      match line_scan g pos c (sx, sy) with Some _ => [(sx, sy)] | None => [] end).
  { destruct (line_scan g pos c (sx, sy)) as [k|] eqn:Hs.
    - destruct (line_scan_first _ _ _ _ _ Hs) as (Hr & Hg & _). cbn [fst snd] in Hr, Hg.
      rewrite decide_True by exact Hr. rewrite Hg.
      rewrite decide_True by (destruct c; cbn; congruence).
      cbn. unfold contrib. cbn [fst snd]. rewrite decide_True by reflexivity.
      rewrite check_flip_line_eq, Hs. reflexivity.
    - destruct (decide _); [|reflexivity]. destruct (decide _); [|reflexivity].
      cbn. unfold contrib. cbn [fst snd]. rewrite check_flip_line_eq, Hs.
      destruct (decide _); reflexivity. }
  rewrite Hcell. destruct (line_scan g pos c (sx, sy)); reflexivity.
Qed.

Lemma cell_step_get (g : grid) (pm : pmoves) (x y : Z) (c : piece) (q : Z * Z) :
  c <> E ->
  dict_get (pm_of c (cell_step g pm x y)) q =
  if decide (q = (x, y)) then
    (if decide (get g x y = E) then ext (dict_get (pm_of c pm) q) (legal_dirs g (x, y) c)
     else dict_get (pm_of c pm) q)
  else dict_get (pm_of c pm) q.
Proof.
  intros Hc. unfold cell_step. destruct (decide (get g x y = E)).
  - rewrite fold_adj_get, contrib_adjacent by exact Hc. reflexivity.
  - destruct (decide (q = (x, y))); reflexivity.
Qed.

Lemma fold_keys {X : Type} (F : pmoves -> Z * Z -> option X) (step : pmoves -> Z * Z -> pmoves)
    (upd : Z * Z -> option X -> option X) (l : list (Z * Z)) :
  (forall pm k q, F (step pm k) q = if decide (q = k) then upd k (F pm q) else F pm q) ->
  NoDup l ->
  forall pm q, F (fold_left step l pm) q = if decide (q ∈ l) then upd q (F pm q) else F pm q.
Proof.
  intros Hstep Hnd. induction Hnd as [|k t Hk Hnd IH]; intros pm q; cbn [fold_left].
  - rewrite decide_False by apply not_elem_of_nil. reflexivity.
  - rewrite IH, Hstep.
    repeat case_decide; subst; try reflexivity; set_solver.
Qed.

Lemma fold_nested {C} (h : C -> Z -> Z -> C) (xs ys : list Z) (c0 : C) :
  fold_left (fun c x => fold_left (fun c y => h c x y) ys c) xs c0 =
  fold_left (fun c k => h c k.1 k.2) (list_prod xs ys) c0.
Proof.
  revert c0. induction xs as [|x t IH]; intros c0; [reflexivity|].
  cbn [list_prod fold_left]. rewrite fold_left_app, <- IH. f_equal.
  clear IH. revert c0. induction ys as [|y ys IHy]; intros c0; [reflexivity|]. cbn. apply IHy.
Qed.

(** [board_change]: for each colour, a position is a key of
    [possible_moves[colour]] exactly when it is an empty cell of the board
    from which at least one direction closes a line, and its value lists
    those directions in the order of [FLIP_LINES]; [possible_moves["E"]]
    is a [KeyError]. *)
Theorem board_change_moves (g : grid) (c : piece) (pos : Z * Z) :
  match pm_get (board_change g) c with
  | Some d => dict_get d pos =
      if decide (in_range pos.1 pos.2 /\ get g pos.1 pos.2 = E /\ legal_dirs g pos c <> [])
      then Some (legal_dirs g pos c) else None
  | None => c = E
  end.
Proof.
  destruct (decide (c = E)) as [->|Hc]; [reflexivity|].
  assert (Hd : pm_get (board_change g) c = Some (pm_of c (board_change g))) by (destruct c; [reflexivity|reflexivity|congruence]).
  rewrite Hd. unfold board_change. rewrite fold_nested.
  assert (Hnd : NoDup (list_prod (zrange BOARD_SIZE) (zrange BOARD_SIZE))).
  { apply (bool_decide_unpack _). vm_compute. exact I. }
  rewrite (fold_keys (fun pm q => dict_get (pm_of c pm) q) (fun pm k => cell_step g pm k.1 k.2)
             (fun k o => if decide (get g k.1 k.2 = E) then ext o (legal_dirs g k c) else o) _)
    by (exact Hnd || (intros pm [kx ky] q; apply cell_step_get; exact Hc)).
  assert (Hin : pos ∈ list_prod (zrange BOARD_SIZE) (zrange BOARD_SIZE) <-> in_range pos.1 pos.2).
  { destruct pos as [px py]. rewrite list_elem_of_In, in_prod_iff, !zrange_In by (unfold BOARD_SIZE; lia).
    unfold in_range, BOARD_SIZE. cbn. tauto. }
  assert (He : dict_get (pm_of c (mk_pmoves [] [])) pos = None) by (destruct c; reflexivity).
  rewrite He.
  destruct (decide (pos ∈ _)) as [Hp|Hp]; destruct (decide (in_range _ _ /\ _ /\ _)) as [Hl|Hl];
    try tauto.
  - destruct Hl as (_ & -> & Hne). rewrite decide_True by reflexivity.
    destruct (legal_dirs g pos c); [congruence|reflexivity].
  - destruct (decide (get g pos.1 pos.2 = E)) as [Hg|Hg]; [|reflexivity].
    destruct (legal_dirs g pos c) eqn:Hld; [reflexivity|].
    exfalso. apply Hl. split; [apply Hin; exact Hp|]. split; [exact Hg|congruence].
Qed.

End MovesExtra.

Module PlaceExtra.
Import Othello Rules ProofDefs BoardFacts MovesExtra.

Lemma piece_cases (c p : piece) : c <> E -> p <> c -> p <> E -> p = FLIP_RULE c.
Proof. destruct c, p; cbn; congruence. Qed.

Lemma FLIP_RULE_ne (c : piece) : c <> E -> FLIP_RULE c <> c /\ FLIP_RULE c <> E /\ FLIP_RULE (FLIP_RULE c) = c.
Proof. destruct c; cbn; intuition congruence. Qed.

(** The cells a successful scan passes over hold the opponent's discs. *)
Lemma scan_loop_cells (h : grid) (pos : Z * Z) (c : piece) (d : Z * Z) (fuel : nat) (i k : Z) (df : bool) :
  c <> E -> scan_loop h pos c d i fuel df = Some k ->
  forall z, i <= z < k ->
    in_range (d.1 * z + pos.1) (d.2 * z + pos.2) /\ get h (d.1 * z + pos.1) (d.2 * z + pos.2) = FLIP_RULE c.
Proof.
  intros Hc. revert i df. induction fuel as [|f IH]; intros i df Hs z Hz; cbn in Hs; [discriminate|].
  destruct (decide _) as [Hr|]; [|discriminate].
  destruct (Z.eq_dec z i) as [->|Hzi].
  - destruct df; cbn in Hs.
    + destruct (decide _) as [Hg|Hg]; [injection Hs as <-; lia|].
      destruct (decide _) as [He|He]; [discriminate|].
      split; [exact Hr|]. apply piece_cases; assumption.
    + destruct (decide _) as [Hg|Hg]; [discriminate|].
      split; [exact Hr|]. destruct (decide (get h (d.1 * i + pos.1) (d.2 * i + pos.2) = FLIP_RULE c)); tauto.
  - destruct df; cbn in Hs.
    + destruct (decide _); [injection Hs as <-; lia|].
      destruct (decide _); [discriminate|]. apply (IH (i + 1) true Hs). lia.
    + destruct (decide _); [discriminate|]. apply (IH (i + 1) true Hs). lia.
Qed.

Lemma oflip_get (h : grid) (p : Z * Z) (x y : Z) :
  wf h -> in_range p.1 p.2 -> in_range x y ->
  get (oflip h p) x y = if decide ((x, y) = p) then FLIP_RULE (get h p.1 p.2) else get h x y.
Proof. destruct p as [px py]. intros Hw Hp Hr. unfold oflip. apply get_set; assumption. Qed.

Lemma oflip_wf (h : grid) (p : Z * Z) : wf h -> in_range p.1 p.2 -> wf (oflip h p).
Proof. destruct p as [px py]. intros Hw Hp. unfold oflip. apply wf_set; assumption. Qed.

(** Flipping distinct opponent discs one by one turns each into [c]. *)
Lemma fold_oflip (c : piece) (ps : list (Z * Z)) (h : grid) :
  c <> E -> wf h -> NoDup ps ->
  (forall p, p ∈ ps -> in_range p.1 p.2 /\ get h p.1 p.2 = FLIP_RULE c) ->
  wf (fold_left oflip ps h) /\
  forall x y, in_range x y -> get (fold_left oflip ps h) x y = if decide ((x, y) ∈ ps) then c else get h x y.
Proof.
  intros Hc. revert h. induction ps as [|p ps IH]; intros h Hw Hnd Hps; cbn [fold_left].
  - split; [exact Hw|]. intros x y _. rewrite decide_False by apply not_elem_of_nil. reflexivity.
  - apply NoDup_cons in Hnd as [Hp Hnd].
    destruct (Hps p ltac:(apply elem_of_cons; left; reflexivity)) as [Hpr Hpg].
    assert (Hw1 : wf (oflip h p)) by (apply oflip_wf; assumption).
    assert (Hps1 : forall q, q ∈ ps -> in_range q.1 q.2 /\ get (oflip h p) q.1 q.2 = FLIP_RULE c).
    { intros [qx qy] Hq. cbn [fst snd]. destruct (Hps (qx, qy) ltac:(apply elem_of_cons; right; exact Hq)) as [Hqr Hqg].
      split; [exact Hqr|]. rewrite oflip_get by assumption.
      rewrite decide_False by (intros <-; contradiction). exact Hqg. }
    destruct (IH (oflip h p) Hw1 Hnd Hps1) as [Hw' Hg']. split; [exact Hw'|].
    intros x y Hr. rewrite Hg' by exact Hr. rewrite oflip_get by assumption.
    rewrite Hpg. pose proof (FLIP_RULE_ne c Hc) as (_ & _ & Hff).
    repeat case_decide; subst; try reflexivity; set_solver.
Qed.

Lemma FLIP_LINES_nonzero (d : Z * Z) : In d FLIP_LINES -> d <> (0, 0).
Proof. cbn. intros H. repeat destruct H as [<-|H]; try discriminate. contradiction. Qed.

Lemma cells_NoDup (pos d : Z * Z) (zs : list Z) :
  d <> (0, 0) -> NoDup zs -> NoDup (map (cell_of pos d) zs).
Proof.
  intros Hd Hnd. apply NoDup_fmap_2; [|exact Hnd].
  intros z1 z2 Heq. unfold cell_of in Heq. injection Heq as H1 H2.
  destruct d as [dx dy]. cbn in *.
  destruct (Z.eq_dec dx 0) as [->|Hx].
  - destruct (Z.eq_dec dy 0) as [->|Hy]; [congruence|]. nia.
  - nia.
Qed.

Lemma zs_NoDup (i : Z) : NoDup (map (Z.add 1) (zrange (i - 1))).
Proof.
  apply NoDup_fmap_2; [intros a b; lia|].
  apply NoDup_ListNoDup. apply NoDup_zrange.
Qed.

Lemma zs_In (i z : Z) : In z (map (Z.add 1) (zrange (i - 1))) <-> 1 <= z < i.
Proof.
  rewrite in_map_iff. split.
  - intros (z0 & <- & Hz). unfold zrange in Hz. apply in_map_iff in Hz as (n & <- & Hn).
    apply in_seq in Hn. lia.
  - intros Hz. exists (z - 1). split; [lia|]. unfold zrange. apply in_map_iff.
    exists (Z.to_nat (z - 1)). split; [lia|]. apply in_seq. lia.
Qed.

Lemma fold_cells (pos d : Z * Z) (zs : list Z) (h : grid) :
  fold_left (fun g '(x, y, _) => oflip g (x, y)) (map (fun z => (d.1 * z + pos.1, d.2 * z + pos.2, d)) zs) h =
  fold_left oflip (map (cell_of pos d) zs) h.
Proof. revert h. induction zs as [|z zs IH]; intros h; [reflexivity|]. cbn. apply IH. Qed.

(** The board during [flip_line]: [pos] holds [c], and every other cell
    is as before the move or an opponent disc turned into [c]. *)
Lemma direction_step (g h : grid) (pos d : Z * Z) (c : piece) :
  c <> E -> in_range pos.1 pos.2 -> d <> (0, 0) -> placed g h pos c ->
  let h' := match line_scan h pos c d with
            | Some i => fold_left (fun g '(x, y, _) => oflip g (x, y)) (line_cells pos d i) h
            | None => h
            end in
  placed g h' pos c /\ (forall x y, in_range x y -> get h x y = c -> get h' x y = c) /\
  (forall i, line_scan h pos c d = Some i -> forall z, 1 <= z < i ->
     get h' (d.1 * z + pos.1) (d.2 * z + pos.2) = c).
Proof.
  intros Hc Hpos Hd (Hw & Hhp & Hrest) h'. subst h'.
  destruct (line_scan h pos c d) as [i|] eqn:Hs.
  2:{ split; [split; [exact Hw|split; [exact Hhp|exact Hrest]]|].
      split; [auto|]. intros i' Hi'; discriminate. }
  set (ps := map (cell_of pos d) (map (Z.add 1) (zrange (i - 1)))).
  assert (Hfold : fold_left (fun g '(x, y, _) => oflip g (x, y)) (line_cells pos d i) h = fold_left oflip ps h).
  { unfold line_cells, ps. apply fold_cells. }
  rewrite Hfold.
  assert (Hps : forall p, p ∈ ps -> in_range p.1 p.2 /\ get h p.1 p.2 = FLIP_RULE c).
  { intros p Hp. unfold ps in Hp. apply list_elem_of_In, in_map_iff in Hp as (z & <- & Hz).
    apply zs_In in Hz. unfold line_scan in Hs. apply (scan_loop_cells h pos c d 7 1 i false Hc Hs). lia. }
  assert (Hnotpos : pos ∉ ps).
  { intros Hp. unfold ps in Hp. apply list_elem_of_In, in_map_iff in Hp as (z & Heq & Hz).
    apply zs_In in Hz. unfold cell_of in Heq. destruct pos as [px py], d as [dx dy].
    cbn in *. injection Heq as H1 H2. destruct (Z.eq_dec dx 0) as [->|Hx]; [|nia].
    destruct (Z.eq_dec dy 0) as [->|Hy]; [congruence|nia]. }
  destruct (fold_oflip c ps h Hc Hw (cells_NoDup pos d _ Hd (zs_NoDup i)) Hps) as [Hw' Hg'].
  split; [|split].
  - split; [exact Hw'|]. split.
    + rewrite Hg' by exact Hpos. rewrite decide_False by (destruct pos; exact Hnotpos). exact Hhp.
    + intros x y Hr Hne. rewrite Hg' by exact Hr. destruct (decide ((x, y) ∈ ps)) as [Hin|Hin].
      * destruct (Hps _ Hin) as [_ Hopp]. cbn in Hopp.
        destruct (Hrest x y Hr Hne) as [Heq|[_ Hhc]].
        -- right. split; [congruence|reflexivity].
        -- exfalso. rewrite Hhc in Hopp. destruct (FLIP_RULE_ne c Hc) as (Hn & _). congruence.
      * apply Hrest; assumption.
  - intros x y Hr Hh. rewrite Hg' by exact Hr. destruct (decide _); [reflexivity|exact Hh].
  - intros i' Hi' z Hz. injection Hi' as <-. assert (Hin : cell_of pos d z ∈ ps).
    { unfold ps. apply list_elem_of_In, in_map_iff. exists z. split; [reflexivity|]. apply zs_In. exact Hz. }
    destruct (Hps _ Hin) as [Hr _]. unfold cell_of in Hr, Hin. cbn in Hr.
    rewrite Hg' by exact Hr. rewrite decide_True by exact Hin. reflexivity.
Qed.

Lemma fold_dirs (g : grid) (pos : Z * Z) (c : piece) (dirs : list (Z * Z)) (h : grid) :
  c <> E -> in_range pos.1 pos.2 -> (forall d, In d dirs -> In d FLIP_LINES) -> placed g h pos c ->
  let h' := fold_left (fun g d =>
              match line_scan g pos c d with
              | Some i => fold_left (fun g '(x, y, _) => oflip g (x, y)) (line_cells pos d i) g
              | None => g
              end) dirs h in
  placed g h' pos c /\ (forall x y, in_range x y -> get h x y = c -> get h' x y = c).
Proof.
  intros Hc Hpos. revert h. induction dirs as [|d t IH]; intros h Hdirs Hpl; cbn [fold_left].
  - split; auto.
  - assert (Hd : d <> (0, 0)) by (apply FLIP_LINES_nonzero, Hdirs; left; reflexivity).
    destruct (direction_step g h pos d c Hc Hpos Hd Hpl) as (Hpl1 & Hmono1 & _).
    destruct (IH _ (fun d' Hd' => Hdirs d' (or_intror Hd')) Hpl1) as [Hpl2 Hmono2].
    split; [exact Hpl2|]. intros x y Hr Hh. apply Hmono2; [exact Hr|]. apply Hmono1; assumption.
Qed.

Lemma scan_loop_ext (h h' : grid) (pos d : Z * Z) (c : piece) (fuel : nat) (i : Z) (df : bool) :
  (forall x y, in_range x y -> (x, y) <> pos -> get h x y = get h' x y) -> d <> (0, 0) -> 1 <= i ->
  scan_loop h pos c d i fuel df = scan_loop h' pos c d i fuel df.
Proof.
  intros Hag Hd. revert i df. induction fuel as [|f IH]; intros i df Hi; [reflexivity|]. cbn.
  destruct (decide _) as [Hr|]; [|reflexivity].
  assert (Hne : (d.1 * i + pos.1, d.2 * i + pos.2) <> pos).
  { destruct pos as [px py], d as [dx dy]. cbn. intros Heq. injection Heq as H1 H2.
    destruct (Z.eq_dec dx 0) as [->|Hx]; [|nia]. destruct (Z.eq_dec dy 0) as [->|Hy]; [congruence|nia]. }
  rewrite (Hag _ _ Hr Hne). rewrite !IH by lia. reflexivity.
Qed.

(** [Othello.place] with the moves of [board_change]: the move is an
    empty cell of the board, the board stays 8 x 8, [pos] gets [c],
    every other cell keeps its disc or is an opponent disc turned into
    [c], at least one disc is turned, and [possible_moves] is recomputed
    for the new board. *)
Theorem place_flips (g : grid) (pos : Z * Z) (c : piece) (g' : grid) (pm' : pmoves) :
  wf g -> oplace g (board_change g) pos c = Some (g', pm') ->
  wf g' /\ pm' = board_change g' /\
  in_range pos.1 pos.2 /\ get g pos.1 pos.2 = E /\ get g' pos.1 pos.2 = c /\
  (forall x y, in_range x y -> (x, y) <> pos ->
     get g' x y = get g x y \/ (get g x y = FLIP_RULE c /\ get g' x y = c)) /\
  (exists x y, in_range x y /\ get g x y = FLIP_RULE c /\ get g' x y = c).
Proof.
  intros Hw Hpl. pose proof (board_change_moves g c pos) as Hmv.
  destruct pos as [px py]. unfold oplace in Hpl.
  destruct (pm_get (board_change g) c) as [dct|] eqn:Hpm; [|discriminate].
  assert (Hc : c <> E) by (intros ->; discriminate).
  destruct (dict_get dct (px, py)) as [dirs|] eqn:Hdirs; [|discriminate].
  cbn [fst snd] in Hmv.
  destruct (decide _) as [(Hr & He & Hne)|]; [|discriminate]. injection Hmv as ->.
  injection Hpl as <- <-.
  set (h0 := set g px py c).
  assert (Hw0 : wf h0) by (apply wf_set; assumption).
  assert (Hag : forall x y, in_range x y -> (x, y) <> (px, py) -> get h0 x y = get g x y).
  { intros x y Hxy Hn. unfold h0. rewrite get_set by assumption. rewrite decide_False by exact Hn. reflexivity. }
  assert (Hpl0 : placed g h0 (px, py) c).
  { split; [exact Hw0|]. split.
    - unfold h0. cbn [fst snd]. rewrite get_set by assumption. rewrite decide_True by reflexivity. reflexivity.
    - intros x y Hxy Hn. left. apply Hag; assumption. }
  assert (Hin : forall d, In d (legal_dirs g (px, py) c) -> In d FLIP_LINES).
  { intros d Hd. unfold legal_dirs in Hd. apply filter_In in Hd. tauto. }
  destruct (fold_dirs g (px, py) c (legal_dirs g (px, py) c) h0 Hc Hr Hin Hpl0) as [(Hw' & Hpos' & Hrest') Hmono].
  split; [exact Hw'|]. split; [reflexivity|]. split; [exact Hr|]. split; [exact He|].
  split; [exact Hpos'|]. split; [exact Hrest'|].
  destruct (legal_dirs g (px, py) c) as [|d0 rest] eqn:Hld; [congruence|].
  assert (Hd0 : In d0 (legal_dirs g (px, py) c)) by (rewrite Hld; left; reflexivity).
  unfold legal_dirs in Hd0. apply filter_In in Hd0 as [Hd0F Hd0s].
  destruct (line_scan g (px, py) c d0) as [i|] eqn:Hs; [|discriminate].
  destruct (line_scan_first _ _ _ _ _ Hs) as (Hr1 & Hg1 & Hi). cbn [fst snd] in Hr1, Hg1.
  assert (Hnz : d0 <> (0, 0)) by (apply FLIP_LINES_nonzero; exact Hd0F).
  assert (Hs0 : line_scan h0 (px, py) c d0 = Some i).
  { rewrite <- Hs. unfold line_scan. apply scan_loop_ext; [exact Hag|exact Hnz|lia]. }
  destruct (direction_step g h0 (px, py) d0 c Hc Hr Hnz Hpl0) as (Hpl1 & _ & Hcells).
  specialize (Hcells i Hs0 1 ltac:(lia)). cbn [fst snd] in Hcells.
  assert (Hrest : forall d, In d rest -> In d FLIP_LINES) by (intros d Hd; apply Hin; right; exact Hd).
  destruct (fold_dirs g (px, py) c rest _ Hc Hr Hrest Hpl1) as [_ Hmono1].
  exists (px + d0.1), (py + d0.2). split; [exact Hr1|]. split; [exact Hg1|].
  cbn [fold_left]. apply Hmono1; [exact Hr1|].
  replace (px + d0.1) with (d0.1 * 1 + px) by lia. replace (py + d0.2) with (d0.2 * 1 + py) by lia.
  exact Hcells.
Qed.

Lemma place_flips_witness :
  wf start_board /\
  match oplace start_board (board_change start_board) (3, 2) B with
  | Some (g', pm') =>
      wf g' /\ pm' = board_change g' /\
      in_range 3 2 /\ get start_board 3 2 = E /\ get g' 3 2 = B /\
      (forall x y, in_range x y -> (x, y) <> (3, 2) ->
         get g' x y = get start_board x y \/ (get start_board x y = FLIP_RULE B /\ get g' x y = B)) /\
      (exists x y, in_range x y /\ get start_board x y = FLIP_RULE B /\ get g' x y = B)
  | None => False
  end.
Proof.
  assert (Hw : wf start_board) by (vm_compute; split; [reflexivity | repeat constructor]).
  split; [exact Hw|].
  destruct (oplace start_board (board_change start_board) (3, 2) B) as [[g' pm']|] eqn:Hp.
  - exact (place_flips start_board (3, 2) B g' pm' Hw Hp).
  - vm_compute in Hp. discriminate.
Defined.

End PlaceExtra.

Module ResumeExtra.
Import Othello Input Turns PyStr Replay Resume.

Lemma can_be_placed_pair (f : string -> option Z) (pm : pmoves) (x y : Z) (c : piece) (v : pyval) (b : bool) :
  can_be_placed f pm (PTuple [PInt x; PInt y]) c = Ok (v, b) -> v = PTuple [PInt x; PInt y].
Proof.
  unfold can_be_placed. rewrite ReplayExtra.normalize_pair.
  destruct (decide _); [|congruence]. destruct (pm_get pm c); [|discriminate].
  destruct (decide _); congruence.
Qed.

Lemma load_loop_prefix (lines : list string) (g : grid) (pm : pmoves) (gc col : piece) (lc seek : Z)
    (states : list (grid * piece)) gF pmF colF sF :
  load_loop lines g pm gc col lc seek states = inr (gF, pmF, colF, sF) -> exists s', sF = states ++ s'.
Proof.
  revert g pm gc col lc states. induction lines as [|line rest IH]; intros g pm gc col lc states H; cbn [load_loop] in H.
  - injection H as _ _ _ <-. exists []. rewrite app_nil_r. reflexivity.
  - destruct (end_game_step pm gc) as [[m c']|].
    2:{ injection H as _ _ _ <-. exists []. rewrite app_nil_r. reflexivity. }
    destruct (lc =? seek).
    { injection H as _ _ _ <-. eexists. reflexivity. }
    destruct (get_pos line) as [[x y]|e]; [|discriminate].
    destruct (can_be_placed py_int_of_str pm (PTuple [PInt x; PInt y]) m) as [[v [|]]|e]; try discriminate.
    destruct (oplace g pm (x, y) m) as [[g' pm']|]; [|discriminate].
    destruct (IH _ _ _ _ _ _ H) as [s' ->]. exists ((g, m) :: s'). rewrite <- app_assoc. reflexivity.
Qed.

Lemma nth_error_snoc_ge {A} (l : list A) (x y : A) (n : nat) :
  (List.length l <= n)%nat -> nth_error (l ++ [x]) n = Some y -> n = List.length l /\ y = x.
Proof.
  intros Hn H. rewrite nth_error_app2 in H by lia.
  destruct (n - List.length l)%nat eqn:E; cbn in H.
  - injection H as <-. split; [lia|reflexivity].
  - destruct n0; discriminate.
Qed.

Lemma load_loop_colour (line : string) (rest : list string) (g : grid) (pm : pmoves) (gc col col2 : piece)
    (lc seek : Z) (states : list (grid * piece)) :
  end_game_step pm gc <> None ->
  load_loop (line :: rest) g pm gc col lc seek states = load_loop (line :: rest) g pm gc col2 lc seek states.
Proof. intros H. cbn [load_loop]. destruct (end_game_step pm gc) as [[m c']|]; [reflexivity|congruence]. Qed.

Lemma oplace_pm (g : grid) (pm : pmoves) (pos : Z * Z) (c : piece) (g' : grid) (pm' : pmoves) :
  oplace g pm pos c = Some (g', pm') -> pm' = board_change g'.
Proof.
  destruct pos as [x y]. unfold oplace. destruct (pm_get pm c); [|discriminate].
  destruct (dict_get _ _); [|discriminate]. intros H. injection H as <- <-. reflexivity.
Qed.

Lemma resume_loop_states (lines : list string) (g : grid) (gc col : piece) (lc seek k : Z)
    (states : list (grid * piece)) (saved : list (Z * Z)) gF pmF colF sF b c0 :
  List.length states = Z.to_nat lc -> 0 <= lc <= k -> k <= seek ->
  load_loop lines g (board_change g) gc col lc seek states = inr (gF, pmF, colF, sF) ->
  nth_error (sF ++ [(gF, colF)]) (Z.to_nat k) = Some (b, c0) ->
  exists saved', resume_loop lines g (board_change g) gc col lc k saved = inr (b, board_change b, c0, saved') /\
    List.length saved' = (List.length saved + Z.to_nat (k - lc))%nat.
Proof.
  revert g gc col lc states saved. induction lines as [|line rest IH];
    intros g gc col lc states saved Hlen Hk Hseek Hload Hnth; cbn [load_loop resume_loop] in Hload |- *.
  - injection Hload as <- <- <- <-. apply nth_error_snoc_ge in Hnth as [Hn Hbc]; [|lia].
    injection Hbc as <- <-. exists saved. split; [reflexivity|]. replace (k - lc) with 0 by lia. cbn. lia.
  - destruct (end_game_step (board_change g) gc) as [[m c']|].
    2:{ injection Hload as <- <- <- <-. apply nth_error_snoc_ge in Hnth as [Hn Hbc]; [|lia].
        injection Hbc as <- <-. exists saved. split; [reflexivity|]. replace (k - lc) with 0 by lia. cbn. lia. }
    assert (Hstate : k = lc -> b = g /\ c0 = m).
    { intros ->. destruct (lc =? seek).
      - injection Hload as <- <- <- <-. rewrite <- app_assoc, nth_error_app2 in Hnth by lia.
        rewrite Hlen, Nat.sub_diag in Hnth. cbn in Hnth. injection Hnth as <- <-. split; reflexivity.
      - destruct (get_pos line) as [[x y]|e]; [|discriminate].
        destruct (can_be_placed py_int_of_str (board_change g) (PTuple [PInt x; PInt y]) m) as [[v [|]]|e]; try discriminate.
        destruct (oplace g _ (x, y) m) as [[g' pm']|]; [|discriminate].
        destruct (load_loop_prefix _ _ _ _ _ _ _ _ _ _ _ _ Hload) as [s' ->].
        rewrite <- !app_assoc, nth_error_app2 in Hnth by lia.
        rewrite Hlen, Nat.sub_diag in Hnth. cbn in Hnth. injection Hnth as <- <-. split; reflexivity. }
    destruct (Z.eq_dec k lc) as [->|Hne].
    { rewrite Z.eqb_refl. destruct (Hstate eq_refl) as [-> ->]. exists saved. split; [reflexivity|].
      replace (lc - lc) with 0 by lia. cbn. lia. }
    rewrite (proj2 (Z.eqb_neq lc k)) by lia.
    destruct (lc =? seek) eqn:Hs.
    { apply Z.eqb_eq in Hs. lia. }
    destruct (get_pos line) as [[x y]|e]; [|discriminate].
    destruct (can_be_placed py_int_of_str (board_change g) (PTuple [PInt x; PInt y]) m) as [[v [|]]|e] eqn:Hc;
      try discriminate.
    rewrite (can_be_placed_pair _ _ _ _ _ _ _ Hc).
    destruct (oplace g (board_change g) (x, y) m) as [[g' pm']|] eqn:Ho; [|discriminate].
    pose proof (oplace_pm _ _ _ _ _ _ Ho) as ->.
    destruct (IH g' c' m (lc + 1) (states ++ [(g, m)]) (saved ++ [(x, y)])) as (saved' & Hr & Hl);
      [rewrite length_app; cbn; lia | lia | lia | exact Hload | exact Hnth |].
    exists saved'. split; [exact Hr|]. rewrite Hl, length_app. cbn. lia.
Qed.

(** Resuming a saved game with [LoadLocalVersus] or [LoadAI] at
    [line_count = k] (the [current_line] shown by the saved-game
    browser) rebuilds the board the browser shows at that line,
    [previous_states[k]] of a [SavedGamesLoader] that loaded the same
    file with any [seek_amount >= k], recomputes [possible_moves] for
    it, saves [k] positions to the new file, and sets
    [playing_colour] to the opposite of the colour recorded in
    [previous_states[k]]. *)
Theorem resume_matches_browser (contents : string) (seek k : Z) (l : loader) (b : grid) (c0 : piece) :
  readlines contents <> [] ->
  saved_games_load seek contents = inr l -> 0 <= k <= seek ->
  nth_error (ld_states l) (Z.to_nat k) = Some (b, c0) ->
  exists saved, resume_load contents k = inr (b, board_change b, FLIP_RULE c0, saved) /\
    List.length saved = Z.to_nat k.
Proof.
  intros Hne Hl Hk Hn. unfold saved_games_load in Hl. unfold resume_load.
  destruct (readlines contents) as [|line rest] eqn:Hr; [congruence|].
  rewrite (load_loop_colour line rest start_board _ _ W B 0 _ []) in Hl by (vm_compute; discriminate).
  destruct (load_loop _ _ _ _ _ _ _ _) as [e|[[[gF pmF] colF] sF]] eqn:Hload; [discriminate|].
  injection Hl as <-. cbn [ld_states] in Hn.
  destruct (resume_loop_states (line :: rest) start_board B B 0 (Z.max seek 0) k [] [] gF pmF colF sF b c0)
    as (saved & Hres & Hlen); [reflexivity | lia | lia | exact Hload | exact Hn |].
  rewrite Hres. exists saved. split; [reflexivity|]. rewrite Hlen. cbn. f_equal. lia.
Qed.

Lemma resume_matches_browser_witness :
  match saved_games_load 64 (save_file [(3, 2); (2, 2)]) with
  | inr l =>
      match nth_error (ld_states l) (Z.to_nat 1) with
      | Some (b, c0) =>
          readlines (save_file [(3, 2); (2, 2)]) <> [] /\ 0 <= 1 <= 64 /\
          exists saved, resume_load (save_file [(3, 2); (2, 2)]) 1 = inr (b, board_change b, FLIP_RULE c0, saved) /\
            List.length saved = Z.to_nat 1
      | None => False
      end
  | inl _ => False
  end.
Proof.
  destruct (saved_games_load 64 (save_file [(3, 2); (2, 2)])) as [e|l] eqn:Hl.
  - vm_compute in Hl. discriminate.
  - destruct (nth_error (ld_states l) (Z.to_nat 1)) as [[b c0]|] eqn:Hn.
    + assert (Hne : readlines (save_file [(3, 2); (2, 2)]) <> []) by (vm_compute; discriminate).
      assert (Hk : 0 <= 1 <= 64) by lia.
      split; [exact Hne|]. split; [exact Hk|].
      exact (resume_matches_browser _ 64 1 l b c0 Hne Hl Hk Hn).
    + pose proof (f_equal (fun r => match r with
                                    | inr l => nth_error (ld_states l) (Z.to_nat 1)
                                    | inl _ => None
                                    end) Hl) as E.
      cbn beta iota in E. rewrite Hn in E. vm_compute in E. discriminate.
Defined.

End ResumeExtra.
